(** * lardataobj: [lar::sparse_vector] and [sim::ParticleAncestryMap]

    A shallow embedding of
    - [lardataobj/Utilities/sparse_vector.h] (module [SparseVector]) and
    - [lardataobj/Simulation/ParticleAncestryMap.cxx] (module
      [ParticleAncestryMap]),
    followed by the properties of the two classes.

    Conventions of the embedding.
    - [size_type] is [std::size_t]: an index is a [Z] in [0, 2^64) and every
      arithmetic operation of the source on such a value is followed by
      [wrap].  [difference_type] is the signed reading of the same 64 bits.
    - A [std::vector<T>] is a [list T]; an iterator into the vector of ranges
      is a position ([nat]) in that list, [ranges.end()] being its length.
    - A call whose behaviour the C++ standard leaves undefined (dereferencing
      [end()], a null pointer, writing past a buffer) yields [Undefined];
      a C++ exception yields [Throw]. *)

From Stdlib Require Import ZArith List Bool Lia Sorted.
Import ListNotations.
Local Open Scope Z_scope.

(** ** Outcomes of calls: value, exception, or undefined behaviour *)

Inductive exception : Type :=
| out_of_range
| runtime_error.

Inductive outcome (A : Type) : Type :=
| Ret (a : A)
| Throw (e : exception)
| Undefined.

Arguments Ret {A} a.
Arguments Throw {A} e.
Arguments Undefined {A}.

Definition bind {A B : Type} (m : outcome A) (k : A -> outcome B) : outcome B :=
  match m with
  | Ret a => k a
  | Throw e => Throw e
  | Undefined => Undefined
  end.

Declare Scope outcome_scope.
Delimit Scope outcome_scope with outcome.
Notation "x <- m ;; k" := (bind m (fun x => k))
  (at level 61, m at next level, right associativity) : outcome_scope.
Local Open Scope outcome_scope.

(** ** Machine integers *)

Definition size_modulus : Z := 2 ^ 64.

(** Arithmetic on [size_type] is modulo [2^64]. *)
Definition wrap (x : Z) : Z := x mod size_modulus.

(** The value of a [size_type] converted to [difference_type]. *)
Definition to_signed (x : Z) : Z :=
  if x <? 2 ^ 63 then x else x - size_modulus.

(** * [sim::ParticleAncestryMap] *)

Module ParticleAncestryMap.

(** [std::numeric_limits<int>::max()], [int] being 32 bits wide *)
Definition int_max : Z := 2 ^ 31 - 1.

(** [std::map<int, std::set<int>>]: the entries in the order in which the
    map is iterated (increasing key), each set as the list of its elements. *)
Definition particle_map : Type := list (Z * list Z).

(** The invariant of [std::map]: the entries are in strictly increasing
    order of their keys, so that no key occurs twice. *)
Definition keys_increasing (map : particle_map) : Prop :=
  StronglySorted (fun entry entry' : Z * list Z => fst entry < fst entry') map.

Record ParticleAncestryMap : Type := Build { fParticleMap : particle_map }.

(** [SetMap(map)] and [GetMap()] *)
Definition SetMap (this : ParticleAncestryMap) (map : particle_map) : ParticleAncestryMap :=
  Build map.
Definition GetMap (this : ParticleAncestryMap) : particle_map := fParticleMap this.

(** [descendants.count(trackid) != 0] *)
Definition set_count (descendants : list Z) (trackid : Z) : bool :=
  existsb (Z.eqb trackid) descendants.

(** [fParticleMap.count(trackid) != 0] *)
Definition HasDroppedDescendants (this : ParticleAncestryMap) (trackid : Z) : bool :=
  existsb (fun entry => Z.eqb trackid (fst entry)) (fParticleMap this).

(** [fParticleMap.at(trackid)], which throws for a missing key *)
Definition GetAllDroppedDescendants (this : ParticleAncestryMap) (trackid : Z)
  : outcome (list Z) :=
  match find (fun entry => Z.eqb trackid (fst entry)) (fParticleMap this) with
  | Some entry => Ret (snd entry)
  | None => Throw out_of_range
  end.

(** The loop of [GetAncestor] over the entries that are left *)
Fixpoint GetAncestor_loop (entries : particle_map) (trackid : Z) : Z :=
  match entries with
  | [] => - int_max
  | (ancestor, descendants) :: entries' =>
      if set_count descendants trackid then ancestor
      else GetAncestor_loop entries' trackid
  end.

Definition GetAncestor (this : ParticleAncestryMap) (trackid : Z) : Z :=
  GetAncestor_loop (fParticleMap this) trackid.

Definition Exists (this : ParticleAncestryMap) (trackid : Z) : bool :=
  negb (trackid =? - int_max).

(** The map [{1 -> {2, 3}, 4 -> {5}}] *)
Definition example_map : ParticleAncestryMap := Build [(1, [2; 3]); (4, [5])].

End ParticleAncestryMap.

(** * [lar::sparse_vector<T>] *)

Module SparseVector.

(** ** [lar::range_t<size_type>] *)

Record range_t : Type := Range { offset : Z; last : Z }.

(** [range_t()] *)
Definition range_default : range_t := Range 0 0.

(** [range_t(from, to)] *)
Definition range_ctor (from to : Z) : range_t := Range from (Z.max from to).

Definition begin_index (r : range_t) : Z := offset r.
Definition end_index (r : range_t) : Z := last r.
Definition relative_index (r : range_t) (index : Z) : Z := wrap (index - offset r).
Definition size (r : range_t) : Z := wrap (last r - offset r).
Definition range_resize (r : range_t) (new_size : Z) : range_t :=
  Range (offset r) (wrap (offset r + new_size)).
Definition range_move_head (r : range_t) (shift : Z) : range_t :=
  Range (wrap (offset r + shift)) (last r).
Definition empty (r : range_t) : bool := last r <=? offset r.
Definition includes (r : range_t) (index : Z) : bool :=
  (offset r <=? index) && (index <? last r).
Definition borders (r : range_t) (index : Z) : bool :=
  (offset r <=? index) && (index <=? last r).
Definition separate (r other : range_t) : bool :=
  (end_index other <? begin_index r) || (end_index r <? begin_index other).
Definition less (a b : range_t) : bool := offset a <? offset b.
Definition less_int_range (a : Z) (b : range_t) : bool := a <? offset b.

(** [set(from, to)], [move_tail(shift)], [includes(const range_t&)],
    [overlap(r)], [operator==] and [is_valid()] *)
Definition range_set (r : range_t) (from to : Z) : range_t := Range from (Z.max from to).
Definition range_move_tail (r : range_t) (shift : Z) : range_t :=
  Range (offset r) (wrap (last r + shift)).
Definition includes_range (r other : range_t) : bool :=
  includes r (begin_index other) && includes r (end_index other).
Definition overlap (r other : range_t) : bool :=
  (begin_index r <? end_index other) && (begin_index other <? end_index r).
Definition range_eqb (r as_range : range_t) : bool :=
  (offset r =? offset as_range) && (last r =? last as_range).
Definition range_is_valid (r : range_t) : bool := offset r <=? last r.

(** The element types the class is used with: [value_zero] is the static
    member [sparse_vector<T>::value_zero], that is [T{0}]; the value [T()]
    that [std::vector<T>::resize] fills with is taken to be the same, as it
    is for the arithmetic types. *)
Class ValueType (T : Type) : Type := { value_zero : T }.

Section WithValueType.

Context {T : Type} {value_type : ValueType T}.

(** ** [std::vector<T>] operations used by the class *)

Definition vsize (l : list T) : Z := Z.of_nat (length l).

(** [l.resize(n, d)] *)
Definition vector_resize (l : list T) (n : Z) (d : T) : list T :=
  firstn (Z.to_nat n) l ++ repeat d (Z.to_nat n - length l).

(** [std::copy(data.begin(), data.end(), l.begin() + pos)], for a target
    that is long enough. *)
Definition copy_into (data : list T) (pos : nat) (l : list T) : list T :=
  firstn pos l ++ data ++ skipn (pos + length data) l.

(** ** [sparse_vector<T>::datarange_t] *)

Record datarange_t : Type := DataRange { base :> range_t; values : list T }.

(** [datarange_t()] *)
Definition datarange_default : datarange_t := DataRange range_default [].

(** [datarange_t(offset, first, last)] and [datarange_t(offset, vector_t&&)] *)
Definition datarange_ctor (ofs : Z) (data : list T) : datarange_t :=
  DataRange (range_ctor ofs (wrap (ofs + vsize data))) data.

(** [get_iterator(index)]: the position [values.begin() + index - begin_index()] *)
Definition get_iterator (r : datarange_t) (index : Z) : nat :=
  Z.to_nat (index - begin_index r).

(** [resize(new_size, def_value)], which ends with [fit_size_from_data()] *)
Definition datarange_resize (r : datarange_t) (new_size : Z) (def_value : T) : datarange_t :=
  let values' := vector_resize (values r) new_size def_value in
  DataRange (range_resize r (vsize values')) values'.

(** [operator[](index)] of a range, reading *)
Definition datarange_get (r : datarange_t) (index : Z) : T :=
  nth (Z.to_nat (relative_index r index)) (values r) value_zero.

(** [range[index] = value] *)
Definition datarange_set (r : datarange_t) (index : Z) (value : T) : datarange_t :=
  DataRange (base r) (copy_into [value] (Z.to_nat (relative_index r index)) (values r)).

(** [extend(index, first, last)] *)
Definition extend (r : datarange_t) (index : Z) (data : list T) : datarange_t :=
  let new_size := Z.max (wrap (relative_index r index + vsize data)) (size r) in
  DataRange (range_resize r new_size)
            (copy_into data (get_iterator r index)
                       (vector_resize (values r) new_size value_zero)).

(** [move_head(to_index, def_value)] *)
Definition move_head (r : datarange_t) (to_index : Z) (def_value : T) : datarange_t :=
  let delta := to_signed (wrap (to_index - begin_index r)) in
  if delta =? 0 then r
  else DataRange (range_move_head r delta)
                 (if 0 <? delta then skipn (Z.to_nat delta) (values r)
                  else repeat def_value (Z.to_nat (- delta)) ++ values r).

(** [move_tail(to_index, def_value)] *)
Definition move_tail (r : datarange_t) (to_index : Z) (def_value : T) : datarange_t :=
  datarange_resize r (relative_index r to_index) def_value.

(** ** [sparse_vector<T>] *)

Record sparse_vector : Type :=
  SparseVector { nominal_size : Z; ranges : list datarange_t }.

(** [sparse_vector()] *)
Definition sparse_vector_default : sparse_vector := SparseVector 0 [].

Definition vec_size (v : sparse_vector) : Z := nominal_size v.
Definition vec_empty (v : sparse_vector) : bool := vec_size v =? 0.
Definition n_ranges (v : sparse_vector) : Z := Z.of_nat (length (ranges v)).

(** [ranges[i]] and [ranges.back()], meaningful for positions inside the list *)
Definition range_at (rs : list datarange_t) (i : nat) : datarange_t :=
  nth i rs datarange_default.
Definition back (rs : list datarange_t) : datarange_t :=
  List.last rs datarange_default.

(** [ranges.insert(pos, r)], [ranges.erase(pos)], [ranges.erase(from, to)],
    and the update of the element at a position *)
Definition vec_insert (rs : list datarange_t) (pos : nat) (r : datarange_t) :=
  firstn pos rs ++ r :: skipn pos rs.
Definition vec_erase (rs : list datarange_t) (pos : nat) :=
  firstn pos rs ++ skipn (S pos) rs.
Definition vec_erase_range (rs : list datarange_t) (from to : nat) :=
  firstn from rs ++ skipn (Nat.max from to) rs.
Definition vec_update (rs : list datarange_t) (pos : nat) (r : datarange_t) :=
  firstn pos rs ++ match skipn pos rs with [] => [] | _ :: tl => r :: tl end.

(** [std::upper_bound(ranges.begin(), ranges.end(), index, less)]: the
    first position whose range starts after [index].  The binary search of
    the library is replaced by the scan that returns the same position on
    a list sorted by offset. *)
Fixpoint upper_bound (index : Z) (rs : list datarange_t) : nat :=
  match rs with
  | [] => O
  | r :: rs' => if less_int_range index r then O else S (upper_bound index rs')
  end.

(** [find_next_range_iter(index)] *)
Definition find_next_range_iter (v : sparse_vector) (index : Z) : nat :=
  upper_bound index (ranges v).

(** [find_range_iter_at_or_after(index)] *)
Definition find_range_iter_at_or_after (v : sparse_vector) (index : Z) : nat :=
  let after := find_next_range_iter v index in
  if negb (Nat.eqb after 0) && (index <? end_index (range_at (ranges v) (Nat.pred after)))
  then Nat.pred after else after.

(** [find_extending_range_iter(index)] *)
Definition find_extending_range_iter (v : sparse_vector) (index : Z) : nat :=
  let it := find_next_range_iter v index in
  if negb (Nat.eqb it 0) && borders (range_at (ranges v) (Nat.pred it)) index
  then Nat.pred it else it.

(** [minimum_size()] *)
Definition minimum_size (v : sparse_vector) : Z :=
  match ranges v with [] => 0 | _ => end_index (back (ranges v)) end.

(** [fix_size()] *)
Definition fix_size (v : sparse_vector) : sparse_vector :=
  match ranges v with
  | [] => v
  | _ => SparseVector (Z.max (nominal_size v) (end_index (back (ranges v)))) (ranges v)
  end.

(** [insert_range(iInsert, data)]: the new list and the returned position *)
Definition insert_range (rs : list datarange_t) (iInsert : nat) (data : datarange_t)
  : list datarange_t * nat :=
  if empty data then (rs, iInsert) else (vec_insert rs iInsert data, iInsert).

(** The loop of [merge_ranges]: [iRange] absorbs the ranges that follow it
    for as long as it borders their first index. *)
Fixpoint merge_loop (iRange : datarange_t) (following : list datarange_t)
  : datarange_t * list datarange_t :=
  match following with
  | [] => (iRange, [])
  | iNext :: rest =>
      if negb (borders iRange (begin_index iNext)) then (iRange, following)
      else
        let iRange' :=
          if end_index iRange <? end_index iNext
          then extend iRange (end_index iRange)
                      (skipn (get_iterator iNext (end_index iRange)) (values iNext))
          else iRange in
        merge_loop iRange' rest
  end.

(** [merge_ranges(iRange)].  [iRange + 1] is formed first, so the call is
    undefined for [iRange == ranges.end()].  The reference the source
    returns is the range left at position [iRange]. *)
Definition merge_ranges (v : sparse_vector) (iRange : nat) : outcome sparse_vector :=
  match skipn iRange (ranges v) with
  | [] => Undefined
  | r :: following =>
      let (r', rest) := merge_loop r following in
      Ret (fix_size (SparseVector (nominal_size v) (firstn iRange (ranges v) ++ r' :: rest)))
  end.

(** [add_range(offset, first, last)]; [add_range(offset, vector_t&&)] and
    [add_range_before] run the same steps. *)
Definition add_range (v : sparse_vector) (ofs : Z) (data : list T) : outcome sparse_vector :=
  let iInsert := find_next_range_iter v ofs in
  if negb (Nat.eqb iInsert 0) && borders (range_at (ranges v) (Nat.pred iInsert)) ofs
  then
    let prev := range_at (ranges v) (Nat.pred iInsert) in
    merge_ranges
      (SparseVector (nominal_size v)
                    (vec_update (ranges v) (Nat.pred iInsert) (extend prev ofs data)))
      (Nat.pred iInsert)
  else
    let (rs', iInsert') := insert_range (ranges v) iInsert (datarange_ctor ofs data) in
    merge_ranges (SparseVector (nominal_size v) rs') iInsert'.

(** [append(first, last)] *)
Definition append (v : sparse_vector) (data : list T) : outcome sparse_vector :=
  add_range v (vec_size v) data.

(** [operator[](index) const] *)
Definition get (v : sparse_vector) (index : Z) : T :=
  match find_next_range_iter v index with
  | O => value_zero
  | S p =>
      let range := range_at (ranges v) p in
      if index <? end_index range then datarange_get range index else value_zero
  end.

(** [is_void(index)] *)
Definition is_void (v : sparse_vector) (index : Z) : outcome bool :=
  match ranges v with
  | [] => Throw out_of_range
  | _ =>
      if vec_size v <=? index then Throw out_of_range
      else
        Ret match find_next_range_iter v index with
            | O => true
            | S p => end_index (range_at (ranges v) p) <=? index
            end
  end.

(** [back_is_void()] *)
Definition back_is_void (v : sparse_vector) : bool :=
  match ranges v with
  | [] => true
  | _ => end_index (back (ranges v)) <? vec_size v
  end.

(** [count()] *)
Definition count (v : sparse_vector) : Z :=
  fold_left (fun s (rng : datarange_t) => wrap (s + size rng)) (ranges v) 0.

(** [set_at(index, value)] *)
Definition set_at (v : sparse_vector) (index : Z) (value : T) : outcome sparse_vector :=
  match find_next_range_iter v index with
  | S p =>
      let range := range_at (ranges v) p in
      if index <? end_index range
      then Ret (SparseVector (nominal_size v)
                             (vec_update (ranges v) p (datarange_set range index value)))
      else add_range v index [value]
  | O => add_range v index [value]
  end.

(** [unset_at(index)] *)
Definition unset_at (v : sparse_vector) (index : Z) : sparse_vector :=
  match find_next_range_iter v index with
  | O => v
  | S p =>
      let range := range_at (ranges v) p in
      if end_index range <=? index then v
      else if size range =? 1 then SparseVector (nominal_size v) (vec_erase (ranges v) p)
      else if index =? begin_index range then
        SparseVector (nominal_size v)
                     (vec_update (ranges v) p (move_head range (wrap (index + 1)) value_zero))
      else if index =? wrap (end_index range - 1) then
        SparseVector (nominal_size v)
                     (vec_update (ranges v) p (move_tail range index value_zero))
      else if index <? end_index range then
        let right :=
          datarange_ctor (wrap (index + 1))
                         (skipn (Z.to_nat (relative_index range (wrap (index + 1))))
                                (values range)) in
        SparseVector (nominal_size v)
                     (vec_update (vec_insert (ranges v) (S p) right) p
                                 (move_tail range index value_zero))
      else v
  end.

(** [is_valid()] *)
Fixpoint is_valid_loop (rs : list datarange_t) : bool :=
  match rs with
  | [] => true
  | iRange :: rest =>
      if empty iRange then false
      else
        match rest with
        | [] => is_valid_loop rest
        | iNext :: _ =>
            if negb (less iRange iNext) then false
            else if negb (separate iRange iNext) then false
            else is_valid_loop rest
        end
  end.

Definition is_valid (v : sparse_vector) : bool :=
  match ranges v with
  | [] => true
  | _ =>
      if negb (is_valid_loop (ranges v)) then false
      else if nominal_size v <? end_index (back (ranges v)) then false
      else true
  end.

(** [resize(new_size)] *)
Definition resize (v : sparse_vector) (new_size : Z) : sparse_vector :=
  if vec_size v <=? new_size then SparseVector new_size (ranges v)
  else
    let iLastRange := find_next_range_iter v new_size in
    let rs := vec_erase_range (ranges v) iLastRange (length (ranges v)) in
    match rs with
    | [] => SparseVector new_size rs
    | _ =>
        let iLast := Nat.pred (length rs) in
        let range := range_at rs iLast in
        if new_size =? begin_index range then SparseVector new_size (vec_erase rs iLast)
        else if new_size <? end_index range then
          SparseVector new_size
            (vec_update rs iLast
               (datarange_resize range (wrap (new_size - begin_index range)) value_zero))
        else SparseVector new_size rs
    end.

(** [resize(new_size, def_value)] *)
Definition resize_fill (v : sparse_vector) (new_size : Z) (def_value : T)
  : outcome sparse_vector :=
  if new_size =? vec_size v then Ret v
  else if vec_size v <? new_size then
    if back_is_void v then
      v' <- append v (repeat def_value (Z.to_nat (wrap (new_size - vec_size v)))) ;;
      Ret (SparseVector new_size (ranges v'))
    else
      let iLast := Nat.pred (length (ranges v)) in
      let range := back (ranges v) in
      Ret (SparseVector new_size
             (vec_update (ranges v) iLast
                (datarange_resize range (wrap (new_size - begin_index range)) def_value)))
  else Ret (resize v new_size).

(** [push_back(value)] *)
Definition push_back (v : sparse_vector) (value : T) : outcome sparse_vector :=
  resize_fill v (wrap (vec_size v + 1)) value.

(** [push_back(value, thr)]; [is_zero_thr value thr] stands for the test
    [abs(value - value_zero) <= thr] of the element type. *)
Definition push_back_thr (is_zero_thr : T -> T -> bool) (v : sparse_vector) (value thr : T)
  : outcome sparse_vector :=
  if is_zero_thr value thr then Ret (resize v (wrap (vec_size v + 1)))
  else push_back v value.

(** [clear()] *)
Definition clear (v : sparse_vector) : sparse_vector := SparseVector 0 [].

(** [void_range(iRange)]: the vector left and the range removed *)
Definition void_range (v : sparse_vector) (iRange : nat)
  : outcome (sparse_vector * datarange_t) :=
  match skipn iRange (ranges v) with
  | [] => Undefined
  | r :: _ => Ret (SparseVector (nominal_size v) (vec_erase (ranges v) iRange), r)
  end.

(** [make_void_around(index)] *)
Definition make_void_around (v : sparse_vector) (index : Z)
  : outcome (sparse_vector * datarange_t) :=
  match ranges v with
  | [] => Throw out_of_range
  | _ =>
      if vec_size v <=? index then Throw out_of_range
      else
        match find_next_range_iter v index with
        | O => Ret (v, datarange_default)
        | S p =>
            if end_index (range_at (ranges v) p) <=? index then Ret (v, datarange_default)
            else void_range v p
        end
  end.

(** The first inner loop of [combine_range]: each destination cell becomes
    [op] of itself and of the input cell, along the two sequences, until
    either one ends. *)
Fixpoint combine_values (op : T -> T -> T) (dest src : list T) : list T :=
  match dest, src with
  | d :: dest', s :: src' => op d s :: combine_values op dest' src'
  | _, _ => dest
  end.

(** Step (2) of a round of [combine_range]: a new range combining void with
    input is inserted in front of [destRange]; [next] is the rest of the
    loop, entered with the iterator moved past the range just handled. *)
Definition combine_void
           (next : list datarange_t -> list datarange_t -> Z -> list T
                   -> outcome (list datarange_t))
           (op : T -> T -> T) (void_value : T)
           (before destRange : list datarange_t) (ofs : Z) (src : list T)
  : outcome (list datarange_t) :=
  let newRangeSize :=
    match destRange with
    | [] => vsize src
    | r :: _ => wrap (begin_index r - ofs)
    end in
  let n := Nat.min (Z.to_nat newRangeSize) (length src) in
  let combinedData := map (op void_value) (firstn n src) in
  let new := datarange_ctor ofs combinedData in
  if empty new then
    match destRange with
    | [] => Undefined
    | r :: rest => next (before ++ [r]) rest (end_index r) (skipn n src)
    end
  else next (before ++ [new]) destRange (end_index new) (skipn n src).

(** The main loop of [combine_range].  [destRange] is the list of ranges
    from the iterator of that name on, [before] the ranges in front of it;
    each round uses up some input or moves [destRange] forward, so that
    [length src + length destRange] rounds are always enough. *)
Fixpoint combine_loop (fuel : nat) (op : T -> T -> T) (void_value : T)
         (before destRange : list datarange_t) (ofs : Z) (src : list T)
  : outcome (list datarange_t) :=
  match src with
  | [] => Ret (before ++ destRange)
  | _ :: _ =>
      match fuel with
      | O => Undefined
      | S fuel' =>
          (* (1) combine input into the range that includes the offset *)
          match destRange with
          | r :: rest =>
              if includes r ofs then
                let pos := get_iterator r ofs in
                if (length (values r) <=? pos)%nat then Undefined
                else
                  let r' :=
                    DataRange (base r)
                      (firstn pos (values r)
                         ++ combine_values op (skipn pos (values r)) src) in
                  let n := (length (values r) - pos)%nat in
                  if (length src <=? n)%nat then Ret (before ++ r' :: rest)
                  else combine_void (combine_loop fuel' op void_value) op void_value
                                    (before ++ [r']) rest (end_index r') (skipn n src)
              else combine_void (combine_loop fuel' op void_value) op void_value
                                before destRange ofs src
          | [] => combine_void (combine_loop fuel' op void_value) op void_value
                               before destRange ofs src
          end
      end
  end.

(** [combine_range(offset, first, last, op, void_value)] *)
Definition combine_range (v : sparse_vector) (ofs : Z) (src : list T)
           (op : T -> T -> T) (void_value : T) : outcome sparse_vector :=
  let insertionPoint := ofs in
  let destRange := find_range_iter_at_or_after v ofs in
  rs <- combine_loop (length src + length (ranges v)) op void_value
          (firstn destRange (ranges v)) (skipn destRange (ranges v)) ofs src ;;
  let v' := SparseVector (nominal_size v) rs in
  merge_ranges v'
    (find_extending_range_iter v'
       (if insertionPoint =? 0 then 0 else wrap (insertionPoint - 1))).

(** ** Cell references: [const_reference] and [reference] *)

(** A [value_type*] into the buffers of a vector: the position of the range
    and the position of the cell in its [values]. *)
Record pointer : Type := Pointer { ptr_range : nat; ptr_cell : nat }.

Record const_reference : Type := ConstReference { ptr : option pointer }.
Record reference : Type := Reference { as_const :> const_reference }.

(** Reading and writing the cell a pointer refers to *)
Definition load (v : sparse_vector) (p : pointer) : outcome T :=
  match nth_error (values (range_at (ranges v) (ptr_range p))) (ptr_cell p) with
  | Some x => Ret x
  | None => Undefined
  end.

Definition store (v : sparse_vector) (p : pointer) (x : T) : outcome sparse_vector :=
  let r := range_at (ranges v) (ptr_range p) in
  if ((ptr_range p <? length (ranges v)) && (ptr_cell p <? length (values r)))%nat
  then Ret (SparseVector (nominal_size v)
              (vec_update (ranges v) (ptr_range p)
                 (DataRange (base r) (copy_into [x] (ptr_cell p) (values r)))))
  else Undefined.

(** [const_reference::operator value_type() const] and
    [const_reference::operator const value_type&() const] *)
Definition const_reference_value (v : sparse_vector) (r : const_reference) : outcome T :=
  match ptr r with
  | Some p => load v p
  | None => Ret value_zero
  end.

(** [reference::operator=(value_type)] *)
Definition reference_assign (v : sparse_vector) (r : reference) (x : T)
  : outcome sparse_vector :=
  match ptr r with
  | Some p => store v p x
  | None => Undefined
  end.

(** [reference::operator value_type&()]: the cell referred to *)
Definition reference_lvalue (v : sparse_vector) (r : reference) : outcome pointer :=
  match ptr r with
  | Some p => Ret p
  | None => Undefined
  end.

(** The non-const [operator[](index)] *)
Definition get_reference (v : sparse_vector) (index : Z) : reference :=
  match find_next_range_iter v index with
  | O => Reference (ConstReference None)
  | S p =>
      let range := range_at (ranges v) p in
      if index <? end_index range
      then Reference (ConstReference
                        (Some (Pointer p (Z.to_nat (relative_index range index)))))
      else Reference (ConstReference None)
  end.

(** ** [sparse_vector<T>::const_iterator]

    [cont] is the address of the container ([None] for [nullptr]); the
    methods that read [*cont] take the vector stored there as [c]. *)

Definition address : Type := nat.

Record const_iterator : Type :=
  ConstIterator { cont : option address; index : Z; currentRange : nat }.

(** [refresh_state()] *)
Definition refresh_state (c : sparse_vector) (it : const_iterator) : const_iterator :=
  match cont it with
  | Some _ =>
      let cr := find_next_range_iter c (index it) in
      if negb (Nat.eqb cr 0) && (index it <? end_index (range_at (ranges c) (Nat.pred cr)))
      then ConstIterator (cont it) (index it) (Nat.pred cr)
      else ConstIterator (cont it) (index it) cr
  | None => ConstIterator (cont it) (index it) O
  end.

(** [const_iterator(c, offset)] *)
Definition const_iterator_ctor (a : address) (c : sparse_vector) (ofs : Z) : const_iterator :=
  refresh_state c (ConstIterator (Some a) (Z.min ofs (vec_size c)) O).

(** [begin()] and [end()] *)
Definition cbegin (a : address) (c : sparse_vector) : const_iterator :=
  ConstIterator (Some a) 0 O.
Definition cend (a : address) (c : sparse_vector) : const_iterator :=
  ConstIterator (Some a) (vec_size c) (length (ranges c)).

(** [operator++()] *)
Definition increment (c : sparse_vector) (it : const_iterator) : const_iterator :=
  match cont it with
  | None => it
  | Some _ =>
      if vec_size c <=? index it then it
      else
        let index' := wrap (index it + 1) in
        if negb (Nat.eqb (currentRange it) (length (ranges c)))
           && (end_index (range_at (ranges c) (currentRange it)) <=? index')
        then ConstIterator (cont it) index' (S (currentRange it))
        else ConstIterator (cont it) index' (currentRange it)
  end.

(** The dereference operator of the iterator *)
Definition dereference (c : sparse_vector) (it : const_iterator) : outcome T :=
  match cont it with
  | None => Throw out_of_range
  | Some _ =>
      if vec_size c <=? index it then Ret value_zero
      else if Nat.eqb (currentRange it) (length (ranges c)) then Ret value_zero
      else if index it <? begin_index (range_at (ranges c) (currentRange it))
           then Ret value_zero
      else Ret (datarange_get (range_at (ranges c) (currentRange it)) (index it))
  end.

(** [operator+=(delta)], [delta] a [difference_type] *)
Definition plus_assign (c : sparse_vector) (it : const_iterator) (delta : Z)
  : outcome const_iterator :=
  if delta =? 1 then Ret (increment c it)
  else
    match cont it with
    | None => Undefined
    | Some _ =>
        let it' := ConstIterator (cont it) (wrap (index it + delta)) (currentRange it) in
        if Nat.eqb (currentRange it') (length (ranges c))
           || negb (includes (range_at (ranges c) (currentRange it')) (index it'))
        then Ret (refresh_state c it')
        else Ret it'
    end.

(** [operator==] *)
Definition iterator_eqb (a b : const_iterator) : bool :=
  match cont a, cont b with
  | Some x, Some y => Nat.eqb x y && (index a =? index b)
  | None, None => index a =? index b
  | _, _ => false
  end.

(** [eat_range_head(iRange, index)]; [None] when the range was erased *)
Definition eat_range_head (rs : list datarange_t) (iRange : nat) (idx : Z)
  : list datarange_t * bool :=
  let r := range_at rs iRange in
  if idx <=? begin_index r then (rs, false)
  else if end_index r <=? idx then (vec_erase rs iRange, true)
  else (vec_update rs iRange (move_head r idx value_zero), false).

(** [make_void(first, last)] on the vector stored at address [this].
    An iterator into [ranges] that was erased is not used again: where the
    source would do so the outcome is [Undefined]. *)
Definition make_void (this : address) (v : sparse_vector) (first last : const_iterator)
  : outcome sparse_vector :=
  let is_this (it : const_iterator) :=
    match cont it with Some a => Nat.eqb a this | None => false end in
  if negb (is_this first) || negb (is_this last) then Throw runtime_error
  else if index last <=? index first then Ret v
  else
    let rs := ranges v in
    let first_range := currentRange first in
    let last_range := currentRange last in
    if Nat.eqb first_range (length rs) then Ret v
    else
      let fr := range_at rs first_range in
      if (begin_index fr <? index first) && Nat.eqb first_range last_range then
        let right :=
          datarange_ctor (index last)
            (skipn (Z.to_nat (relative_index fr (index last))) (values fr)) in
        Ret (SparseVector (nominal_size v)
               (vec_update (vec_insert rs (S last_range) right) first_range
                  (move_tail fr (index first) value_zero)))
      else
        let '(rs1, first_range1) :=
          if begin_index fr <? index first
          then (vec_update rs first_range (move_tail fr (index first) value_zero),
                S first_range)
          else (rs, first_range) in
        let '(rs2, erased) :=
          if negb (Nat.eqb last_range (length rs1))
             && (begin_index (range_at rs1 last_range) <? index last)
          then eat_range_head rs1 last_range (index last)
          else (rs1, false) in
        if erased || (last_range <? first_range1)%nat then Undefined
        else Ret (SparseVector (nominal_size v) (vec_erase_range rs2 first_range1 last_range)).

(** ** Further members of [sparse_vector<T>] and of its iterators *)

(** [sparse_vector(new_size)] *)
Definition sparse_vector_sized (new_size : Z) : sparse_vector :=
  resize sparse_vector_default new_size.

(** [sparse_vector(from, offset)], from a [std::vector] *)
Definition sparse_vector_from (from : list T) (ofs : Z) : outcome sparse_vector :=
  add_range sparse_vector_default ofs from.

(** [capacity()] *)
Definition capacity (v : sparse_vector) : Z := nominal_size v.

(** [assign(first, last)] and [assign(new_data)] *)
Definition vec_assign (v : sparse_vector) (new_data : list T) : outcome sparse_vector :=
  append (clear v) new_data.

(** [find_range_iterator(index) const]: the position of the range that
    includes [index], [ranges.end()] when there is none. *)
Definition find_range_iterator (v : sparse_vector) (index : Z) : outcome nat :=
  match ranges v with
  | [] => Throw out_of_range
  | _ =>
      match find_next_range_iter v index with
      | O => Ret (length (ranges v))
      | S p =>
          if end_index (range_at (ranges v) p) <=? index then Ret (length (ranges v))
          else Ret p
      end
  end.

(** [find_range_number(index)] *)
Definition find_range_number (v : sparse_vector) (index : Z) : outcome Z :=
  iRange <- find_range_iterator v index ;; Ret (Z.of_nat iRange).

(** [find_range(index)] *)
Definition find_range (v : sparse_vector) (index : Z) : outcome datarange_t :=
  match ranges v with
  | [] => Throw out_of_range
  | _ =>
      iNextRange <- find_range_iterator v index ;;
      if Nat.eqb iNextRange (length (ranges v)) then Throw out_of_range
      else Ret (range_at (ranges v) iNextRange)
  end.

(** [cont == as.cont] *)
Definition same_cont (a b : const_iterator) : bool :=
  match cont a, cont b with
  | Some x, Some y => Nat.eqb x y
  | None, None => true
  | _, _ => false
  end.

(** [operator!=], [operator<], [operator>], [operator<=] and [operator>=]
    of [const_iterator] *)
Definition iterator_neqb (a b : const_iterator) : bool :=
  negb (same_cont a b) || negb (index a =? index b).
Definition iterator_ltb (a than : const_iterator) : bool :=
  same_cont a than && (index a <? index than).
Definition iterator_gtb (a than : const_iterator) : bool :=
  same_cont a than && (index than <? index a).
Definition iterator_leb (a than : const_iterator) : bool :=
  same_cont a than && (index a <=? index than).
Definition iterator_geb (a than : const_iterator) : bool :=
  same_cont a than && (index than <=? index a).

(** [operator++(int)]: the iterator after the call and the copy returned *)
Definition post_increment (c : sparse_vector) (it : const_iterator)
  : const_iterator * const_iterator :=
  (increment c it, it).

(** The least value of [difference_type]; negating it overflows. *)
Definition difference_min : Z := - 2 ^ 63.

(** [operator-=(delta)] of [const_iterator] *)
Definition minus_assign (c : sparse_vector) (it : const_iterator) (delta : Z)
  : outcome const_iterator :=
  if delta =? difference_min then Undefined else plus_assign c it (- delta).

(** [operator+(delta)] *)
Definition iterator_plus (c : sparse_vector) (it : const_iterator) (delta : Z)
  : outcome const_iterator :=
  match cont it with
  | None => Undefined
  | Some a =>
      let index' := wrap (index it + delta) in
      if Nat.eqb (currentRange it) (length (ranges c))
         || negb (includes (range_at (ranges c) (currentRange it)) index')
      then Ret (const_iterator_ctor a c index')
      else Ret (ConstIterator (cont it) index' (currentRange it))
  end.

(** [operator-(delta)] *)
Definition iterator_minus (c : sparse_vector) (it : const_iterator) (delta : Z)
  : outcome const_iterator :=
  if delta =? difference_min then Undefined else iterator_plus c it (- delta).

(** [operator-(iter)]: the distance, a [difference_type] *)
Definition distance (a iter : const_iterator) : outcome Z :=
  if same_cont a iter then Ret (to_signed (wrap (index a - index iter)))
  else Throw runtime_error.

(** [iterator::operator-=(delta)], which calls
    [const_iterator::operator+=(delta)] *)
Definition iterator_minus_assign (c : sparse_vector) (it : const_iterator) (delta : Z)
  : outcome const_iterator :=
  plus_assign c it delta.

(** ** The capacity of [ranges]

    [ranges.emplace(pos, ...)] moves the ranges to a new buffer when
    [ranges.size() == ranges.capacity()]; a reference or an iterator into
    [ranges] that was obtained before the call is dangling afterwards.
    The two functions that cut a range in two, [unset_at] and [make_void],
    go on using one.  They are given here with [ranges_capacity], the value
    of [ranges.capacity()] when the function is entered; [unset_at] and
    [make_void] above are these functions for a [ranges] that has room for
    one more element. *)

(** [unset_at(index)] *)
Definition unset_at_with_capacity (ranges_capacity : nat) (v : sparse_vector) (index : Z)
  : outcome sparse_vector :=
  match find_next_range_iter v index with
  | O => Ret v
  | S p =>
      let range := range_at (ranges v) p in
      if end_index range <=? index then Ret v
      else if size range =? 1 then
        Ret (SparseVector (nominal_size v) (vec_erase (ranges v) p))
      else if index =? begin_index range then
        Ret (SparseVector (nominal_size v)
               (vec_update (ranges v) p (move_head range (wrap (index + 1)) value_zero)))
      else if index =? wrap (end_index range - 1) then
        Ret (SparseVector (nominal_size v)
               (vec_update (ranges v) p (move_tail range index value_zero)))
      else if index <? end_index range then
        (* [ranges.emplace(...)], then [range.move_tail(index)] through the
           reference [range] taken before it *)
        if (ranges_capacity <=? length (ranges v))%nat then Undefined
        else
          let right :=
            datarange_ctor (wrap (index + 1))
                           (skipn (Z.to_nat (relative_index range (wrap (index + 1))))
                                  (values range)) in
          Ret (SparseVector (nominal_size v)
                 (vec_update (vec_insert (ranges v) (S p) right) p
                    (move_tail range index value_zero)))
      else Ret v
  end.

(** [make_void(first, last)] on the vector stored at address [this] *)
Definition make_void_with_capacity (ranges_capacity : nat) (this : address)
           (v : sparse_vector) (first last : const_iterator) : outcome sparse_vector :=
  let is_this (it : const_iterator) :=
    match cont it with Some a => Nat.eqb a this | None => false end in
  if negb (is_this first) || negb (is_this last) then Throw runtime_error
  else if index last <=? index first then Ret v
  else
    let rs := ranges v in
    let first_range := currentRange first in
    let last_range := currentRange last in
    if Nat.eqb first_range (length rs) then Ret v
    else
      let fr := range_at rs first_range in
      if (begin_index fr <? index first) && Nat.eqb first_range last_range then
        (* [ranges.emplace(...)], then [first_range->move_tail(first.index)]
           through the iterator [first_range] taken before it *)
        if (ranges_capacity <=? length rs)%nat then Undefined
        else
          let right :=
            datarange_ctor (index last)
              (skipn (Z.to_nat (relative_index fr (index last))) (values fr)) in
          Ret (SparseVector (nominal_size v)
                 (vec_update (vec_insert rs (S last_range) right) first_range
                    (move_tail fr (index first) value_zero)))
      else
        let '(rs1, first_range1) :=
          if begin_index fr <? index first
          then (vec_update rs first_range (move_tail fr (index first) value_zero),
                S first_range)
          else (rs, first_range) in
        let '(rs2, erased) :=
          if negb (Nat.eqb last_range (length rs1))
             && (begin_index (range_at rs1 last_range) <? index last)
          then eat_range_head rs1 last_range (index last)
          else (rs1, false) in
        if erased || (last_range <? first_range1)%nat then Undefined
        else Ret (SparseVector (nominal_size v) (vec_erase_range rs2 first_range1 last_range)).

(** ** The representation invariant and the meaning of a list of ranges *)

(** The class invariant of [datarange_t]: the interval is as long as the
    buffer. *)
Definition range_ok (r : datarange_t) : Prop :=
  last r = offset r + vsize (values r).

(** [laid_out gap lo hi rs]: the ranges are non-empty, consistent, lie in
    [lo, hi) in increasing order, and each starts at least [gap] cells after
    the end of the one before.  [gap = 1] is the canonical form; [gap = 0]
    only forbids overlap. *)
Fixpoint laid_out (gap lo hi : Z) (rs : list datarange_t) : Prop :=
  match rs with
  | [] => True
  | r :: rs' =>
      lo <= offset r /\ offset r < last r /\ last r <= hi /\ range_ok r
      /\ laid_out gap (last r + gap) hi rs'
  end.

(** The representation invariant of a vector whose indices fit [size_type]. *)
Definition canonical (gap : Z) (v : sparse_vector) : Prop :=
  0 <= nominal_size v < size_modulus
  /\ laid_out gap 0 (nominal_size v) (ranges v).

(** Where the next range may start after the ranges [rs]. *)
Fixpoint frontier (gap lo : Z) (rs : list datarange_t) : Z :=
  match rs with
  | [] => lo
  | r :: rs' => frontier gap (last r + gap) rs'
  end.

(** The value a range holds at the absolute index [k]. *)
Definition peek (r : datarange_t) (k : Z) : T :=
  nth (Z.to_nat (k - offset r)) (values r) value_zero.

(** The content of cell [k]: the value stored by the first range that
    includes [k], if there is one. *)
Fixpoint cell (rs : list datarange_t) (k : Z) : option T :=
  match rs with
  | [] => None
  | r :: rs' =>
      if includes r k then Some (peek r k) else cell rs' k
  end.

(** The value a cell reads as. *)
Definition cell_value (c : option T) : T :=
  match c with Some x => x | None => value_zero end.

(** Whether cell [k] is not void, and the number of such cells among the
    indices below [n]. *)
Definition occupied (rs : list datarange_t) (k : Z) : bool :=
  match cell rs k with Some _ => true | None => false end.
Definition cells_in_use (rs : list datarange_t) (n : nat) : nat :=
  length (filter (occupied rs) (map Z.of_nat (seq 0 n))).

(** Whether the cells from [lo] to [hi], both included, are all in use. *)
Definition all_in_use (rs : list datarange_t) (lo hi : Z) : bool :=
  forallb (occupied rs) (map (fun i : nat => lo + Z.of_nat i) (seq 0 (Z.to_nat (hi - lo + 1)))).

(** The position an iterator at index [k] keeps in [currentRange]: the
    first range that ends after [k]. *)
Fixpoint first_ending_after (k : Z) (rs : list datarange_t) : nat :=
  match rs with
  | [] => O
  | r :: rs' => if k <? last r then O else S (first_ending_after k rs')
  end.

(** The state of an iterator of the vector at address [a] that is
    consistent with its index. *)
Definition iterator_ok (a : address) (c : sparse_vector) (it : const_iterator) : Prop :=
  cont it = Some a
  /\ 0 <= index it < size_modulus
  /\ currentRange it = first_ending_after (index it) (ranges c).

(** Iterators obtained from the container at address [a]. *)
Inductive reachable (a : address) (c : sparse_vector) : const_iterator -> Prop :=
| reach_ctor (i : Z) :
    0 <= i < size_modulus -> reachable a c (const_iterator_ctor a c i)
| reach_begin : reachable a c (cbegin a c)
| reach_increment (it : const_iterator) :
    reachable a c it -> reachable a c (increment c it)
| reach_plus_assign (it it' : const_iterator) (delta : Z) :
    reachable a c it -> plus_assign c it delta = Ret it' -> reachable a c it'.

(** The members of the proxy [reference] that use its pointer. *)
Inductive reference_use : Type :=
| to_value                (* operator value_type() const *)
| to_const_lvalue         (* operator const value_type&() const *)
| to_lvalue               (* operator value_type&() *)
| assign (x : T).         (* operator=(value_type) *)

Definition is_assignment (u : reference_use) : bool :=
  match u with assign _ => true | _ => false end.

(** Whether a use of the proxy has defined behaviour. *)
Definition use_defined (v : sparse_vector) (r : reference) (u : reference_use) : bool :=
  match u with
  | to_value | to_const_lvalue =>
      match const_reference_value v r with Undefined => false | _ => true end
  | to_lvalue =>
      match reference_lvalue v r with Undefined => false | _ => true end
  | assign x =>
      match reference_assign v r x with Undefined => false | _ => true end
  end.

(** The public mutating operations other than [combine_range] *)
Inductive mutation : Type :=
| call_set_at (k : Z) (value : T)
| call_unset_at (k : Z)
| call_add_range (ofs : Z) (data : list T)
| call_append (data : list T)
| call_push_back (value : T)
| call_resize (new_size : Z)
| call_resize_fill (new_size : Z) (def_value : T)
| call_make_void (first last : const_iterator)
| call_make_void_around (k : Z)
| call_clear.

(** The call on the vector [v] stored at address [this] *)
Definition run (this : address) (v : sparse_vector) (m : mutation)
  : outcome sparse_vector :=
  match m with
  | call_set_at k value => set_at v k value
  | call_unset_at k => Ret (unset_at v k)
  | call_add_range ofs data => add_range v ofs data
  | call_append data => append v data
  | call_push_back value => push_back v value
  | call_resize new_size => Ret (resize v new_size)
  | call_resize_fill new_size def_value => resize_fill v new_size def_value
  | call_make_void first last => make_void this v first last
  | call_make_void_around k => v' <- make_void_around v k ;; Ret (fst v')
  | call_clear => Ret (clear v)
  end.

(** The arguments of the call are values of [size_type], the cells written
    have indices of that type, input sequences are not empty, and the
    iterators were obtained from the vector. *)
Definition fits (this : address) (v : sparse_vector) (m : mutation) : Prop :=
  match m with
  | call_set_at k _ => 0 <= k /\ k + 1 < size_modulus
  | call_unset_at k => 0 <= k
  | call_add_range ofs data => data <> [] /\ 0 <= ofs /\ ofs + vsize data < size_modulus
  | call_append data => data <> [] /\ vec_size v + vsize data < size_modulus
  | call_push_back _ => True
  | call_resize new_size => 0 <= new_size < size_modulus
  | call_resize_fill new_size _ => 0 <= new_size < size_modulus
  | call_make_void first last =>
      nominal_size v < 2 ^ 63 /\ reachable this v first /\ reachable this v last
  | call_make_void_around _ => True
  | call_clear => True
  end.


(** [overlaid o src rs rs']: the cells of [rs'] are those of [rs], except
    that the cells from [o] on were combined with the elements of [src]. *)
Definition overlaid (op : T -> T -> T) (void_value : T) (o : Z) (src : list T)
           (rs rs' : list datarange_t) : Prop :=
  forall k,
    cell rs' k =
      if (o <=? k) && (k <? o + vsize src)
      then Some (op (match cell rs k with Some x => x | None => void_value end)
                    (nth (Z.to_nat (k - o)) src value_zero))
      else cell rs k.

(** What the loop of [combine_range] has to deliver when it is entered with
    the ranges [before ++ destRange], the offset [o] and the input [src]:
    the ranges in front of the iterator end at [o] at the latest, those from
    the iterator on are still in canonical form, the first of them ending
    after [o]. *)
Definition loop_delivers (op : T -> T -> T) (void_value : T) (hi : Z)
           (loop : list datarange_t -> list datarange_t -> Z -> list T
                   -> outcome (list datarange_t))
           (bound : nat) : Prop :=
  forall (src : list T) (before destRange : list datarange_t) (o : Z),
    (length src <= bound)%nat ->
    0 <= o -> o + vsize src <= hi ->
    laid_out 0 0 hi (before ++ destRange) ->
    laid_out 0 0 o before ->
    laid_out 1 0 hi destRange ->
    match destRange with [] => True | r :: _ => o < last r end ->
    exists rs',
      loop before destRange o src = Ret rs'
      /\ laid_out 0 0 hi rs'
      /\ overlaid op void_value o src (before ++ destRange) rs'.


End WithValueType.

Arguments datarange_t T : clear implicits.
Arguments sparse_vector T : clear implicits.
Arguments reference_use T : clear implicits.
Arguments mutation T : clear implicits.

(** ** A vector of integers *)

#[global] Instance Z_value_type : ValueType Z := {| value_zero := 0 |}.

(** The vector of size 10 with the ranges [3,6) = {1,2,3} and [7,9) = {4,5} *)
Definition example_vector : sparse_vector Z :=
  SparseVector 10 [DataRange (Range 3 6) [1; 2; 3]; DataRange (Range 7 9) [4; 5]].

(** * Properties of [lar::sparse_vector<T>] *)

Section Properties.

Context {T : Type} {value_type : ValueType T}.

(** ** Machine arithmetic *)

Lemma size_modulus_pos : 0 < size_modulus.
Proof. reflexivity. Qed.

Lemma wrap_small (x : Z) : 0 <= x < size_modulus -> wrap x = x.
Proof. intros H. unfold wrap. apply Z.mod_small. exact H. Qed.

Lemma wrap_range (x : Z) : 0 <= wrap x < size_modulus.
Proof. unfold wrap. apply Z.mod_pos_bound. exact size_modulus_pos. Qed.

(** ** Lists as vectors *)

Lemma vsize_nonneg (l : list T) : 0 <= vsize l.
Proof. unfold vsize. lia. Qed.

Lemma vsize_app (l l' : list T) : vsize (l ++ l') = vsize l + vsize l'.
Proof. unfold vsize. rewrite length_app. lia. Qed.

Lemma range_at_middle (pre post : list (datarange_t T)) (r : datarange_t T) :
  range_at (pre ++ r :: post) (length pre) = r.
Proof. unfold range_at. rewrite app_nth2, Nat.sub_diag by lia. reflexivity. Qed.

Lemma firstn_middle (pre post : list (datarange_t T)) :
  firstn (length pre) (pre ++ post) = pre.
Proof. rewrite firstn_app, Nat.sub_diag, firstn_all. simpl. apply app_nil_r. Qed.

Lemma skipn_middle (pre post : list (datarange_t T)) :
  skipn (length pre) (pre ++ post) = post.
Proof. rewrite skipn_app, Nat.sub_diag, skipn_all. reflexivity. Qed.

Lemma vec_update_middle (pre post : list (datarange_t T)) (r r' : datarange_t T) :
  vec_update (pre ++ r :: post) (length pre) r' = pre ++ r' :: post.
Proof. unfold vec_update. rewrite firstn_middle, skipn_middle. reflexivity. Qed.

Lemma vec_insert_middle (pre post : list (datarange_t T)) (r : datarange_t T) :
  vec_insert (pre ++ post) (length pre) r = pre ++ r :: post.
Proof. unfold vec_insert. rewrite firstn_middle, skipn_middle. reflexivity. Qed.

Lemma vec_erase_middle (pre post : list (datarange_t T)) (r : datarange_t T) :
  vec_erase (pre ++ r :: post) (length pre) = pre ++ post.
Proof.
  unfold vec_erase. rewrite firstn_middle.
  replace (S (length pre)) with (length (pre ++ [r])) by (rewrite length_app; simpl; lia).
  replace (pre ++ r :: post) with ((pre ++ [r]) ++ post) by (rewrite <- app_assoc; reflexivity).
  rewrite skipn_middle. reflexivity.
Qed.

Lemma back_snoc (pre : list (datarange_t T)) (r : datarange_t T) : back (pre ++ [r]) = r.
Proof. unfold back. apply last_last. Qed.

Lemma back_cons (x y : datarange_t T) (l : list (datarange_t T)) :
  back (x :: y :: l) = back (y :: l).
Proof. reflexivity. Qed.

Lemma back_app_cons (pre post : list (datarange_t T)) (r : datarange_t T) :
  back (pre ++ r :: post) = back (r :: post).
Proof.
  induction pre as [|x pre IH]; [reflexivity|].
  simpl app. destruct pre as [|y pre]; simpl app in *.
  - apply back_cons.
  - rewrite back_cons. exact IH.
Qed.

(** ** Ranges laid out in order *)

Lemma laid_out_weaken (gap gap' lo lo' hi hi' : Z) (rs : list (datarange_t T)) :
  gap' <= gap -> lo' <= lo -> hi <= hi' ->
  laid_out gap lo hi rs -> laid_out gap' lo' hi' rs.
Proof.
  intros Hg Hl Hh. revert lo lo' Hl.
  induction rs as [|r rs IH]; simpl; intros lo lo' Hl H; [exact I|].
  destruct H as (H1 & H2 & H3 & H4 & H5).
  repeat split; try lia; try assumption.
  apply (IH (last r + gap)); [lia | exact H5].
Qed.

Lemma laid_out_rebase (gap lo hi : Z) (r : datarange_t T) (rs : list (datarange_t T)) :
  laid_out gap lo hi (r :: rs) -> laid_out gap (offset r) hi (r :: rs).
Proof. simpl. intuition lia. Qed.

Lemma laid_out_app (gap lo hi : Z) (a b : list (datarange_t T)) :
  laid_out gap lo hi (a ++ b)
  <-> laid_out gap lo hi a /\ laid_out gap (frontier gap lo a) hi b.
Proof.
  revert lo. induction a as [|r a IH]; simpl; intros lo; [tauto|].
  rewrite IH. tauto.
Qed.

Lemma frontier_ge (gap lo hi : Z) (rs : list (datarange_t T)) :
  0 <= gap -> laid_out gap lo hi rs -> lo <= frontier gap lo rs.
Proof.
  intros Hg. revert lo. induction rs as [|r rs IH]; simpl; intros lo H; [lia|].
  destruct H as (H1 & H2 & H3 & H4 & H5). apply IH in H5. lia.
Qed.

Lemma frontier_bound (gap lo hi x : Z) (rs : list (datarange_t T)) :
  laid_out gap lo hi rs -> lo <= x -> hi + gap <= x -> frontier gap lo rs <= x.
Proof.
  revert lo. induction rs as [|r rs IH]; simpl; intros lo H Hl Hh; [lia|].
  destruct H as (H1 & H2 & H3 & H4 & H5). apply IH; [exact H5 | lia | lia].
Qed.

Lemma laid_out_front (gap lo hi x : Z) (rs : list (datarange_t T)) :
  0 <= gap -> laid_out gap lo hi rs -> frontier gap lo rs <= x ->
  laid_out gap lo (x - gap) rs.
Proof.
  intros Hg. revert lo. induction rs as [|r rs IH]; simpl; intros lo H Hx; [exact I|].
  destruct H as (H1 & H2 & H3 & H4 & H5).
  pose proof (frontier_ge _ _ _ _ Hg H5).
  repeat split; try lia; try assumption. apply IH; assumption.
Qed.

Lemma frontier_snoc (gap lo : Z) (rs : list (datarange_t T)) (r : datarange_t T) :
  frontier gap lo (rs ++ [r]) = last r + gap.
Proof. revert lo. induction rs as [|x rs IH]; simpl; intros lo; [reflexivity | apply IH]. Qed.

(** Splitting a layout around one of its ranges, and putting it together. *)
Lemma laid_out_split (gap lo hi : Z) (pre post : list (datarange_t T)) (r : datarange_t T) :
  0 <= gap -> laid_out gap lo hi (pre ++ r :: post) ->
  laid_out gap lo (offset r - gap) pre
  /\ lo <= offset r /\ offset r < last r /\ last r <= hi /\ range_ok r
  /\ laid_out gap (last r + gap) hi post.
Proof.
  intros Hg H. apply laid_out_app in H. destruct H as [Hpre H].
  simpl in H. destruct H as (H1 & H2 & H3 & H4 & H5).
  pose proof (frontier_ge _ _ _ _ Hg Hpre).
  repeat split; try lia; try assumption.
  apply laid_out_front with (hi := hi); assumption.
Qed.

Lemma laid_out_join (gap lo mid hi : Z) (pre post : list (datarange_t T)) (r : datarange_t T) :
  laid_out gap lo mid pre -> mid + gap <= offset r -> mid <= hi ->
  lo <= offset r -> offset r < last r -> last r <= hi -> range_ok r ->
  laid_out gap (last r + gap) hi post ->
  laid_out gap lo hi (pre ++ r :: post).
Proof.
  intros Hpre Hm Hmh Hl Ho Hh Hok Hpost. apply laid_out_app. split.
  - apply laid_out_weaken with (gap := gap) (lo := lo) (hi := mid); try lia. exact Hpre.
  - simpl. repeat split; try assumption.
    apply frontier_bound with (hi := mid); [exact Hpre | lia | lia].
Qed.

Lemma laid_out_concat (gap lo mid hi : Z) (pre post : list (datarange_t T)) :
  laid_out gap lo mid pre -> mid <= hi ->
  laid_out gap (Z.max lo (mid + gap)) hi post ->
  laid_out gap lo hi (pre ++ post).
Proof.
  intros Hpre Hmh Hpost. apply laid_out_app. split.
  - apply laid_out_weaken with (gap := gap) (lo := lo) (hi := mid); try lia. exact Hpre.
  - apply laid_out_weaken with (gap := gap) (lo := Z.max lo (mid + gap)) (hi := hi);
      try lia; [|exact Hpost].
    apply frontier_bound with (hi := mid); [exact Hpre | lia | lia].
Qed.

Lemma laid_out_In (gap lo hi : Z) (rs : list (datarange_t T)) (r : datarange_t T) :
  0 <= gap -> laid_out gap lo hi rs -> In r rs ->
  lo <= offset r /\ offset r < last r /\ last r <= hi /\ range_ok r.
Proof.
  intros Hg. revert lo. induction rs as [|x rs IH]; simpl; intros lo H Hin; [contradiction|].
  destruct H as (H1 & H2 & H3 & H4 & H5). destruct Hin as [->|Hin].
  - repeat split; assumption.
  - destruct (IH _ H5 Hin) as (A & B & C & D). repeat split; try assumption. lia.
Qed.

Lemma laid_out_back (gap lo hi : Z) (rs : list (datarange_t T)) (r : datarange_t T) :
  0 <= gap -> laid_out gap lo hi rs -> In r rs -> last r <= last (back rs).
Proof.
  intros Hg. revert lo. induction rs as [|x rs IH]; simpl; intros lo H Hin; [contradiction|].
  destruct H as (H1 & H2 & H3 & H4 & H5). destruct rs as [|y rs].
  - destruct Hin as [->|[]]. unfold back. simpl. lia.
  - rewrite back_cons. destruct Hin as [->|Hin].
    + assert (In (back (y :: rs)) (y :: rs)) as Hb.
      { unfold back. destruct (exists_last (l := y :: rs)) as (l' & z & E); [discriminate|].
        rewrite E. rewrite last_last. apply in_or_app. right. left. reflexivity. }
      pose proof (laid_out_In _ _ _ _ _ Hg H5 Hb). lia.
    + apply (IH _ H5 Hin).
Qed.

(** ** The content of cells *)

Lemma cell_app (a b : list (datarange_t T)) (k : Z) :
  cell (a ++ b) k = match cell a k with Some x => Some x | None => cell b k end.
Proof.
  induction a as [|r a IH]; simpl; [reflexivity|].
  destruct (includes r k); [reflexivity | exact IH].
Qed.

Lemma includes_iff (r : range_t) (k : Z) :
  includes r k = true <-> offset r <= k < last r.
Proof. unfold includes. rewrite andb_true_iff, Z.leb_le, Z.ltb_lt. tauto. Qed.

Lemma includes_false_iff (r : range_t) (k : Z) :
  includes r k = false <-> k < offset r \/ last r <= k.
Proof.
  unfold includes. rewrite andb_false_iff, Z.leb_gt, Z.ltb_ge. tauto.
Qed.

Lemma borders_iff (r : range_t) (k : Z) :
  borders r k = true <-> offset r <= k <= last r.
Proof. unfold borders. rewrite andb_true_iff, !Z.leb_le. tauto. Qed.

Lemma borders_false_iff (r : range_t) (k : Z) :
  borders r k = false <-> k < offset r \/ last r < k.
Proof. unfold borders. rewrite andb_false_iff, !Z.leb_gt. tauto. Qed.

Lemma cell_none_below (gap lo hi : Z) (rs : list (datarange_t T)) (k : Z) :
  0 <= gap -> laid_out gap lo hi rs -> k < lo -> cell rs k = None.
Proof.
  intros Hg. revert lo. induction rs as [|r rs IH]; simpl; intros lo H Hk; [reflexivity|].
  destruct H as (H1 & H2 & H3 & H4 & H5).
  replace (includes r k) with false by (symmetry; apply includes_false_iff; lia).
  apply (IH _ H5). lia.
Qed.

Lemma cell_none_above (gap lo hi : Z) (rs : list (datarange_t T)) (k : Z) :
  laid_out gap lo hi rs -> hi <= k -> cell rs k = None.
Proof.
  revert lo. induction rs as [|r rs IH]; simpl; intros lo H Hk; [reflexivity|].
  destruct H as (H1 & H2 & H3 & H4 & H5).
  replace (includes r k) with false by (symmetry; apply includes_false_iff; lia).
  apply (IH _ H5). exact Hk.
Qed.

Lemma cell_some_bounds (gap lo hi : Z) (rs : list (datarange_t T)) (k : Z) (x : T) :
  0 <= gap -> laid_out gap lo hi rs -> cell rs k = Some x -> lo <= k < hi.
Proof.
  intros Hg H Hc.
  destruct (Z_lt_le_dec k lo) as [Hlt|Hge].
  - rewrite (cell_none_below _ _ _ _ _ Hg H Hlt) in Hc. discriminate.
  - destruct (Z_lt_le_dec k hi) as [Hlt|Hge']; [lia|].
    rewrite (cell_none_above _ _ _ _ _ H Hge') in Hc. discriminate.
Qed.

Lemma cell_some_In (rs : list (datarange_t T)) (k : Z) (x : T) :
  cell rs k = Some x -> exists r, In r rs /\ includes r k = true /\ x = peek r k.
Proof.
  induction rs as [|r rs IH]; simpl; [discriminate|].
  destruct (includes r k) eqn:E.
  - intros [= <-]. exists r. auto.
  - intros H. destruct (IH H) as (r' & A & B & C). exists r'. auto.
Qed.

Lemma cell_none_In (rs : list (datarange_t T)) (k : Z) :
  cell rs k = None <-> forall r, In r rs -> includes r k = false.
Proof.
  induction rs as [|r rs IH]; simpl.
  - split; [intros _ r [] | reflexivity].
  - destruct (includes r k) eqn:E.
    + split; [discriminate|]. intros H. rewrite (H r) in E by auto. discriminate.
    + rewrite IH. split.
      * intros H r' [<-|Hin]; auto.
      * intros H r' Hin. apply H. auto.
Qed.

(** A cell around a range in the middle of a layout. *)
Lemma cell_middle (gap lo hi : Z) (pre post : list (datarange_t T)) (r : datarange_t T) (k : Z) :
  0 <= gap -> laid_out gap lo hi (pre ++ r :: post) ->
  cell (pre ++ r :: post) k =
    if includes r k then Some (peek r k)
    else match cell pre k with Some x => Some x | None => cell post k end.
Proof.
  intros Hg H. rewrite cell_app. simpl.
  destruct (laid_out_split _ _ _ _ _ _ Hg H) as (Hpre & _ & _ & _ & _ & _).
  destruct (includes r k) eqn:E; [|reflexivity].
  apply includes_iff in E.
  rewrite (cell_none_above _ _ _ _ k Hpre) by lia. reflexivity.
Qed.

(** ** Binary search *)

Lemma upper_bound_spec (k : Z) (rs : list (datarange_t T)) :
  exists pre post,
    rs = pre ++ post /\ upper_bound k rs = length pre
    /\ Forall (fun r : (datarange_t T) => offset r <= k) pre
    /\ match post with [] => True | nx :: _ => k < offset nx end.
Proof.
  induction rs as [|r rs IH]; simpl.
  - exists [], []. repeat split. constructor.
  - unfold less_int_range. destruct (k <? offset r) eqn:E.
    + exists [], (r :: rs). repeat split; [constructor | apply Z.ltb_lt; exact E].
    + destruct IH as (pre & post & -> & Hlen & Hall & Hpost).
      exists (r :: pre), post. simpl. repeat split; [congruence | | exact Hpost].
      constructor; [apply Z.ltb_ge; exact E | exact Hall].
Qed.

Lemma upper_bound_le (k : Z) (rs : list (datarange_t T)) :
  (upper_bound k rs <= length rs)%nat.
Proof.
  destruct (upper_bound_spec k rs) as (pre & post & -> & -> & _).
  rewrite length_app. lia.
Qed.

(** What [upper_bound] finds in a layout: nothing in front of the ranges, or
    the only range that can hold [k]. *)
Lemma locate (gap lo hi : Z) (rs : list (datarange_t T)) (k : Z) :
  0 <= gap -> laid_out gap lo hi rs ->
  match upper_bound k rs with
  | O => cell rs k = None /\ match rs with [] => True | nx :: _ => k < offset nx end
  | S q =>
      exists pre r post,
        rs = pre ++ r :: post /\ q = length pre /\ offset r <= k
        /\ match post with [] => True | nx :: _ => k < offset nx end
        /\ cell pre k = None /\ cell post k = None
  end.
Proof.
  intros Hg H.
  destruct (upper_bound_spec k rs) as (pre & post & -> & -> & Hall & Hpost).
  assert (cell post k = None) as Hcp.
  { apply laid_out_app in H. destruct H as [_ H]. destruct post as [|nx post]; [reflexivity|].
    apply laid_out_rebase in H. apply (cell_none_below _ _ _ _ _ Hg H Hpost). }
  destruct pre as [|x pre0].
  - simpl. split; [exact Hcp | exact Hpost].
  - destruct (exists_last (l := x :: pre0)) as (pre' & r & E); [discriminate|].
    rewrite E in *. clear E x pre0.
    rewrite length_app. simpl length. rewrite Nat.add_1_r.
    exists pre', r, post. rewrite <- app_assoc. simpl app.
    apply Forall_app in Hall. destruct Hall as [_ Hr]. inversion Hr; subst.
    repeat split; try assumption.
    rewrite <- app_assoc in H. simpl app in H.
    destruct (laid_out_split _ _ _ _ _ _ Hg H) as (Hpre & _).
    apply (cell_none_above _ _ _ _ k Hpre). lia.
Qed.

(** ** Reading *)

Lemma datarange_get_peek (r : datarange_t T) (k : Z) :
  offset r <= k -> k - offset r < size_modulus -> datarange_get r k = peek r k.
Proof.
  intros H1 H2. unfold datarange_get, peek, relative_index.
  rewrite wrap_small by lia. reflexivity.
Qed.

Lemma get_cell (gap lo hi n : Z) (rs : list (datarange_t T)) (k : Z) :
  0 <= gap -> 0 <= lo -> hi <= size_modulus -> laid_out gap lo hi rs ->
  get (SparseVector n rs) k = cell_value (cell rs k).
Proof.
  intros Hg Hlo Hhi H. unfold get, find_next_range_iter. simpl ranges.
  pose proof (locate _ _ _ _ k Hg H) as L.
  destruct (upper_bound k rs) as [|q].
  - destruct L as [-> _]. reflexivity.
  - destruct L as (pre & r & post & -> & -> & Hr & Hpost & Hcpre & Hcpost).
    rewrite range_at_middle. rewrite (cell_middle _ _ _ _ _ _ _ Hg H).
    rewrite Hcpre, Hcpost. unfold end_index, includes.
    destruct (laid_out_split _ _ _ _ _ _ Hg H) as (_ & A & B & C & D & _).
    replace (offset r <=? k) with true by (symmetry; apply Z.leb_le; exact Hr).
    simpl. destruct (k <? last r) eqn:E; [|reflexivity].
    apply Z.ltb_lt in E. simpl. apply datarange_get_peek; lia.
Qed.

Lemma is_void_cell (gap lo hi : Z) (v : sparse_vector T) (k : Z) :
  0 <= gap -> laid_out gap lo hi (ranges v) ->
  ranges v <> [] -> k < vec_size v ->
  is_void v k = Ret (match cell (ranges v) k with Some _ => false | None => true end).
Proof.
  intros Hg H Hne Hk. unfold is_void, find_next_range_iter.
  destruct (ranges v) as [|r0 rs0] eqn:Ers; [contradiction|]. rewrite <- Ers in *.
  replace (vec_size v <=? k) with false by (symmetry; apply Z.leb_gt; exact Hk).
  f_equal.
  pose proof (locate _ _ _ _ k Hg H) as L.
  destruct (upper_bound k (ranges v)) as [|q].
  - destruct L as [-> _]. reflexivity.
  - destruct L as (pre & r & post & E & -> & Hr & Hpost & Hcpre & Hcpost).
    rewrite E in *. rewrite range_at_middle. rewrite (cell_middle _ _ _ _ _ _ _ Hg H).
    rewrite Hcpre, Hcpost. unfold end_index, includes.
    replace (offset r <=? k) with true by (symmetry; apply Z.leb_le; exact Hr).
    simpl. rewrite Z.leb_antisym. destruct (k <? last r); reflexivity.
Qed.


(** ** Writing into a buffer *)

Lemma nth_copy_into (data l : list T) (pos j : nat) (d : T) :
  (pos <= length l)%nat ->
  nth j (copy_into data pos l) d =
    if ((pos <=? j) && (j <? pos + length data))%nat then nth (j - pos) data d
    else nth j l d.
Proof.
  intros Hpos. unfold copy_into.
  destruct (Nat.leb_spec pos j) as [H1|H1]; simpl.
  - rewrite app_nth2 by (rewrite length_firstn; lia).
    rewrite length_firstn, Nat.min_l by lia.
    destruct (Nat.ltb_spec j (pos + length data)) as [H2|H2].
    + rewrite app_nth1 by lia. reflexivity.
    + rewrite app_nth2 by lia. rewrite nth_skipn. f_equal. lia.
  - rewrite app_nth1 by (rewrite length_firstn; lia).
    rewrite nth_firstn. destruct (Nat.ltb_spec j pos); [reflexivity | lia].
Qed.

Lemma length_copy_into (data l : list T) (pos : nat) :
  (pos <= length l)%nat ->
  length (copy_into data pos l) = Nat.max (pos + length data) (length l).
Proof.
  intros Hpos. unfold copy_into.
  rewrite !length_app, length_firstn, length_skipn. lia.
Qed.

Lemma extend_spec (r : datarange_t T) (idx : Z) (data : list T) :
  range_ok r -> 0 <= offset r -> offset r <= idx <= last r ->
  Z.max (idx + vsize data) (last r) < size_modulus ->
  extend r idx data =
    DataRange (Range (offset r) (Z.max (idx + vsize data) (last r)))
              (copy_into data (Z.to_nat (idx - offset r)) (values r)).
Proof.
  intros Hok Ho Hidx Hmax. unfold range_ok in Hok.
  pose proof (vsize_nonneg data) as Hd. pose proof (vsize_nonneg (values r)) as Hv.
  unfold extend, relative_index, size, range_resize, get_iterator, begin_index.
  rewrite (wrap_small (idx - offset r)) by lia.
  rewrite (wrap_small (idx - offset r + vsize data)) by lia.
  rewrite (wrap_small (last r - offset r)) by lia.
  rewrite wrap_small by lia.
  f_equal; [f_equal; lia|].
  unfold vector_resize, copy_into, vsize in *.
  set (pos := Z.to_nat (idx - offset r)).
  set (m := Z.to_nat (Z.max (idx - offset r + Z.of_nat (length data)) (last r - offset r))).
  assert (pos <= length (values r))%nat as Hpos by lia.
  assert (m = Nat.max (pos + length data) (length (values r))) as Hm by lia.
  rewrite (firstn_all2 (n := m)) by lia.
  rewrite firstn_app, skipn_app.
  replace (pos - length (values r))%nat with O by lia. simpl firstn. rewrite app_nil_r.
  rewrite (skipn_all2 (n := (pos + length data - length (values r))%nat))
    by (rewrite repeat_length; lia).
  rewrite app_nil_r. reflexivity.
Qed.

Lemma peek_extend (r : datarange_t T) (idx : Z) (data : list T) (k : Z) :
  range_ok r -> 0 <= offset r -> offset r <= idx <= last r ->
  Z.max (idx + vsize data) (last r) < size_modulus -> offset r <= k ->
  peek (extend r idx data) k =
    if (idx <=? k) && (k <? idx + vsize data)
    then nth (Z.to_nat (k - idx)) data value_zero
    else peek r k.
Proof.
  intros Hok Ho Hidx Hmax Hk. rewrite extend_spec by assumption.
  unfold peek. simpl offset. simpl values. unfold range_ok, vsize in *.
  rewrite nth_copy_into by lia.
  destruct (Z.leb_spec idx k) as [H1|H1]; simpl.
  - replace (Z.to_nat (idx - offset r) <=? Z.to_nat (k - offset r))%nat with true
      by (symmetry; apply Nat.leb_le; lia).
    simpl. destruct (Z.ltb_spec k (idx + Z.of_nat (length data))) as [H2|H2].
    + replace (Z.to_nat (k - offset r) <? Z.to_nat (idx - offset r) + length data)%nat
        with true by (symmetry; apply Nat.ltb_lt; lia).
      f_equal. lia.
    + replace (Z.to_nat (k - offset r) <? Z.to_nat (idx - offset r) + length data)%nat
        with false by (symmetry; apply Nat.ltb_ge; lia).
      reflexivity.
  - replace (Z.to_nat (idx - offset r) <=? Z.to_nat (k - offset r))%nat with false
      by (symmetry; apply Nat.leb_gt; lia).
    reflexivity.
Qed.

Lemma range_ok_extend (r : datarange_t T) (idx : Z) (data : list T) :
  range_ok r -> 0 <= offset r -> offset r <= idx <= last r ->
  Z.max (idx + vsize data) (last r) < size_modulus ->
  range_ok (extend r idx data)
  /\ offset (extend r idx data) = offset r
  /\ last (extend r idx data) = Z.max (idx + vsize data) (last r).
Proof.
  intros Hok Ho Hidx Hmax. rewrite extend_spec by assumption.
  unfold range_ok, vsize in *. simpl. split; [|split; reflexivity].
  rewrite length_copy_into by lia. lia.
Qed.

Lemma datarange_ctor_spec (ofs : Z) (data : list T) :
  0 <= ofs -> ofs + vsize data < size_modulus ->
  datarange_ctor ofs data = DataRange (Range ofs (ofs + vsize data)) data.
Proof.
  intros Ho Hs. pose proof (vsize_nonneg data).
  unfold datarange_ctor, range_ctor. rewrite wrap_small by lia.
  rewrite Z.max_r by lia. reflexivity.
Qed.

(** ** Merging *)

Lemma merge_loop_spec (gap hi : Z) (post : list (datarange_t T)) :
  forall (lo : Z) (r0 : datarange_t T),
    0 <= gap -> range_ok r0 -> 0 <= offset r0 -> offset r0 < last r0 ->
    offset r0 <= lo -> laid_out gap lo hi post ->
    Z.max (last r0) hi < size_modulus ->
    exists r' rest,
      merge_loop r0 post = (r', rest)
      /\ offset r' = offset r0 /\ last r0 <= last r'
      /\ last r' <= Z.max (last r0) hi /\ range_ok r'
      /\ laid_out gap (last r' + 1) hi rest
      /\ forall k, cell (r' :: rest) k =
                     if includes r0 k then Some (peek r0 k) else cell post k.
Proof.
  induction post as [|nx post IH]; intros lo r0 Hg Hok Ho Hne Hlo Hpost Hmax.
  - exists r0, []. simpl. repeat split; try lia; try assumption.
  - simpl in Hpost. destruct Hpost as (H1 & H2 & H3 & H4 & H5).
    simpl merge_loop. unfold begin_index, end_index.
    destruct (borders r0 (offset nx)) eqn:Eb; simpl negb; cbv iota.
    2:{ apply borders_false_iff in Eb.
        exists r0, (nx :: post). simpl. repeat split; try lia; assumption. }
    apply borders_iff in Eb.
    destruct (Z.ltb_spec (last r0) (last nx)) as [Hlt|Hge].
    + (* the tail of [nx] is appended *)
      set (tail := skipn (get_iterator nx (last r0)) (values nx)).
      assert (vsize tail = last nx - last r0) as Htail.
      { unfold tail, get_iterator, begin_index, vsize, range_ok in *.
        rewrite length_skipn. unfold vsize in *. lia. }
      destruct (range_ok_extend r0 (last r0) tail) as (Eok & Eo & El);
        try assumption; try lia.
      destruct (IH (last nx + gap) (extend r0 (last r0) tail))
        as (r' & rest & Em & A & B & C & D & E & F);
        try assumption; try lia.
      exists r', rest. rewrite Em. repeat split; try lia; try assumption.
      intros k. rewrite F. simpl cell.
      destruct (includes r0 k) eqn:E0.
      * apply includes_iff in E0.
        replace (includes (extend r0 (last r0) tail) k) with true
          by (symmetry; apply includes_iff; lia).
        rewrite peek_extend by (try assumption; lia).
        replace (last r0 <=? k) with false by (symmetry; apply Z.leb_gt; lia).
        reflexivity.
      * apply includes_false_iff in E0.
        destruct (includes nx k) eqn:E1.
        -- apply includes_iff in E1.
           replace (includes (extend r0 (last r0) tail) k) with true
             by (symmetry; apply includes_iff; lia).
           rewrite peek_extend by (try assumption; lia).
           replace (last r0 <=? k) with true by (symmetry; apply Z.leb_le; lia).
           replace (k <? last r0 + vsize tail) with true
             by (symmetry; apply Z.ltb_lt; lia).
           simpl. f_equal. unfold tail, peek, get_iterator, begin_index.
           rewrite nth_skipn. f_equal. lia.
        -- apply includes_false_iff in E1.
           replace (includes (extend r0 (last r0) tail) k) with false
             by (symmetry; apply includes_false_iff; lia).
           reflexivity.
    + (* [nx] lies inside [r0] *)
      destruct (IH (last nx + gap) r0) as (r' & rest & Em & A & B & C & D & E & F);
        try assumption; try lia.
      exists r', rest. rewrite Em. repeat split; try lia; try assumption.
      intros k. rewrite F. simpl cell.
      destruct (includes r0 k) eqn:E0; [reflexivity|].
      apply includes_false_iff in E0.
      replace (includes nx k) with false by (symmetry; apply includes_false_iff; lia).
      reflexivity.
Qed.

Lemma merge_ranges_middle (n : Z) (pre post : list (datarange_t T)) (r : datarange_t T) :
  merge_ranges (SparseVector n (pre ++ r :: post)) (length pre) =
    Ret (fix_size (SparseVector n (pre ++ fst (merge_loop r post)
                                        :: snd (merge_loop r post)))).
Proof.
  unfold merge_ranges. simpl ranges. simpl nominal_size.
  rewrite skipn_middle, firstn_middle. destruct (merge_loop r post). reflexivity.
Qed.

Lemma fix_size_spec (n : Z) (rs : list (datarange_t T)) :
  fix_size (SparseVector n rs) =
    SparseVector (match rs with [] => n | _ => Z.max n (last (back rs)) end) rs.
Proof. unfold fix_size. simpl. destruct rs; reflexivity. Qed.

Lemma laid_out_relo (gap lo lo' hi : Z) (post : list (datarange_t T)) :
  laid_out gap lo hi post ->
  match post with [] => True | nx :: _ => lo' <= offset nx end ->
  laid_out gap lo' hi post.
Proof. destruct post as [|nx post]; simpl; [auto|]. intuition lia. Qed.

Lemma In_back (r : datarange_t T) (rs : list (datarange_t T)) : In (back (r :: rs)) (r :: rs).
Proof.
  unfold back. destruct (exists_last (l := r :: rs)) as (l' & z & E); [discriminate|].
  rewrite E, last_last. apply in_or_app. right. left. reflexivity.
Qed.

Lemma laid_out_rebound (gap lo hi hi' : Z) (rs : list (datarange_t T)) :
  laid_out gap lo hi rs -> (forall r, In r rs -> last r <= hi') ->
  laid_out gap lo hi' rs.
Proof.
  revert lo. induction rs as [|x rs IH]; simpl; intros lo H Hin; [exact I|].
  destruct H as (H1 & H2 & H3 & H4 & H5). repeat split; try assumption.
  - apply Hin. left. reflexivity.
  - apply IH; [exact H5|]. intros r Hr. apply Hin. right. exact Hr.
Qed.

(** [merge_ranges] at a range [r0] that was put after the ranges [pre], all
    of them in front of it, and before [post], which it may overlap. *)
Lemma merge_ranges_spec (gap n hi mid lo : Z) (pre post : list (datarange_t T))
      (r0 : datarange_t T) :
  0 <= gap <= 1 -> 0 <= n <= hi -> hi < size_modulus ->
  laid_out gap 0 mid pre -> mid + gap <= offset r0 ->
  0 <= offset r0 -> offset r0 < last r0 -> last r0 <= hi -> range_ok r0 ->
  laid_out gap lo hi post -> offset r0 <= lo ->
  exists v',
    merge_ranges (SparseVector n (pre ++ r0 :: post)) (length pre) = Ret v'
    /\ canonical gap v'
    /\ Z.max n (last r0) <= nominal_size v' <= hi
    /\ forall k, cell (ranges v') k =
                   match cell pre k with
                   | Some x => Some x
                   | None => if includes r0 k then Some (peek r0 k) else cell post k
                   end.
Proof.
  intros Hg Hn Hhi Hpre Hmid Ho Hne Hlast Hok Hpost Hlo.
  destruct (merge_loop_spec gap hi post lo r0)
    as (r' & rest & Em & A & B & C & D & E & F); try assumption; try lia.
  rewrite merge_ranges_middle, Em. simpl fst. simpl snd. rewrite fix_size_spec.
  eexists. split; [reflexivity|].
  assert (laid_out gap 0 hi (pre ++ r' :: rest)) as Hall.
  { apply laid_out_join with (mid := mid); try assumption; try lia.
    apply laid_out_weaken with (gap := gap) (lo := last r' + 1) (hi := hi); try lia.
    exact E. }
  assert (In (back (pre ++ r' :: rest)) (pre ++ r' :: rest)) as Hback.
  { rewrite back_app_cons. apply in_or_app. right. apply In_back. }
  destruct (laid_out_In _ _ _ _ _ (proj1 Hg) Hall Hback) as (_ & _ & Hb2 & _).
  assert (last r' <= last (back (pre ++ r' :: rest))) as Hb1.
  { apply (laid_out_back _ _ _ _ _ (proj1 Hg) Hall). apply in_or_app. right. left.
    reflexivity. }
  assert (match pre ++ r' :: rest with
          | [] => n
          | _ :: _ => Z.max n (last (back (pre ++ r' :: rest)))
          end = Z.max n (last (back (pre ++ r' :: rest)))) as Hsize.
  { destruct (pre ++ r' :: rest) eqn:Ep; [destruct pre; discriminate | reflexivity]. }
  rewrite Hsize. simpl nominal_size. simpl ranges.
  split; [|split; [lia|]].
  - unfold canonical. simpl nominal_size. simpl ranges. split; [lia|].
    apply laid_out_rebound with (hi := hi); [exact Hall|].
    intros r Hr. pose proof (laid_out_back _ _ _ _ _ (proj1 Hg) Hall Hr). lia.
  - intros k. rewrite cell_app. rewrite F. reflexivity.
Qed.

(** ** [add_range] *)

Lemma add_range_spec (gap : Z) (v : sparse_vector T) (ofs : Z) (data : list T) :
  0 <= gap <= 1 -> canonical gap v -> data <> [] ->
  0 <= ofs -> ofs + vsize data < size_modulus ->
  exists v',
    add_range v ofs data = Ret v'
    /\ canonical gap v'
    /\ nominal_size v' = Z.max (nominal_size v) (ofs + vsize data)
    /\ forall k, cell (ranges v') k =
                   if (ofs <=? k) && (k <? ofs + vsize data)
                   then Some (nth (Z.to_nat (k - ofs)) data value_zero)
                   else cell (ranges v) k.
Proof.
  intros Hg [Hn Hlay] Hdata Hofs Hend.
  destruct v as [n rs]. simpl nominal_size in *. simpl ranges in *.
  assert (0 < vsize data) as Hpos.
  { unfold vsize. destruct data; [contradiction | simpl; lia]. }
  pose proof (datarange_ctor_spec ofs data Hofs Hend) as Hctor.
  unfold add_range, find_next_range_iter. simpl ranges. simpl nominal_size.
  pose proof (locate _ _ _ _ ofs (proj1 Hg) Hlay) as L.
  destruct (upper_bound ofs rs) as [|q].
  - (* a new range in front of all the others *)
    destruct L as [Hnone Hhd]. simpl andb. cbv iota.
    unfold insert_range. rewrite Hctor. unfold empty. simpl offset. simpl last.
    replace (ofs + vsize data <=? ofs) with false by (symmetry; apply Z.leb_gt; lia).
    destruct (merge_ranges_spec gap n (Z.max n (ofs + vsize data)) (- gap) ofs [] rs
                (DataRange (Range ofs (ofs + vsize data)) data))
      as (v' & Em & Hc & Hs & Hcell); simpl; try assumption; try lia; try exact I.
    { unfold range_ok. reflexivity. }
    { apply laid_out_weaken with (gap := gap) (lo := ofs) (hi := n); try lia.
      apply laid_out_relo with (lo := 0); [exact Hlay|]. destruct rs; [exact I | lia]. }
    exists v'. unfold vec_insert. simpl. simpl in Em. simpl in Hs.
    split; [exact Em|]. split; [exact Hc|]. split; [lia|].
    intros k. rewrite Hcell. unfold includes. simpl offset. simpl last.
    destruct ((ofs <=? k) && (k <? ofs + vsize data)); reflexivity.
  - destruct L as (pre & r & post & -> & -> & Hr & Hpost & Hcpre & Hcpost).
    destruct (laid_out_split _ _ _ _ _ _ (proj1 Hg) Hlay) as (Lpre & A & B & C & D & Lpost).
    simpl Nat.eqb. simpl negb. simpl Nat.pred. rewrite range_at_middle. simpl andb.
    destruct (borders r ofs) eqn:Eb.
    + (* the range in front is extended *)
      apply borders_iff in Eb. rewrite vec_update_middle.
      destruct (range_ok_extend r ofs data) as (Eok & Eo & El); try assumption; try lia.
      destruct (merge_ranges_spec gap n (Z.max n (ofs + vsize data))
                  (offset r - gap) (last r + gap) pre post (extend r ofs data))
        as (v' & Em & Hc & Hs & Hcell); try assumption; try lia.
      { apply laid_out_weaken with (gap := gap) (lo := last r + gap) (hi := n); try lia.
        exact Lpost. }
      exists v'. split; [exact Em|]. split; [exact Hc|]. split; [lia|].
      intros k. rewrite Hcell. rewrite (cell_middle _ _ _ _ _ _ _ (proj1 Hg) Hlay).
      destruct (cell pre k) as [x|] eqn:Ek.
      * destruct (cell_some_bounds _ _ _ _ _ _ (proj1 Hg) Lpre Ek).
        replace (ofs <=? k) with false by (symmetry; apply Z.leb_gt; lia).
        replace (includes r k) with false by (symmetry; apply includes_false_iff; lia).
        reflexivity.
      * destruct ((ofs <=? k) && (k <? ofs + vsize data)) eqn:Ein.
        -- apply andb_true_iff in Ein. destruct Ein as [E1 E2].
           apply Z.leb_le in E1. apply Z.ltb_lt in E2.
           replace (includes (extend r ofs data) k) with true
             by (symmetry; apply includes_iff; lia).
           rewrite peek_extend by (try assumption; lia).
           replace (ofs <=? k) with true by (symmetry; apply Z.leb_le; lia).
           replace (k <? ofs + vsize data) with true by (symmetry; apply Z.ltb_lt; lia).
           reflexivity.
        -- assert (k < ofs \/ ofs + vsize data <= k) as Hout.
           { apply andb_false_iff in Ein. rewrite Z.leb_gt, Z.ltb_ge in Ein. exact Ein. }
           destruct (includes r k) eqn:Er.
           ++ apply includes_iff in Er.
              replace (includes (extend r ofs data) k) with true
                by (symmetry; apply includes_iff; lia).
              rewrite peek_extend by (try assumption; lia). rewrite Ein. reflexivity.
           ++ apply includes_false_iff in Er.
              replace (includes (extend r ofs data) k) with false
                by (symmetry; apply includes_false_iff; lia).
              reflexivity.
    + (* a new range between two others, or after them all *)
      apply borders_false_iff in Eb.
      unfold insert_range. rewrite Hctor. unfold empty. simpl offset. simpl last.
      replace (ofs + vsize data <=? ofs) with false by (symmetry; apply Z.leb_gt; lia).
      replace (pre ++ r :: post) with ((pre ++ [r]) ++ post)
        by (rewrite <- app_assoc; reflexivity).
      replace (S (length pre)) with (length (pre ++ [r]))
        by (rewrite length_app; simpl; lia).
      rewrite vec_insert_middle.
      destruct (merge_ranges_spec gap n (Z.max n (ofs + vsize data)) (last r) ofs
                  (pre ++ [r]) post (DataRange (Range ofs (ofs + vsize data)) data))
        as (v' & Em & Hc & Hs & Hcell); simpl offset; simpl last; try assumption; try lia.
      { apply laid_out_concat with (mid := offset r - gap); try lia; [exact Lpre|].
        simpl. repeat split; try lia; assumption. }
      { unfold range_ok. reflexivity. }
      { apply laid_out_weaken with (gap := gap) (lo := ofs) (hi := n); try lia.
        apply laid_out_relo with (lo := last r + gap); [exact Lpost|].
        destruct post; [exact I | lia]. }
      simpl in Hs.
      exists v'. split; [exact Em|]. split; [exact Hc|]. split; [lia|].
      intros k. rewrite Hcell. rewrite !cell_app. simpl cell.
      unfold includes at 2. simpl offset. simpl last.
      destruct (cell pre k) as [x|] eqn:Ek.
      * destruct (cell_some_bounds _ _ _ _ _ _ (proj1 Hg) Lpre Ek).
        replace (ofs <=? k) with false by (symmetry; apply Z.leb_gt; lia).
        reflexivity.
      * destruct (includes r k) eqn:Er.
        -- apply includes_iff in Er.
           replace (ofs <=? k) with false by (symmetry; apply Z.leb_gt; lia).
           reflexivity.
        -- destruct ((ofs <=? k) && (k <? ofs + vsize data)); reflexivity.
Qed.

(** ** [combine_range] *)

Section Combine.

Variable op : T -> T -> T.
Variable void_value : T.

Lemma overlaid_nil (o : Z) (rs : list (datarange_t T)) : overlaid op void_value o [] rs rs.
Proof.
  intros k. unfold vsize. simpl.
  replace ((o <=? k) && (k <? o + 0)) with false; [reflexivity|].
  symmetry. apply andb_false_iff. rewrite Z.leb_gt, Z.ltb_ge. lia.
Qed.

Lemma overlaid_trans (o : Z) (n : nat) (src : list T) (rs0 rs1 rs2 : list (datarange_t T)) :
  (n <= length src)%nat ->
  overlaid op void_value o (firstn n src) rs0 rs1 ->
  overlaid op void_value (o + Z.of_nat n) (skipn n src) rs1 rs2 ->
  overlaid op void_value o src rs0 rs2.
Proof.
  intros Hn H1 H2 k. rewrite H2, H1. unfold vsize.
  rewrite length_firstn, length_skipn, Nat.min_l by lia.
  destruct (Z.leb_spec o k) as [A|A]; simpl.
  2:{ replace (o + Z.of_nat n <=? k) with false by (symmetry; apply Z.leb_gt; lia).
      reflexivity. }
  destruct (Z.ltb_spec k (o + Z.of_nat n)) as [B|B]; simpl.
  - replace (o + Z.of_nat n <=? k) with false by (symmetry; apply Z.leb_gt; lia).
    replace (k <? o + Z.of_nat (length src)) with true by (symmetry; apply Z.ltb_lt; lia).
    simpl. rewrite nth_firstn.
    replace (Z.to_nat (k - o) <? n)%nat with true by (symmetry; apply Nat.ltb_lt; lia).
    reflexivity.
  - replace (o + Z.of_nat n <=? k) with true by (symmetry; apply Z.leb_le; lia).
    simpl.
    destruct (Z.ltb_spec k (o + Z.of_nat (length src))) as [C|C].
    + replace (k <? o + Z.of_nat n + Z.of_nat (length src - n)) with true
        by (symmetry; apply Z.ltb_lt; lia).
      rewrite nth_skipn. do 3 f_equal. lia.
    + replace (k <? o + Z.of_nat n + Z.of_nat (length src - n)) with false
        by (symmetry; apply Z.ltb_ge; lia).
      reflexivity.
Qed.

Lemma length_combine_values (dest src : list T) :
  length (combine_values op dest src) = length dest.
Proof.
  revert src. induction dest as [|d dest IH]; intros [|s src]; simpl; try reflexivity.
  rewrite IH. reflexivity.
Qed.

Lemma nth_combine_values (dest src : list T) (j : nat) (d : T) :
  (j < length dest)%nat ->
  nth j (combine_values op dest src) d =
    if (j <? length src)%nat then op (nth j dest d) (nth j src d) else nth j dest d.
Proof.
  revert src j. induction dest as [|x dest IH]; intros [|s src] [|j] H; simpl in *;
    try lia; try reflexivity.
  rewrite IH by lia. reflexivity.
Qed.

(** Step (1): the input is combined into the range that includes [o]. *)
Lemma overlaid_step1 (before rest : list (datarange_t T)) (r : datarange_t T)
      (o : Z) (src : list T) :
  laid_out 0 0 o before -> range_ok r -> offset r <= o < last r ->
  let pos := get_iterator r o in
  let r' := DataRange (base r)
                      (firstn pos (values r)
                         ++ combine_values op (skipn pos (values r)) src) in
  range_ok r'
  /\ overlaid op void_value o (firstn (length (values r) - pos) src)
              (before ++ r :: rest) (before ++ r' :: rest).
Proof.
  intros Hbefore Hok Ho pos r'. unfold range_ok, vsize in Hok.
  assert (pos = Z.to_nat (o - offset r)) as Hpos by reflexivity.
  assert (pos < length (values r))%nat as Hlt by lia.
  split.
  - unfold range_ok, r', vsize. simpl.
    rewrite length_app, length_firstn, length_combine_values, length_skipn. lia.
  - intros k. rewrite !cell_app. simpl cell. unfold vsize.
    rewrite length_firstn.
    destruct (cell before k) as [x|] eqn:Ek.
    { destruct (cell_some_bounds _ _ _ _ _ _ (Z.le_refl 0) Hbefore Ek).
      replace (o <=? k) with false by (symmetry; apply Z.leb_gt; lia). reflexivity. }
    change (includes r' k) with (includes r k).
    destruct (includes r k) eqn:Er.
    2:{ apply includes_false_iff in Er.
        replace ((o <=? k)
                 && (k <? o + Z.of_nat (Nat.min (length (values r) - pos) (length src))))
          with false; [reflexivity|].
        symmetry. apply andb_false_iff. rewrite Z.leb_gt, Z.ltb_ge. lia. }
    apply includes_iff in Er. unfold peek. change (offset r') with (offset r).
    unfold r'. simpl values.
    destruct (Z.leb_spec o k) as [A|A]; simpl.
    + rewrite app_nth2 by (rewrite length_firstn; lia).
      rewrite length_firstn, Nat.min_l by lia.
      rewrite nth_combine_values by (rewrite length_skipn; lia).
      rewrite nth_skipn.
      replace (pos + (Z.to_nat (k - offset r) - pos))%nat with (Z.to_nat (k - offset r))
        by lia.
      replace (Z.to_nat (k - offset r) - pos)%nat with (Z.to_nat (k - o)) by lia.
      destruct (Nat.ltb_spec (Z.to_nat (k - o)) (length src)) as [B|B].
      * replace (k <? o + Z.of_nat (Nat.min (length (values r) - pos) (length src)))
          with true by (symmetry; apply Z.ltb_lt; lia).
        rewrite nth_firstn.
        replace (Z.to_nat (k - o) <? length (values r) - pos)%nat with true
          by (symmetry; apply Nat.ltb_lt; lia).
        reflexivity.
      * replace (k <? o + Z.of_nat (Nat.min (length (values r) - pos) (length src)))
          with false by (symmetry; apply Z.ltb_ge; lia).
        reflexivity.
    + rewrite app_nth1 by (rewrite length_firstn; lia).
      rewrite nth_firstn.
      replace (Z.to_nat (k - offset r) <? pos)%nat with true
        by (symmetry; apply Nat.ltb_lt; lia).
      reflexivity.
Qed.

(** Step (2): the void in front of the next range is filled. *)
Lemma overlaid_step2 (before destRange : list (datarange_t T)) (o : Z) (n : nat)
      (src : list T) :
  laid_out 0 0 o before ->
  (forall k, o <= k < o + Z.of_nat n -> cell destRange k = None) ->
  (n <= length src)%nat ->
  overlaid op void_value o (firstn n src) (before ++ destRange)
           ((before ++ [DataRange (Range o (o + Z.of_nat n))
                                  (map (op void_value) (firstn n src))])
              ++ destRange).
Proof.
  intros Hbefore Hvoid Hn k. rewrite !cell_app. simpl cell. unfold vsize.
  rewrite length_firstn, Nat.min_l by lia.
  destruct (cell before k) as [x|] eqn:Ek.
  { destruct (cell_some_bounds _ _ _ _ _ _ (Z.le_refl 0) Hbefore Ek).
    replace (o <=? k) with false by (symmetry; apply Z.leb_gt; lia). reflexivity. }
  unfold includes. simpl offset. simpl last.
  destruct ((o <=? k) && (k <? o + Z.of_nat n)) eqn:E; [|reflexivity].
  apply andb_true_iff in E. rewrite Z.leb_le, Z.ltb_lt in E.
  rewrite Hvoid by lia. unfold peek. simpl offset. simpl values.
  f_equal. set (j := Z.to_nat (k - o)).
  rewrite nth_indep with (d' := op void_value value_zero)
    by (rewrite length_map, length_firstn; lia).
  rewrite map_nth. reflexivity.
Qed.

Lemma combine_void_delivers (hi : Z)
      (next : list (datarange_t T) -> list (datarange_t T) -> Z -> list T
              -> outcome (list (datarange_t T)))
      (bound : nat) (src : list T) (before destRange : list (datarange_t T)) (o : Z) :
  loop_delivers op void_value hi next bound -> hi < size_modulus ->
  src <> [] -> (length src <= S bound)%nat ->
  0 <= o -> o + vsize src <= hi ->
  laid_out 0 0 hi (before ++ destRange) ->
  laid_out 0 0 o before ->
  laid_out 1 0 hi destRange ->
  match destRange with [] => True | r :: _ => o < offset r end ->
  exists rs',
    combine_void next op void_value before destRange o src = Ret rs'
    /\ laid_out 0 0 hi rs'
    /\ overlaid op void_value o src (before ++ destRange) rs'.
Proof.
  intros Hnext Hhi Hsrc Hlen Ho Hend Hall Hbefore Hdest Hhd.
  assert (0 < length src)%nat as Hpos by (destruct src; [contradiction | simpl; lia]).
  unfold combine_void, begin_index.
  set (newRangeSize := match destRange with
                       | [] => vsize src
                       | r :: _ => wrap (offset r - o)
                       end).
  set (n := Nat.min (Z.to_nat newRangeSize) (length src)).
  assert ((1 <= n <= length src)%nat
          /\ match destRange with [] => True | r :: _ => o + Z.of_nat n <= offset r end)
    as [Hn Hfit].
  { unfold n, newRangeSize, vsize. destruct destRange as [|r rest]; [lia|].
    simpl in Hdest. rewrite wrap_small by lia. lia. }
  assert (vsize (map (op void_value) (firstn n src)) = Z.of_nat n) as Hdata.
  { unfold vsize. rewrite length_map, length_firstn. lia. }
  unfold vsize in Hend.
  rewrite datarange_ctor_spec by lia. rewrite Hdata.
  unfold empty. simpl offset. simpl last.
  replace (o + Z.of_nat n <=? o) with false by (symmetry; apply Z.leb_gt; lia).
  set (new := DataRange (Range o (o + Z.of_nat n)) (map (op void_value) (firstn n src))).
  assert (laid_out 0 0 (o + Z.of_nat n) (before ++ [new])) as Hbefore'.
  { apply laid_out_concat with (mid := o); try lia; [exact Hbefore|].
    simpl. unfold range_ok. simpl. rewrite Hdata. repeat split; lia. }
  destruct (Hnext (skipn n src) (before ++ [new]) destRange (o + Z.of_nat n))
    as (rs' & Er & Hl & Hov).
  - rewrite length_skipn. lia.
  - lia.
  - unfold vsize. rewrite length_skipn. lia.
  - apply laid_out_concat with (mid := o + Z.of_nat n); try lia; [exact Hbefore'|].
    apply laid_out_weaken with (gap := 1) (lo := Z.max 0 (o + Z.of_nat n + 0)) (hi := hi);
      try lia.
    apply laid_out_relo with (lo := 0); [exact Hdest|].
    destruct destRange; [exact I | lia].
  - exact Hbefore'.
  - exact Hdest.
  - destruct destRange as [|r rest]; [exact I|]. simpl in Hdest. lia.
  - exists rs'. split; [exact Er|]. split; [exact Hl|].
    apply overlaid_trans with (n := n) (rs1 := (before ++ [new]) ++ destRange);
      [lia | | exact Hov].
    apply overlaid_step2; [exact Hbefore | | lia].
    intros k Hk. destruct destRange as [|r rest]; [reflexivity|].
    apply laid_out_rebase in Hdest.
    apply (cell_none_below 1 (offset r) hi); [lia | exact Hdest | lia].
Qed.

Lemma combine_loop_delivers (hi : Z) (fuel : nat) :
  hi < size_modulus -> loop_delivers op void_value hi (combine_loop fuel op void_value) fuel.
Proof.
  intros Hhi. induction fuel as [|fuel IH];
    intros src before destRange o Hlen Ho Hend Hall Hbefore Hdest Hhd.
  - destruct src; [|simpl in Hlen; lia]. simpl.
    exists (before ++ destRange). split; [reflexivity|]. split; [exact Hall|].
    apply overlaid_nil.
  - destruct src as [|s src'] eqn:Esrc.
    { simpl. exists (before ++ destRange). split; [reflexivity|]. split; [exact Hall|].
      apply overlaid_nil. }
    rewrite <- Esrc in *. assert (src <> []) as Hne by (rewrite Esrc; discriminate).
    assert (combine_loop (S fuel) op void_value before destRange o src =
            match destRange with
            | r :: rest =>
                if includes r o then
                  let pos := get_iterator r o in
                  if (length (values r) <=? pos)%nat then Undefined
                  else
                    let r' :=
                      DataRange (base r)
                        (firstn pos (values r)
                           ++ combine_values op (skipn pos (values r)) src) in
                    let n := (length (values r) - pos)%nat in
                    if (length src <=? n)%nat then Ret (before ++ r' :: rest)
                    else combine_void (combine_loop fuel op void_value) op void_value
                                      (before ++ [r']) rest (end_index r') (skipn n src)
                else combine_void (combine_loop fuel op void_value) op void_value
                                  before destRange o src
            | [] => combine_void (combine_loop fuel op void_value) op void_value
                                 before destRange o src
            end) as Eloop by (rewrite Esrc; reflexivity).
    rewrite Eloop. clear Eloop.
    destruct destRange as [|r rest].
    { apply (combine_void_delivers hi _ fuel); try assumption. }
    destruct (includes r o) eqn:Einc.
    2:{ apply (combine_void_delivers hi _ fuel); try assumption.
        apply includes_false_iff in Einc. lia. }
    apply includes_iff in Einc.
    destruct (laid_out_split _ _ _ _ _ _ (Z.le_refl 0) Hall) as (Lpre & A & B & C & D & _).
    simpl in Hdest. destruct Hdest as (_ & _ & _ & _ & Lrest).
    pose proof (overlaid_step1 before rest r o src Hbefore D Einc) as S1.
    cbv zeta in S1 |- *. destruct S1 as [Hok' Hov1].
    set (pos := get_iterator r o) in *.
    assert (pos = Z.to_nat (o - offset r)) as Hpos by reflexivity.
    unfold range_ok, vsize in D.
    replace (length (values r) <=? pos)%nat with false
      by (symmetry; apply Nat.leb_gt; lia).
    set (r' := DataRange (base r)
                 (firstn pos (values r) ++ combine_values op (skipn pos (values r)) src))
      in *.
    set (n := (length (values r) - pos)%nat) in *.
    assert (Z.of_nat n = last r - o) as Hn by lia.
    assert (laid_out 0 0 (last r) (before ++ [r'])) as Hbefore'.
    { apply laid_out_concat with (mid := offset r - 0); try lia; [exact Lpre|].
      simpl. change (offset r') with (offset r). change (last r') with (last r).
      repeat split; try lia. exact Hok'. }
    destruct (Nat.leb_spec (length src) n) as [Hfits|Hmore].
    + (* the input ends inside the range *)
      exists (before ++ r' :: rest). split; [reflexivity|]. split.
      * replace (before ++ r' :: rest) with ((before ++ [r']) ++ rest)
          by (rewrite <- app_assoc; reflexivity).
        apply laid_out_concat with (mid := last r); try lia; [exact Hbefore'|].
        apply laid_out_weaken with (gap := 1) (lo := last r + 1) (hi := hi); try lia.
        exact Lrest.
      * rewrite (firstn_all2 (n := n)) in Hov1 by lia. exact Hov1.
    + (* more input: the void after the range is next *)
      change (end_index r') with (last r).
      destruct (combine_void_delivers hi (combine_loop fuel op void_value) fuel
                  (skipn n src) (before ++ [r']) rest (last r))
        as (rs' & Er & Hl & Hov2); try assumption; try lia.
      * intros E. apply (f_equal (@length T)) in E. rewrite length_skipn in E.
        simpl in E. lia.
      * rewrite length_skipn. lia.
      * unfold vsize in *. rewrite length_skipn. lia.
      * apply laid_out_concat with (mid := last r); try lia; [exact Hbefore'|].
        apply laid_out_weaken with (gap := 1) (lo := last r + 1) (hi := hi); try lia.
        exact Lrest.
      * apply laid_out_weaken with (gap := 1) (lo := last r + 1) (hi := hi); try lia.
        exact Lrest.
      * destruct rest as [|nx rest']; [exact I|]. simpl in Lrest. lia.
      * exists rs'. split; [exact Er|]. split; [exact Hl|].
        apply overlaid_trans with (n := n) (rs1 := (before ++ [r']) ++ rest); [lia | |].
        -- rewrite <- app_assoc. exact Hov1.
        -- replace (o + Z.of_nat n) with (last r) by lia. exact Hov2.
Qed.

End Combine.

Lemma canonical_weaken (v : sparse_vector T) : canonical 1 v -> canonical 0 v.
Proof.
  intros [Hn H]. split; [exact Hn|].
  apply laid_out_weaken with (gap := 1) (lo := 0) (hi := nominal_size v); try lia. exact H.
Qed.

(** Where [combine_range] starts: the ranges before the iterator end at
    [ofs] at the latest, the first of the others ends after it. *)
Lemma at_or_after_split (v : sparse_vector T) (ofs : Z) :
  canonical 1 v ->
  let destRange := find_range_iter_at_or_after v ofs in
  laid_out 0 0 ofs (firstn destRange (ranges v))
  /\ laid_out 1 0 (nominal_size v) (skipn destRange (ranges v))
  /\ match skipn destRange (ranges v) with [] => True | r :: _ => ofs < last r end.
Proof.
  intros [Hn Hlay]. destruct v as [n rs]. simpl nominal_size in *. simpl ranges in *.
  unfold find_range_iter_at_or_after, find_next_range_iter. simpl ranges.
  pose proof (locate _ _ _ _ ofs (Z.le_0_1) Hlay) as L.
  destruct (upper_bound ofs rs) as [|q].
  - destruct L as [_ Hhd]. simpl. split; [exact I|]. split; [exact Hlay|].
    destruct rs as [|r rs']; [exact I|]. simpl in Hlay. lia.
  - destruct L as (pre & r & post & -> & -> & Hr & Hpost & _ & _).
    destruct (laid_out_split _ _ _ _ _ _ (Z.le_0_1) Hlay) as (Lpre & A & B & C & D & Lpost).
    simpl Nat.eqb. simpl negb. simpl Nat.pred. rewrite range_at_middle. simpl andb.
    unfold end_index. destruct (Z.ltb_spec ofs (last r)) as [Hin|Hout]; cbv zeta.
    + rewrite firstn_middle, skipn_middle. split; [|split; [|exact Hin]].
      * apply laid_out_weaken with (gap := 1) (lo := 0) (hi := offset r - 1); try lia.
        exact Lpre.
      * simpl. repeat split; try lia; assumption.
    + replace (pre ++ r :: post) with ((pre ++ [r]) ++ post)
        by (rewrite <- app_assoc; reflexivity).
      replace (S (length pre)) with (length (pre ++ [r]))
        by (rewrite length_app; simpl; lia).
      rewrite firstn_middle, skipn_middle. split; [|split].
      * apply laid_out_concat with (mid := offset r); try lia.
        -- apply laid_out_weaken with (gap := 1) (lo := 0) (hi := offset r - 1); try lia.
           exact Lpre.
        -- simpl. repeat split; try lia; assumption.
      * apply laid_out_weaken with (gap := 1) (lo := last r + 1) (hi := n); try lia.
        exact Lpost.
      * destruct post as [|nx post']; [exact I|]. simpl in Lpost. lia.
Qed.

(** Where the final merge of [combine_range] starts: at a range of the
    list, as soon as some cell at or after [x] is present. *)
Lemma find_extending_split (n lo hi : Z) (rs : list (datarange_t T)) (x k : Z) (y : T) :
  laid_out 0 lo hi rs -> x <= k -> cell rs k = Some y ->
  exists pre r0 post,
    rs = pre ++ r0 :: post
    /\ find_extending_range_iter (SparseVector n rs) x = length pre.
Proof.
  intros Hlay Hx Hcell.
  unfold find_extending_range_iter, find_next_range_iter. simpl ranges.
  pose proof (locate _ _ _ _ x (Z.le_refl 0) Hlay) as L.
  destruct (upper_bound x rs) as [|q].
  - simpl. destruct rs as [|r rs']; [discriminate|]. exists [], r, rs'. auto.
  - destruct L as (pre & r & post & -> & -> & Hr & Hpost & _ & _).
    simpl Nat.eqb. simpl negb. simpl Nat.pred. rewrite range_at_middle. simpl andb.
    destruct (borders r x) eqn:Eb.
    + exists pre, r, post. auto.
    + destruct post as [|nx post'].
      * exfalso. apply borders_false_iff in Eb.
        destruct (cell_some_In _ _ _ Hcell) as (r1 & Hin & Hinc & _).
        apply includes_iff in Hinc.
        pose proof (laid_out_back _ _ _ _ _ (Z.le_refl 0) Hlay Hin) as Hb.
        rewrite back_app_cons in Hb. unfold back in Hb. simpl in Hb. lia.
      * exists (pre ++ [r]), nx, post'. rewrite <- app_assoc. simpl.
        split; [reflexivity|]. rewrite length_app. simpl. lia.
Qed.

Section CombineRange.

Variable op : T -> T -> T.
Variable void_value : T.

Lemma combine_range_spec (v : sparse_vector T) (ofs : Z) (src : list T) :
  canonical 1 v -> src <> [] -> 0 <= ofs -> ofs + vsize src < size_modulus ->
  exists v',
    combine_range v ofs src op void_value = Ret v'
    /\ canonical 0 v'
    /\ nominal_size v' = Z.max (nominal_size v) (ofs + vsize src)
    /\ overlaid op void_value ofs src (ranges v) (ranges v').
Proof.
  intros Hcan Hsrc Hofs Hend.
  destruct (at_or_after_split v ofs Hcan) as (Hbefore & Hdest & Hhd).
  destruct Hcan as [Hn Hlay]. cbv zeta in Hbefore, Hdest, Hhd.
  assert (0 < vsize src) as Hpos.
  { unfold vsize. destruct src; [contradiction | simpl; lia]. }
  set (hi := Z.max (nominal_size v) (ofs + vsize src)).
  unfold combine_range.
  set (d := find_range_iter_at_or_after v ofs) in *.
  destruct (combine_loop_delivers op void_value hi (length src + length (ranges v)))
    with (src := src) (before := firstn d (ranges v)) (destRange := skipn d (ranges v))
         (o := ofs)
    as (rs' & Eloop & Hl & Hov); try assumption; try lia.
  { rewrite firstn_skipn.
    apply laid_out_weaken with (gap := 1) (lo := 0) (hi := nominal_size v); try lia.
    exact Hlay. }
  { apply laid_out_weaken with (gap := 1) (lo := 0) (hi := nominal_size v); try lia.
    exact Hdest. }
  rewrite Eloop. simpl bind. rewrite firstn_skipn in Hov.
  assert (exists y, cell rs' ofs = Some y) as [y Hy].
  { rewrite Hov. replace ((ofs <=? ofs) && (ofs <? ofs + vsize src)) with true; [eauto|].
    symmetry. apply andb_true_iff. rewrite Z.leb_le, Z.ltb_lt. lia. }
  set (x := if ofs =? 0 then 0 else wrap (ofs - 1)).
  assert (x <= ofs) as Hx.
  { unfold x. destruct (Z.eqb_spec ofs 0); [lia|]. rewrite wrap_small; lia. }
  destruct (find_extending_split (nominal_size v) 0 hi rs' x ofs y Hl Hx Hy)
    as (pre & r0 & post & -> & ->).
  destruct (laid_out_split _ _ _ _ _ _ (Z.le_refl 0) Hl) as (Lpre & A & B & C & D & Lpost).
  destruct (merge_ranges_spec 0 (nominal_size v) hi (offset r0) (last r0) pre post r0)
    as (v' & Em & Hc & Hs & Hcell); try assumption; try lia.
  { apply laid_out_weaken with (gap := 0) (lo := 0) (hi := offset r0 - 0); try lia.
    exact Lpre. }
  { apply laid_out_weaken with (gap := 0) (lo := last r0 + 0) (hi := hi); try lia.
    exact Lpost. }
  exists v'. split; [exact Em|]. split; [exact Hc|].
  assert (forall k, cell (ranges v') k = cell (pre ++ r0 :: post) k) as Hsame.
  { intros k. rewrite Hcell, cell_app. reflexivity. }
  split.
  - assert (exists z, cell (ranges v') (ofs + vsize src - 1) = Some z) as [z Hz].
    { rewrite Hsame, Hov.
      replace ((ofs <=? ofs + vsize src - 1) && (ofs + vsize src - 1 <? ofs + vsize src))
        with true; [eauto|].
      symmetry. apply andb_true_iff. rewrite Z.leb_le, Z.ltb_lt. lia. }
    destruct Hc as [_ Hc].
    pose proof (cell_some_bounds _ _ _ _ _ _ (Z.le_refl 0) Hc Hz). lia.
  - intros k. rewrite Hsame. apply Hov.
Qed.

End CombineRange.

(** ** Iterators *)

Lemma first_ending_after_app (k : Z) (pre post : list (datarange_t T)) :
  Forall (fun r : (datarange_t T) => last r <= k) pre ->
  first_ending_after k (pre ++ post) = (length pre + first_ending_after k post)%nat.
Proof.
  induction 1 as [|r pre Hr _ IH]; simpl; [reflexivity|].
  replace (k <? last r) with false by (symmetry; apply Z.ltb_ge; exact Hr).
  rewrite IH. reflexivity.
Qed.

Lemma first_ending_after_spec (k : Z) (rs : list (datarange_t T)) :
  exists pre post,
    rs = pre ++ post /\ first_ending_after k rs = length pre
    /\ Forall (fun r : (datarange_t T) => last r <= k) pre
    /\ match post with [] => True | r :: _ => k < last r end.
Proof.
  induction rs as [|r rs IH]; simpl.
  - exists [], []. repeat split. constructor.
  - destruct (Z.ltb_spec k (last r)) as [H|H].
    + exists [], (r :: rs). repeat split; [constructor | exact H].
    + destruct IH as (pre & post & -> & Hlen & Hall & Hpost).
      exists (r :: pre), post. simpl. repeat split; [congruence | | exact Hpost].
      constructor; assumption.
Qed.

Lemma laid_out_ends (gap lo hi : Z) (rs : list (datarange_t T)) :
  0 <= gap -> laid_out gap lo hi rs -> Forall (fun r : (datarange_t T) => last r <= hi) rs.
Proof.
  intros Hg H. apply Forall_forall. intros r Hr.
  destruct (laid_out_In _ _ _ _ _ Hg H Hr) as (_ & _ & Hl & _). exact Hl.
Qed.

Lemma Forall_ends_weaken (k k' : Z) (rs : list (datarange_t T)) :
  k <= k' -> Forall (fun r : (datarange_t T) => last r <= k) rs ->
  Forall (fun r : (datarange_t T) => last r <= k') rs.
Proof.
  intros Hk H. eapply Forall_impl; [|exact H]. simpl. intros r Hr. lia.
Qed.

Lemma cell_none_ends (k : Z) (rs : list (datarange_t T)) :
  Forall (fun r : (datarange_t T) => last r <= k) rs -> cell rs k = None.
Proof.
  intros H. apply cell_none_In. intros r Hr. rewrite Forall_forall in H.
  apply includes_false_iff. right. apply H. exact Hr.
Qed.

(** In a layout, the position found by [upper_bound] and corrected as in
    [refresh_state] is the first range that ends after the index. *)
Lemma refresh_position (lo hi : Z) (rs : list (datarange_t T)) (k : Z) :
  laid_out 0 lo hi rs ->
  (let cr := upper_bound k rs in
   if negb (Nat.eqb cr 0) && (k <? end_index (range_at rs (Nat.pred cr)))
   then Nat.pred cr else cr) = first_ending_after k rs.
Proof.
  intros Hlay. cbv zeta.
  pose proof (locate _ _ _ _ k (Z.le_refl 0) Hlay) as L.
  destruct (upper_bound k rs) as [|q].
  - destruct L as [_ Hhd]. simpl. destruct rs as [|r rs']; [reflexivity|].
    simpl in *. replace (k <? last r) with true by (symmetry; apply Z.ltb_lt; lia).
    reflexivity.
  - destruct L as (pre & r & post & -> & -> & Hr & Hpost & _ & _).
    destruct (laid_out_split _ _ _ _ _ _ (Z.le_refl 0) Hlay) as (Lpre & A & B & C & D & Lpost).
    simpl Nat.eqb. simpl negb. simpl Nat.pred. rewrite range_at_middle. simpl andb.
    rewrite first_ending_after_app.
    2:{ apply Forall_ends_weaken with (k := offset r - 0); [lia|].
        apply (laid_out_ends 0 lo); [lia | exact Lpre]. }
    unfold end_index. simpl first_ending_after.
    destruct (k <? last r); [lia|].
    destruct post as [|nx post']; simpl; [lia|]. simpl in Lpost.
    replace (k <? last nx) with true by (symmetry; apply Z.ltb_lt; lia). lia.
Qed.

Lemma refresh_state_ok (a : address) (c : sparse_vector T) (it : const_iterator) :
  canonical 0 c -> cont it = Some a -> 0 <= index it < size_modulus ->
  iterator_ok a c (refresh_state c it).
Proof.
  intros [_ Hlay] Hcont Hidx. unfold refresh_state, find_next_range_iter. rewrite Hcont.
  pose proof (refresh_position _ _ _ (index it) Hlay) as R. cbv zeta in R.
  destruct (negb (Nat.eqb (upper_bound (index it) (ranges c)) 0)
            && (index it <? end_index (range_at (ranges c)
                                         (Nat.pred (upper_bound (index it) (ranges c))))));
    unfold iterator_ok; simpl; rewrite R; auto.
Qed.

Lemma cbegin_ok (a : address) (c : sparse_vector T) :
  canonical 0 c -> iterator_ok a c (cbegin a c).
Proof.
  intros [_ Hlay]. unfold iterator_ok, cbegin. simpl.
  split; [reflexivity|]. split; [pose proof size_modulus_pos; lia|].
  destruct (ranges c) as [|r rs]; [reflexivity|]. simpl in *.
  replace (0 <? last r) with true by (symmetry; apply Z.ltb_lt; lia). reflexivity.
Qed.

Lemma ctor_index (a : address) (c : sparse_vector T) (i : Z) :
  index (const_iterator_ctor a c i) = Z.min i (vec_size c).
Proof.
  unfold const_iterator_ctor, refresh_state. simpl.
  destruct (negb _ && _); reflexivity.
Qed.

Lemma ctor_ok (a : address) (c : sparse_vector T) (i : Z) :
  canonical 0 c -> 0 <= i < size_modulus ->
  iterator_ok a c (const_iterator_ctor a c i).
Proof.
  intros Hc Hi. unfold const_iterator_ctor. apply refresh_state_ok; [exact Hc | reflexivity|].
  simpl. destruct Hc as [Hn _]. unfold vec_size. lia.
Qed.

Lemma increment_ok (a : address) (c : sparse_vector T) (it : const_iterator) :
  canonical 0 c -> iterator_ok a c it -> iterator_ok a c (increment c it).
Proof.
  intros [Hn Hlay] (Hcont & Hidx & Hcr). unfold increment. rewrite Hcont.
  unfold vec_size. destruct (Z.leb_spec (nominal_size c) (index it)) as [Hend|Hin].
  { unfold iterator_ok. auto. }
  rewrite wrap_small by lia.
  destruct (first_ending_after_spec (index it) (ranges c))
    as (pre & post & Ers & Hlen & Hall & Hpost).
  rewrite Hcr, Hlen, Ers in *. clear Hcr Hlen.
  assert (first_ending_after (index it + 1) (pre ++ post) =
          (length pre + first_ending_after (index it + 1) post)%nat) as Hnext.
  { apply first_ending_after_app. apply Forall_ends_weaken with (k := index it); [lia|].
    exact Hall. }
  destruct post as [|r post'].
  - rewrite app_nil_r in *. rewrite Nat.eqb_refl. simpl andb. cbv iota.
    unfold iterator_ok. simpl. rewrite Ers, Hnext. simpl. repeat split; try lia; auto.
  - replace (Nat.eqb (length pre) (length (pre ++ r :: post'))) with false
      by (symmetry; apply Nat.eqb_neq; rewrite length_app; simpl; lia).
    simpl negb. simpl andb. rewrite range_at_middle. unfold end_index.
    destruct (laid_out_split _ _ _ _ _ _ (Z.le_refl 0) Hlay) as (_ & A & B & C & D & Lpost).
    destruct (Z.leb_spec (last r) (index it + 1)) as [Hl|Hl];
      unfold iterator_ok; simpl cont; simpl index; simpl currentRange;
      rewrite Ers, Hnext; simpl first_ending_after.
    + replace (index it + 1 <? last r) with false by (symmetry; apply Z.ltb_ge; lia).
      repeat split; try lia; auto.
      destruct post' as [|nx post'']; simpl; [lia|]. simpl in Lpost.
      replace (index it + 1 <? last nx) with true by (symmetry; apply Z.ltb_lt; lia). lia.
    + replace (index it + 1 <? last r) with true by (symmetry; apply Z.ltb_lt; lia).
      repeat split; try lia; auto.
Qed.

Lemma plus_assign_ok (a : address) (c : sparse_vector T) (it it' : const_iterator)
      (delta : Z) :
  canonical 0 c -> iterator_ok a c it -> plus_assign c it delta = Ret it' ->
  iterator_ok a c it'.
Proof.
  intros Hc Hit. unfold plus_assign. destruct (delta =? 1).
  { intros [= <-]. apply increment_ok; assumption. }
  destruct Hit as (Hcont & Hidx & Hcr). rewrite Hcont. simpl index. simpl currentRange.
  pose proof (wrap_range (index it + delta)) as Hw.
  destruct (Nat.eqb (currentRange it) (length (ranges c))
            || negb (includes (range_at (ranges c) (currentRange it))
                              (wrap (index it + delta)))) eqn:E.
  - intros [= <-]. apply refresh_state_ok; [exact Hc | reflexivity | exact Hw].
  - intros [= <-]. apply orb_false_iff in E. destruct E as [E1 E2].
    apply Nat.eqb_neq in E1. apply negb_false_iff in E2. apply includes_iff in E2.
    assert (currentRange it < length (ranges c))%nat as Hlt.
    { rewrite Hcr in *.
      destruct (first_ending_after_spec (index it) (ranges c))
        as (pre & post & Ers & Hlen & _). rewrite Hlen, Ers in *.
      rewrite length_app in *. lia. }
    destruct (nth_split (ranges c) datarange_default Hlt) as (pre & post & Ers & Hlen).
    fold (range_at (ranges c) (currentRange it)) in Ers.
    set (r := range_at (ranges c) (currentRange it)) in *.
    destruct Hc as [_ Hlay]. rewrite Ers in Hlay.
    destruct (laid_out_split _ _ _ _ _ _ (Z.le_refl 0) Hlay) as (Lpre & _).
    unfold iterator_ok. simpl. repeat split; auto; try lia.
    rewrite Ers, first_ending_after_app.
    + simpl. replace (wrap (index it + delta) <? last r) with true
        by (symmetry; apply Z.ltb_lt; lia). lia.
    + apply Forall_ends_weaken with (k := offset r - 0); [lia|].
      apply (laid_out_ends 0 0); [lia | exact Lpre].
Qed.

Lemma reachable_ok (a : address) (c : sparse_vector T) (it : const_iterator) :
  canonical 0 c -> reachable a c it -> iterator_ok a c it.
Proof.
  intros Hc H. induction H as [i Hi | | it _ IH | it it' delta _ IH E].
  - apply ctor_ok; assumption.
  - apply cbegin_ok; assumption.
  - apply increment_ok; assumption.
  - apply (plus_assign_ok a c it it' delta); assumption.
Qed.

Lemma dereference_cell (a : address) (c : sparse_vector T) (it : const_iterator) :
  canonical 0 c -> iterator_ok a c it ->
  dereference c it = Ret (cell_value (cell (ranges c) (index it))).
Proof.
  intros [Hn Hlay] (Hcont & Hidx & Hcr). unfold dereference. rewrite Hcont.
  unfold vec_size. destruct (Z.leb_spec (nominal_size c) (index it)) as [Hend|Hin].
  { rewrite (cell_none_above _ _ _ _ _ Hlay Hend). reflexivity. }
  destruct (first_ending_after_spec (index it) (ranges c))
    as (pre & post & Ers & Hlen & Hall & Hpost).
  rewrite Hcr, Hlen, Ers in *. clear Hcr Hlen.
  rewrite cell_app, (cell_none_ends _ _ Hall).
  destruct post as [|r post'].
  - rewrite app_nil_r, Nat.eqb_refl. reflexivity.
  - replace (Nat.eqb (length pre) (length (pre ++ r :: post'))) with false
      by (symmetry; apply Nat.eqb_neq; rewrite length_app; simpl; lia).
    rewrite range_at_middle. unfold begin_index.
    destruct (laid_out_split _ _ _ _ _ _ (Z.le_refl 0) Hlay) as (_ & A & B & C & D & Lpost).
    simpl cell. unfold includes.
    destruct (Z.ltb_spec (index it) (offset r)) as [Hv|Hp].
    + replace (offset r <=? index it) with false by (symmetry; apply Z.leb_gt; lia).
      simpl. rewrite (cell_none_below 0 (last r + 0) (nominal_size c)); try lia; auto.
    + replace (offset r <=? index it) with true by (symmetry; apply Z.leb_le; lia).
      replace (index it <? last r) with true by (symmetry; apply Z.ltb_lt; lia).
      simpl. rewrite datarange_get_peek by lia. reflexivity.
Qed.

Lemma cell_of_range (gap lo hi : Z) (rs : list (datarange_t T)) (r : datarange_t T) (k : Z) :
  0 <= gap -> laid_out gap lo hi rs -> In r rs -> includes r k = true ->
  cell rs k = Some (peek r k).
Proof.
  intros Hg. revert lo. induction rs as [|x rs IH]; simpl; intros lo H Hin Hinc;
    [contradiction|].
  destruct H as (H1 & H2 & H3 & H4 & H5). destruct Hin as [->|Hin].
  - rewrite Hinc. reflexivity.
  - destruct (laid_out_In _ _ _ _ _ Hg H5 Hin) as (A & _). apply includes_iff in Hinc.
    replace (includes x k) with false by (symmetry; apply includes_false_iff; lia).
    apply (IH _ H5 Hin). apply includes_iff. exact Hinc.
Qed.

Lemma upper_bound_prev (k : Z) (rs : list (datarange_t T)) (q : nat) :
  upper_bound k rs = S q -> In (range_at rs q) rs /\ offset (range_at rs q) <= k.
Proof.
  revert q. induction rs as [|r rs IH]; simpl; intros q; [discriminate|].
  unfold less_int_range. destruct (Z.ltb_spec k (offset r)) as [H|H]; [discriminate|].
  intros [= E]. destruct (upper_bound k rs) as [|p] eqn:Ep.
  - subst q. unfold range_at. simpl. auto.
  - subst q. destruct (IH p eq_refl) as [A B]. unfold range_at in *. simpl. auto.
Qed.

(** ** [is_valid] and the canonical form *)

Lemma is_valid_loop_laid_out (lo hi : Z) (rs : list (datarange_t T)) :
  laid_out 1 lo hi rs -> is_valid_loop rs = true.
Proof.
  revert lo. induction rs as [|r rs IH]; simpl; intros lo H; [reflexivity|].
  destruct H as (H1 & H2 & H3 & H4 & H5). unfold empty.
  replace (last r <=? offset r) with false by (symmetry; apply Z.leb_gt; lia).
  destruct rs as [|nx rs']; [reflexivity|].
  pose proof H5 as H5'. simpl in H5'. destruct H5' as (A & B & _).
  unfold less, separate, begin_index, end_index.
  replace (offset r <? offset nx) with true by (symmetry; apply Z.ltb_lt; lia).
  replace (last r <? offset nx) with true by (symmetry; apply Z.ltb_lt; lia).
  rewrite orb_true_r. simpl. apply (IH _ H5).
Qed.

(** A vector in canonical form passes [is_valid()]. *)
Lemma canonical_is_valid (v : sparse_vector T) : canonical 1 v -> is_valid v = true.
Proof.
  intros [Hn H]. unfold is_valid. destruct (ranges v) as [|r rs] eqn:E; [reflexivity|].
  rewrite (is_valid_loop_laid_out _ _ _ H). simpl negb. cbv iota.
  destruct (laid_out_In _ _ _ _ _ Z.le_0_1 H (In_back r rs)) as (_ & _ & Hb & _).
  unfold end_index. replace (nominal_size v <? last (back (r :: rs))) with false
    by (symmetry; apply Z.ltb_ge; lia).
  reflexivity.
Qed.

Lemma is_valid_loop_sound (lo : Z) (rs : list (datarange_t T)) :
  is_valid_loop rs = true -> Forall range_ok rs ->
  match rs with [] => True | r :: _ => lo <= offset r end ->
  laid_out 1 lo (last (back rs)) rs.
Proof.
  revert lo. induction rs as [|r rs IH]; intros lo Hv Hok Hlo; [exact I|].
  simpl in Hv. unfold empty in Hv.
  destruct (Z.leb_spec (last r) (offset r)) as [|Hne]; [discriminate|].
  inversion Hok as [|? ? Hokr Hokrs]; subst.
  destruct rs as [|nx rs'].
  - simpl. unfold back. simpl. repeat split; try lia. exact Hokr.
  - unfold less, separate, begin_index, end_index in Hv.
    destruct (Z.ltb_spec (offset r) (offset nx)) as [Hless|]; [|discriminate].
    simpl negb in Hv. cbv iota in Hv.
    destruct ((last nx <? offset r) || (last r <? offset nx)) eqn:Esep; [|discriminate].
    simpl negb in Hv. cbv iota in Hv.
    assert (offset nx < last nx) as Hnx.
    { simpl in Hv. unfold empty in Hv.
      destruct (Z.leb_spec (last nx) (offset nx)); [discriminate | lia]. }
    assert (last r < offset nx) as Hgap.
    { apply orb_true_iff in Esep. rewrite !Z.ltb_lt in Esep. lia. }
    rewrite back_cons.
    assert (laid_out 1 (last r + 1) (last (back (nx :: rs'))) (nx :: rs')) as Hrest.
    { apply IH; [exact Hv | exact Hokrs | lia]. }
    destruct (laid_out_In _ _ _ _ _ Z.le_0_1 Hrest (or_introl eq_refl)) as (_ & _ & Hb & _).
    simpl. simpl in Hrest. repeat split; try lia; try assumption; apply Hrest.
Qed.

(** A vector that passes [is_valid()], the buffers of whose ranges are as
    long as their intervals, and whose indices fit [size_type], is in
    canonical form. *)
Lemma is_valid_canonical (v : sparse_vector T) :
  is_valid v = true -> Forall range_ok (ranges v) ->
  0 <= nominal_size v < size_modulus ->
  match ranges v with [] => True | r :: _ => 0 <= offset r end ->
  canonical 1 v.
Proof.
  intros Hv Hok Hn Hlo. split; [exact Hn|]. unfold is_valid in Hv.
  destruct (ranges v) as [|r rs] eqn:E; [exact I|].
  destruct (is_valid_loop (r :: rs)) eqn:El; [|discriminate]. simpl negb in Hv.
  cbv iota in Hv. unfold end_index in Hv.
  destruct (Z.ltb_spec (nominal_size v) (last (back (r :: rs)))); [discriminate|].
  apply laid_out_weaken with (gap := 1) (lo := 0) (hi := last (back (r :: rs)));
    try lia.
  apply is_valid_loop_sound; assumption.
Qed.

(** ** [is_void] *)

(** On a vector with non-overlapping ranges [is_void] throws exactly when
    the list of ranges is empty or the index is not below the size, and
    otherwise tells whether no range includes the index. *)
Lemma is_void_spec (v : sparse_vector T) (k : Z) :
  canonical 0 v ->
  (is_void v k = Throw out_of_range <-> ranges v = [] \/ vec_size v <= k)
  /\ (ranges v <> [] -> k < vec_size v ->
      is_void v k = Ret (forallb (fun r : datarange_t T => negb (includes r k)) (ranges v))).
Proof.
  intros [Hn Hlay].
  assert (ranges v <> [] -> k < vec_size v ->
          is_void v k = Ret (forallb (fun r : datarange_t T => negb (includes r k))
                                     (ranges v))) as Hret.
  { intros Hne Hk. rewrite (is_void_cell 0 0 (nominal_size v)); try lia; try assumption.
    f_equal. destruct (cell (ranges v) k) eqn:Ec.
    - destruct (cell_some_In _ _ _ Ec) as (r & Hin & Hinc & _).
      symmetry. apply not_true_is_false. intros Hall.
      rewrite forallb_forall in Hall. specialize (Hall r Hin).
      rewrite Hinc in Hall. discriminate.
    - symmetry. apply forallb_forall. intros r Hin.
      rewrite (proj1 (cell_none_In _ _) Ec r Hin). reflexivity. }
  split; [|exact Hret].
  split.
  - intros Hthrow. destruct (ranges v) as [|r rs] eqn:E; [left; reflexivity|].
    right. destruct (Z_lt_le_dec k (vec_size v)) as [Hk|Hk]; [|exact Hk].
    rewrite Hret in Hthrow by (try discriminate; exact Hk). discriminate.
  - unfold is_void. intros [->|Hk]; [reflexivity|].
    destruct (ranges v); [reflexivity|].
    replace (vec_size v <=? k) with true by (symmetry; apply Z.leb_le; exact Hk).
    reflexivity.
Qed.

(** ** [set_at] and [unset_at] *)

(** Replacing a range by one with the same interval keeps the layout. *)
Lemma laid_out_replace (gap lo hi : Z) (pre post : list (datarange_t T))
      (r r' : datarange_t T) :
  0 <= gap -> laid_out gap lo hi (pre ++ r :: post) ->
  base r' = base r -> range_ok r' ->
  laid_out gap lo hi (pre ++ r' :: post).
Proof.
  intros Hg H Hb Hok.
  destruct (laid_out_split _ _ _ _ _ _ Hg H) as (Lpre & A & B & C & D & Lpost).
  assert (offset r' = offset r /\ last r' = last r) as [Eo El] by (rewrite Hb; auto).
  apply laid_out_join with (mid := offset r - gap); try lia; try assumption.
  - rewrite El. exact Lpost.
Qed.

Lemma set_at_spec (gap : Z) (v : sparse_vector T) (k : Z) (x : T) :
  0 <= gap <= 1 -> canonical gap v -> 0 <= k -> k + 1 < size_modulus ->
  exists v',
    set_at v k x = Ret v'
    /\ canonical gap v'
    /\ nominal_size v' = Z.max (nominal_size v) (k + 1)
    /\ forall j, cell (ranges v') j = if j =? k then Some x else cell (ranges v) j.
Proof.
  intros Hg Hc Hk Hend.
  assert (exists v',
             add_range v k [x] = Ret v'
             /\ canonical gap v'
             /\ nominal_size v' = Z.max (nominal_size v) (k + 1)
             /\ forall j, cell (ranges v') j =
                            if j =? k then Some x else cell (ranges v) j) as Hadd.
  { destruct (add_range_spec gap v k [x]) as (v' & E & Hc' & Hs & Hcell);
      try assumption; try discriminate; try (unfold vsize; simpl; lia).
    exists v'. split; [exact E|]. split; [exact Hc'|]. split; [exact Hs|].
    intros j. rewrite Hcell. unfold vsize. simpl length.
    destruct (Z.eqb_spec j k) as [->|Hne].
    - replace ((k <=? k) && (k <? k + Z.of_nat 1)) with true
        by (symmetry; apply andb_true_iff; rewrite Z.leb_le, Z.ltb_lt; lia).
      rewrite Z.sub_diag. reflexivity.
    - replace ((k <=? j) && (j <? k + Z.of_nat 1)) with false; [reflexivity|].
      symmetry. apply andb_false_iff. rewrite Z.leb_gt, Z.ltb_ge. lia. }
  destruct Hc as [Hn Hlay]. unfold set_at, find_next_range_iter.
  pose proof (locate _ _ _ _ k (proj1 Hg) Hlay) as L.
  destruct (upper_bound k (ranges v)) as [|q]; [exact Hadd|].
  destruct L as (pre & r & post & Ers & -> & Hr & Hpost & Hcpre & Hcpost).
  rewrite Ers in *. rewrite range_at_middle. unfold end_index.
  destruct (Z.ltb_spec k (last r)) as [Hin|Hout]; [|exact Hadd].
  destruct (laid_out_split _ _ _ _ _ _ (proj1 Hg) Hlay) as (Lpre & A & B & C & D & Lpost).
  rewrite vec_update_middle. eexists. split; [reflexivity|].
  unfold range_ok, vsize in D.
  assert (Z.to_nat (relative_index r k) = Z.to_nat (k - offset r)) as Hrel.
  { unfold relative_index. rewrite wrap_small by lia. reflexivity. }
  assert (range_ok (datarange_set r k x)) as Hok.
  { unfold range_ok, datarange_set, vsize. simpl. rewrite Hrel.
    rewrite length_copy_into by lia. simpl. lia. }
  assert (laid_out gap 0 (nominal_size v) (pre ++ datarange_set r k x :: post)) as Hlay'.
  { apply laid_out_replace with (r := r); try assumption; [lia | reflexivity]. }
  split; [split; assumption|]. split; [simpl; lia|].
  intros j. simpl ranges.
  rewrite (cell_middle _ _ _ _ _ _ _ (proj1 Hg) Hlay').
  rewrite (cell_middle _ _ _ _ _ _ _ (proj1 Hg) Hlay).
  change (includes (datarange_set r k x) j) with (includes r j).
  destruct (includes r j) eqn:Einc.
  - apply includes_iff in Einc. unfold peek, datarange_set. simpl. rewrite Hrel.
    rewrite nth_copy_into by lia. simpl length.
    destruct (Z.eqb_spec j k) as [->|Hne].
    + replace ((Z.to_nat (k - offset r) <=? Z.to_nat (k - offset r))%nat
               && (Z.to_nat (k - offset r) <? Z.to_nat (k - offset r) + 1)%nat)
        with true by (symmetry; apply andb_true_iff;
                      rewrite Nat.leb_le, Nat.ltb_lt; lia).
      rewrite Nat.sub_diag. reflexivity.
    + replace ((Z.to_nat (k - offset r) <=? Z.to_nat (j - offset r))%nat
               && (Z.to_nat (j - offset r) <? Z.to_nat (k - offset r) + 1)%nat)
        with false; [reflexivity|].
      symmetry. apply andb_false_iff. rewrite Nat.leb_gt, Nat.ltb_ge. lia.
  - apply includes_false_iff in Einc.
    destruct (Z.eqb_spec j k) as [->|Hne]; [lia | reflexivity].
Qed.

Lemma move_head_spec (r : datarange_t T) (to : Z) (d : T) :
  range_ok r -> 0 <= offset r -> offset r < to <= last r ->
  last r < size_modulus -> to - offset r < 2 ^ 63 ->
  move_head r to d =
    DataRange (Range to (last r)) (skipn (Z.to_nat (to - offset r)) (values r)).
Proof.
  intros Hok Ho Hto Hl Hs. unfold move_head, begin_index, range_move_head, to_signed.
  rewrite wrap_small by lia.
  replace (to - offset r <? 2 ^ 63) with true by (symmetry; apply Z.ltb_lt; lia).
  replace (to - offset r =? 0) with false by (symmetry; apply Z.eqb_neq; lia).
  replace (0 <? to - offset r) with true by (symmetry; apply Z.ltb_lt; lia).
  rewrite wrap_small by lia. do 2 f_equal. lia.
Qed.

Lemma move_tail_spec (r : datarange_t T) (to : Z) (d : T) :
  range_ok r -> 0 <= offset r -> offset r <= to <= last r -> last r < size_modulus ->
  move_tail r to d =
    DataRange (Range (offset r) to) (firstn (Z.to_nat (to - offset r)) (values r)).
Proof.
  intros Hok Ho Hto Hl. unfold range_ok, vsize in Hok.
  unfold move_tail, datarange_resize, relative_index, vector_resize, range_resize, vsize.
  rewrite (wrap_small (to - offset r)) by lia.
  replace (Z.to_nat (to - offset r) - length (values r))%nat with O by lia.
  simpl repeat. rewrite app_nil_r. rewrite length_firstn.
  rewrite wrap_small by lia. do 2 f_equal. lia.
Qed.

(** The two halves of a range cut around the cell [k]. *)
Lemma peek_head_cut (r : datarange_t T) (to l j : Z) :
  offset r <= to <= j ->
  peek (DataRange (Range to l) (skipn (Z.to_nat (to - offset r)) (values r))) j
  = peek r j.
Proof.
  intros H. unfold peek. simpl. rewrite nth_skipn. f_equal. lia.
Qed.

Lemma peek_tail_cut (r : datarange_t T) (to j : Z) :
  offset r <= j < to ->
  peek (DataRange (Range (offset r) to) (firstn (Z.to_nat (to - offset r)) (values r))) j
  = peek r j.
Proof.
  intros H. unfold peek. simpl. rewrite nth_firstn.
  replace (Z.to_nat (j - offset r) <? Z.to_nat (to - offset r))%nat with true
    by (symmetry; apply Nat.ltb_lt; lia).
  reflexivity.
Qed.

Lemma unset_at_spec (gap : Z) (v : sparse_vector T) (k : Z) :
  0 <= gap <= 1 -> canonical gap v -> 0 <= k ->
  canonical gap (unset_at v k)
  /\ nominal_size (unset_at v k) = nominal_size v
  /\ forall j, cell (ranges (unset_at v k)) j =
                 if j =? k then None else cell (ranges v) j.
Proof.
  intros Hg [Hn Hlay] Hk. unfold unset_at, find_next_range_iter.
  pose proof (locate _ _ _ _ k (proj1 Hg) Hlay) as L.
  destruct (upper_bound k (ranges v)) as [|q].
  { destruct L as [Hnone _]. split; [split; assumption|]. split; [reflexivity|].
    intros j. destruct (Z.eqb_spec j k) as [->|]; [exact Hnone | reflexivity]. }
  destruct L as (pre & r & post & Ers & -> & Hr & Hpost & Hcpre & Hcpost).
  rewrite Ers in *. rewrite range_at_middle. unfold end_index, begin_index.
  pose proof (cell_middle _ _ _ _ _ _ k (proj1 Hg) Hlay) as Hk0.
  rewrite Hcpre, Hcpost in Hk0.
  destruct (Z.leb_spec (last r) k) as [Hout|Hin].
  { split; [split; [exact Hn | rewrite Ers; exact Hlay]|]. split; [reflexivity|].
    intros j. rewrite Ers. destruct (Z.eqb_spec j k) as [->|]; [|reflexivity].
    rewrite Hk0. replace (includes r k) with false; [reflexivity|].
    symmetry. apply includes_false_iff. lia. }
  destruct (laid_out_split _ _ _ _ _ _ (proj1 Hg) Hlay) as (Lpre & A & B & C & D & Lpost).
  assert (forall j, cell (pre ++ r :: post) j =
                    if includes r j then Some (peek r j)
                    else match cell pre j with Some x => Some x | None => cell post j end)
    as Hold by (intros j; apply (cell_middle _ _ _ _ _ _ _ (proj1 Hg) Hlay)).
  unfold size. rewrite wrap_small by lia.
  destruct (Z.eqb_spec (last r - offset r) 1) as [Hone|Hmore].
  { (* the range is the cell alone: it is removed *)
    rewrite vec_erase_middle. unfold canonical. simpl nominal_size. simpl ranges.
    split; [split; [exact Hn|]|split; [reflexivity|]].
    - apply laid_out_concat with (mid := offset r - gap); try lia; [exact Lpre|].
      apply laid_out_weaken with (gap := gap) (lo := last r + gap) (hi := nominal_size v);
        try lia. exact Lpost.
    - intros j. rewrite Hold, cell_app.
      destruct (Z.eqb_spec j k) as [->|Hne].
      + rewrite Hcpre, Hcpost. reflexivity.
      + replace (includes r j) with false; [reflexivity|].
        symmetry. apply includes_false_iff. lia. }
  unfold range_ok, vsize in D.
  destruct (Z.eqb_spec k (offset r)) as [Hhead|Hnothead].
  { (* first cell of the range *)
    rewrite vec_update_middle, (wrap_small (k + 1)) by lia.
    rewrite move_head_spec by (try assumption; lia).
    simpl nominal_size. simpl ranges.
    assert (laid_out gap 0 (nominal_size v)
              (pre ++ DataRange (Range (k + 1) (last r))
                                (skipn (Z.to_nat (k + 1 - offset r)) (values r)) :: post))
      as Hlay'.
    { apply laid_out_join with (mid := offset r - gap); simpl offset; simpl last;
        try lia; try assumption.
      unfold range_ok, vsize. simpl. rewrite length_skipn. lia. }
    split; [split; assumption|]. split; [reflexivity|].
    intros j. rewrite (cell_middle _ _ _ _ _ _ _ (proj1 Hg) Hlay'), Hold.
    unfold includes at 1. simpl offset. simpl last.
    destruct (Z.eqb_spec j k) as [->|Hne].
    - replace (k + 1 <=? k) with false by (symmetry; apply Z.leb_gt; lia).
      simpl. rewrite Hcpre, Hcpost. reflexivity.
    - destruct (includes r j) eqn:Einc.
      + apply includes_iff in Einc.
        replace ((k + 1 <=? j) && (j <? last r)) with true
          by (symmetry; apply andb_true_iff; rewrite Z.leb_le, Z.ltb_lt; lia).
        rewrite peek_head_cut by lia. reflexivity.
      + apply includes_false_iff in Einc.
        replace ((k + 1 <=? j) && (j <? last r)) with false; [reflexivity|].
        symmetry. apply andb_false_iff. rewrite Z.leb_gt, Z.ltb_ge. lia. }
  rewrite (wrap_small (last r - 1)) by lia.
  assert (laid_out gap 0 (offset r - gap) pre /\ True) as [_ _] by auto.
  destruct (Z.eqb_spec k (last r - 1)) as [Htail|Hnottail].
  { (* last cell of the range *)
    rewrite vec_update_middle. rewrite move_tail_spec by (try assumption; lia).
    simpl nominal_size. simpl ranges.
    assert (laid_out gap 0 (nominal_size v)
              (pre ++ DataRange (Range (offset r) k)
                                (firstn (Z.to_nat (k - offset r)) (values r)) :: post))
      as Hlay'.
    { apply laid_out_join with (mid := offset r - gap); simpl offset; simpl last;
        try lia; try assumption.
      - unfold range_ok, vsize. simpl. rewrite length_firstn. lia.
      - apply laid_out_weaken with (gap := gap) (lo := last r + gap)
                                   (hi := nominal_size v); try lia. exact Lpost. }
    split; [split; assumption|]. split; [reflexivity|].
    intros j. rewrite (cell_middle _ _ _ _ _ _ _ (proj1 Hg) Hlay'), Hold.
    unfold includes at 1. simpl offset. simpl last.
    destruct (Z.eqb_spec j k) as [->|Hne].
    - replace (k <? k) with false by (symmetry; apply Z.ltb_ge; lia).
      rewrite andb_false_r. rewrite Hcpre, Hcpost. reflexivity.
    - destruct (includes r j) eqn:Einc.
      + apply includes_iff in Einc.
        replace ((offset r <=? j) && (j <? k)) with true
          by (symmetry; apply andb_true_iff; rewrite Z.leb_le, Z.ltb_lt; lia).
        rewrite peek_tail_cut by lia. reflexivity.
      + apply includes_false_iff in Einc.
        replace ((offset r <=? j) && (j <? k)) with false; [reflexivity|].
        symmetry. apply andb_false_iff. rewrite Z.leb_gt, Z.ltb_ge. lia. }
  (* a cell inside the range: the range is cut in two *)
  replace (k <? last r) with true by (symmetry; apply Z.ltb_lt; lia).
  rewrite (wrap_small (k + 1)) by lia.
  unfold relative_index. rewrite wrap_small by lia.
  rewrite datarange_ctor_spec
    by (try lia; unfold vsize; rewrite length_skipn; lia).
  replace (k + 1 + vsize (skipn (Z.to_nat (k + 1 - offset r)) (values r)))
    with (last r) by (unfold vsize; rewrite length_skipn; lia).
  assert (forall x y : datarange_t T,
             vec_update (vec_insert (pre ++ r :: post) (S (length pre)) x) (length pre) y
             = pre ++ y :: x :: post) as Hcut.
  { intros x y.
    replace (S (length pre)) with (length (pre ++ [r]))
      by (rewrite length_app; simpl; lia).
    replace (pre ++ r :: post) with ((pre ++ [r]) ++ post)
      by (rewrite <- app_assoc; reflexivity).
    rewrite vec_insert_middle. rewrite <- app_assoc. simpl app.
    apply vec_update_middle. }
  rewrite Hcut. rewrite move_tail_spec by (try assumption; lia).
  simpl nominal_size. simpl ranges.
  set (left := DataRange (Range (offset r) k) (firstn (Z.to_nat (k - offset r)) (values r))).
  set (right := DataRange (Range (k + 1) (last r))
                          (skipn (Z.to_nat (k + 1 - offset r)) (values r))).
  assert (laid_out gap 0 (nominal_size v) (pre ++ left :: right :: post)) as Hlay'.
  { apply laid_out_join with (mid := offset r - gap); simpl offset; simpl last;
      try lia; try assumption.
    - unfold range_ok, vsize. simpl. rewrite length_firstn. lia.
    - simpl. unfold range_ok, vsize. simpl. rewrite length_skipn.
      repeat split; try lia. exact Lpost. }
  split; [split; assumption|]. split; [reflexivity|].
  intros j. rewrite (cell_middle _ _ _ _ _ _ _ (proj1 Hg) Hlay'), Hold.
  simpl cell. unfold includes at 1 2. simpl offset. simpl last.
  destruct (Z.eqb_spec j k) as [->|Hne].
  - replace (k <? k) with false by (symmetry; apply Z.ltb_ge; lia).
    replace (k + 1 <=? k) with false by (symmetry; apply Z.leb_gt; lia).
    rewrite andb_false_r. simpl. rewrite Hcpre, Hcpost. reflexivity.
  - destruct (includes r j) eqn:Einc.
    + apply includes_iff in Einc.
      destruct (Z.ltb_spec j k) as [Hl|Hl].
      * replace (offset r <=? j) with true by (symmetry; apply Z.leb_le; lia).
        simpl. unfold left. rewrite peek_tail_cut by lia. reflexivity.
      * rewrite andb_false_r.
        replace ((k + 1 <=? j) && (j <? last r)) with true
          by (symmetry; apply andb_true_iff; rewrite Z.leb_le, Z.ltb_lt; lia).
        assert (cell pre j = None) as ->.
        { apply (cell_none_above _ _ _ _ j Lpre). lia. }
        unfold right. rewrite peek_head_cut by lia. reflexivity.
    + apply includes_false_iff in Einc.
      replace ((offset r <=? j) && (j <? k)) with false
        by (symmetry; apply andb_false_iff; rewrite Z.leb_gt, Z.ltb_ge; lia).
      replace ((k + 1 <=? j) && (j <? last r)) with false
        by (symmetry; apply andb_false_iff; rewrite Z.leb_gt, Z.ltb_ge; lia).
      reflexivity.
Qed.

(** After [set_at(k, x)] and [unset_at(k)] no range includes [k]; what
    [is_void(k)] then does depends on whether any range is left. *)
Lemma set_at_unset_at (v : sparse_vector T) (k : Z) (x : T) :
  canonical 1 v -> 0 <= k < vec_size v ->
  exists v1,
    set_at v k x = Ret v1
    /\ canonical 1 (unset_at v1 k)
    /\ vec_size (unset_at v1 k) = vec_size v
    /\ (forall j, cell (ranges (unset_at v1 k)) j =
                    if j =? k then None else cell (ranges v) j)
    /\ is_void (unset_at v1 k) k =
         match ranges (unset_at v1 k) with
         | [] => Throw out_of_range
         | _ => Ret true
         end.
Proof.
  intros Hc Hk. pose proof Hc as [Hn _]. unfold vec_size in *.
  destruct (set_at_spec 1 v k x) as (v1 & E & Hc1 & Hs1 & Hcell1); try assumption; try lia.
  destruct (unset_at_spec 1 v1 k) as (Hc2 & Hs2 & Hcell2); try assumption; try lia.
  exists v1. split; [exact E|]. split; [exact Hc2|]. split; [lia|]. split.
  - intros j. rewrite Hcell2, Hcell1. destruct (j =? k); reflexivity.
  - assert (ranges (unset_at v1 k) <> [] -> is_void (unset_at v1 k) k = Ret true) as Hv.
    { intros Hne. destruct Hc2 as [Hn2 Hlay2].
      rewrite (is_void_cell 1 0 (nominal_size (unset_at v1 k))); try lia; try assumption.
      - rewrite Hcell2, Z.eqb_refl. reflexivity.
      - unfold vec_size. lia. }
    destruct (ranges (unset_at v1 k)) as [|r rs] eqn:Er.
    + unfold is_void. rewrite Er. reflexivity.
    + apply Hv. discriminate.
Qed.

(** With the operator that returns its second operand, [combine_range] and
    [add_range] leave the same size and the same cells; only the lists of
    ranges may differ. *)
Lemma combine_range_second_operand (v : sparse_vector T) (o : Z) (src : list T)
      (void_value : T) :
  canonical 1 v -> src <> [] -> 0 <= o -> o + vsize src < size_modulus ->
  exists va vc,
    add_range v o src = Ret va
    /\ combine_range v o src (fun _ b => b) void_value = Ret vc
    /\ nominal_size va = nominal_size vc
    /\ (forall k, cell (ranges va) k = cell (ranges vc) k)
    /\ (forall k, get va k = get vc k).
Proof.
  intros Hc Hsrc Ho Hend.
  destruct (add_range_spec 1 v o src) as (va & Ea & Hca & Hsa & Hcella);
    try assumption; try lia.
  destruct (combine_range_spec (fun _ b => b) void_value v o src)
    as (vc & Ec & Hcc & Hsc & Hov); try assumption.
  exists va, vc. split; [exact Ea|]. split; [exact Ec|]. split; [lia|].
  assert (forall k, cell (ranges va) k = cell (ranges vc) k) as Hsame.
  { intros k. rewrite Hcella, Hov. reflexivity. }
  split; [exact Hsame|]. intros k.
  destruct Hca as [Hna Hlaya]. destruct Hcc as [Hnc Hlayc].
  destruct va as [na rsa]. destruct vc as [nc rsc].
  simpl ranges in *. simpl nominal_size in *.
  rewrite (get_cell 1 0 na) by (try lia; exact Hlaya).
  rewrite (get_cell 0 0 nc) by (try lia; exact Hlayc).
  rewrite Hsame. reflexivity.
Qed.

(** ** The other operations keep the canonical form *)

Lemma clear_canonical (gap : Z) (v : sparse_vector T) : canonical gap (clear v).
Proof. unfold canonical, clear. simpl. pose proof size_modulus_pos. split; [lia | exact I]. Qed.

Lemma append_canonical (gap : Z) (v : sparse_vector T) (data : list T) :
  0 <= gap <= 1 -> canonical gap v -> data <> [] ->
  vec_size v + vsize data < size_modulus ->
  exists v', append v data = Ret v' /\ canonical gap v'
             /\ nominal_size v' = nominal_size v + vsize data.
Proof.
  intros Hg Hc Hd Hend. pose proof Hc as [Hn _]. unfold append, vec_size in *.
  destruct (add_range_spec gap v (nominal_size v) data) as (v' & E & Hc' & Hs & _);
    try assumption; try lia.
  exists v'. pose proof (vsize_nonneg data).
  split; [exact E|]. split; [exact Hc'|]. lia.
Qed.

Lemma firstn_snoc (pre post : list (datarange_t T)) (r : datarange_t T) :
  firstn (S (length pre)) (pre ++ r :: post) = pre ++ [r].
Proof.
  replace (S (length pre)) with (length (pre ++ [r])) by (rewrite length_app; simpl; lia).
  replace (pre ++ r :: post) with ((pre ++ [r]) ++ post)
    by (rewrite <- app_assoc; reflexivity).
  apply firstn_middle.
Qed.

Lemma resize_canonical (gap : Z) (v : sparse_vector T) (new_size : Z) :
  0 <= gap <= 1 -> canonical gap v -> 0 <= new_size < size_modulus ->
  canonical gap (resize v new_size)
  /\ nominal_size (resize v new_size) = new_size.
Proof.
  intros Hg [Hn Hlay] Hnew. destruct v as [n rs]. unfold resize, vec_size.
  simpl nominal_size in *. simpl ranges in *.
  destruct (Z.leb_spec n new_size) as [Hgrow|Hcut].
  { split; [|reflexivity]. split; [exact Hnew|]. simpl.
    apply laid_out_weaken with (gap := gap) (lo := 0) (hi := n); try lia.
    exact Hlay. }
  unfold find_next_range_iter, vec_erase_range. simpl ranges. simpl nominal_size.
  rewrite (skipn_all2 (n := Nat.max _ _)) by lia. rewrite app_nil_r.
  pose proof (locate _ _ _ _ new_size (proj1 Hg) Hlay) as L.
  destruct (upper_bound new_size rs) as [|q].
  { simpl. split; [|reflexivity]. split; [exact Hnew | exact I]. }
  destruct L as (pre & r & post & -> & -> & Hr & _).
  destruct (laid_out_split _ _ _ _ _ _ (proj1 Hg) Hlay) as (Lpre & A & B & C & D & Lpost).
  rewrite firstn_snoc.
  destruct (pre ++ [r]) as [|x l] eqn:El; [destruct pre; discriminate|]. rewrite <- El.
  replace (Nat.pred (length (pre ++ [r]))) with (length pre)
    by (rewrite length_app; simpl; lia).
  rewrite range_at_middle. unfold begin_index, end_index.
  assert (laid_out gap 0 new_size pre) as Lpre'.
  { apply laid_out_weaken with (gap := gap) (lo := 0) (hi := offset r - gap); try lia.
    exact Lpre. }
  destruct (Z.eqb_spec new_size (offset r)) as [Heq|Hneq].
  { rewrite vec_erase_middle, app_nil_r. split; [|reflexivity].
    split; [exact Hnew | exact Lpre']. }
  destruct (Z.ltb_spec new_size (last r)) as [Hin|Hout].
  - rewrite vec_update_middle. split; [|reflexivity]. split; [exact Hnew|].
    simpl nominal_size. simpl ranges.
    change (datarange_resize r (wrap (new_size - offset r)) value_zero)
      with (move_tail r new_size value_zero).
    rewrite move_tail_spec by (try assumption; lia).
    apply laid_out_concat with (mid := offset r - gap); try lia; [exact Lpre|].
    simpl. unfold range_ok, vsize in *. simpl. rewrite length_firstn.
    repeat split; lia.
  - split; [|reflexivity]. split; [exact Hnew|]. simpl nominal_size. simpl ranges.
    apply laid_out_concat with (mid := offset r - gap); try lia; [exact Lpre|].
    simpl. repeat split; try lia. exact D.
Qed.

Lemma datarange_resize_grow (r : datarange_t T) (to : Z) (d : T) :
  range_ok r -> 0 <= offset r -> last r <= to -> to < size_modulus ->
  datarange_resize r (wrap (to - offset r)) d =
    DataRange (Range (offset r) to)
              (values r ++ repeat d (Z.to_nat (to - last r))).
Proof.
  intros Hok Ho Hto Hl. unfold range_ok, vsize in Hok. pose proof (vsize_nonneg (values r)).
  unfold vsize in *.
  unfold datarange_resize, vector_resize, range_resize, vsize.
  rewrite (wrap_small (to - offset r)) by lia.
  rewrite firstn_all2 by lia. rewrite length_app, repeat_length.
  rewrite wrap_small by lia. f_equal; [f_equal; lia|]. do 2 f_equal. lia.
Qed.

Lemma resize_fill_canonical (gap : Z) (v : sparse_vector T) (new_size : Z) (d : T) :
  0 <= gap <= 1 -> canonical gap v -> 0 <= new_size < size_modulus ->
  exists v',
    resize_fill v new_size d = Ret v' /\ canonical gap v'
    /\ nominal_size v' = new_size.
Proof.
  intros Hg Hc Hnew. pose proof Hc as [Hn Hlay]. unfold resize_fill, vec_size.
  destruct (Z.eqb_spec new_size (nominal_size v)) as [Heq|Hneq].
  { exists v. split; [reflexivity|]. split; [exact Hc | lia]. }
  destruct (Z.ltb_spec (nominal_size v) new_size) as [Hgrow|Hcut].
  2:{ exists (resize v new_size). split; [reflexivity|].
      apply resize_canonical; assumption. }
  unfold back_is_void, vec_size.
  destruct (ranges v) as [|r0 rs0] eqn:Ers.
  - (* no range: a new one is appended *)
    rewrite wrap_small by lia.
    destruct (append_canonical gap v (repeat d (Z.to_nat (new_size - nominal_size v))))
      as (v' & E & Hc' & Hs); try assumption.
    + destruct (Z.to_nat (new_size - nominal_size v)) eqn:Ez; [lia | discriminate].
    + unfold vsize, vec_size. rewrite repeat_length. lia.
    + rewrite E. simpl bind. eexists. split; [reflexivity|].
      unfold vsize in Hs. rewrite repeat_length in Hs.
      destruct Hc' as [Hn' Hlay']. split; [|reflexivity]. split; [exact Hnew|].
      simpl. replace new_size with (nominal_size v') by lia. exact Hlay'.
  - rewrite <- Ers in *.
    destruct (exists_last (l := ranges v)) as (pre & r & E); [rewrite Ers; discriminate|].
    rewrite E in *. rewrite back_snoc. unfold end_index, begin_index.
    replace (pre ++ [r]) with (pre ++ r :: []) in * by reflexivity.
    destruct (laid_out_split _ _ _ _ _ _ (proj1 Hg) Hlay) as (Lpre & A & B & C & D & _).
    destruct (Z.ltb_spec (last r) (nominal_size v)) as [Hvoid|Hfull].
    + (* the vector ends with void: a new range is appended *)
      rewrite wrap_small by lia.
      destruct (append_canonical gap v (repeat d (Z.to_nat (new_size - nominal_size v))))
        as (v' & E' & Hc' & Hs); try assumption.
      * destruct (Z.to_nat (new_size - nominal_size v)) eqn:Ez; [lia | discriminate].
      * unfold vsize, vec_size. rewrite repeat_length. lia.
      * rewrite E'. simpl bind. eexists. split; [reflexivity|].
        unfold vsize in Hs. rewrite repeat_length in Hs.
        destruct Hc' as [Hn' Hlay']. split; [|reflexivity]. split; [exact Hnew|].
        simpl. replace new_size with (nominal_size v') by lia. exact Hlay'.
    + (* the last range is extended *)
      replace (Nat.pred (length (pre ++ [r]))) with (length pre)
        by (rewrite length_app; simpl; lia).
      rewrite vec_update_middle. eexists. split; [reflexivity|]. split; [|reflexivity].
      split; [exact Hnew|]. simpl nominal_size. simpl ranges.
      rewrite datarange_resize_grow by (try assumption; lia).
      apply laid_out_concat with (mid := offset r - gap); try lia; [exact Lpre|].
      simpl. unfold range_ok, vsize in *. simpl. rewrite length_app, repeat_length.
      repeat split; lia.
Qed.

Lemma push_back_canonical (gap : Z) (v : sparse_vector T) (value : T) :
  0 <= gap <= 1 -> canonical gap v ->
  exists v', push_back v value = Ret v' /\ canonical gap v'.
Proof.
  intros Hg Hc. unfold push_back.
  destruct (resize_fill_canonical gap v (wrap (vec_size v + 1)) value)
    as (v' & E & Hc' & _); try assumption; [apply wrap_range|].
  exists v'. auto.
Qed.

Lemma push_back_thr_canonical (is_zero_thr : T -> T -> bool) (gap : Z)
      (v : sparse_vector T) (value thr : T) :
  0 <= gap <= 1 -> canonical gap v ->
  exists v', push_back_thr is_zero_thr v value thr = Ret v' /\ canonical gap v'.
Proof.
  intros Hg Hc. unfold push_back_thr. destruct (is_zero_thr value thr).
  - eexists. split; [reflexivity|]. apply resize_canonical; try assumption.
    apply wrap_range.
  - apply push_back_canonical; assumption.
Qed.

Lemma make_void_around_canonical (gap : Z) (v v' : sparse_vector T) (k : Z)
      (r : datarange_t T) :
  0 <= gap <= 1 -> canonical gap v -> make_void_around v k = Ret (v', r) ->
  canonical gap v' /\ nominal_size v' = nominal_size v.
Proof.
  intros Hg [Hn Hlay]. unfold make_void_around, find_next_range_iter.
  destruct (ranges v) as [|r0 rs0] eqn:Ers; [discriminate|]. rewrite <- Ers in *.
  destruct (vec_size v <=? k); [discriminate|].
  pose proof (locate _ _ _ _ k (proj1 Hg) Hlay) as L.
  destruct (upper_bound k (ranges v)) as [|q].
  { intros [= <- _]. split; [split; assumption | reflexivity]. }
  destruct L as (pre & x & post & E & -> & _).
  rewrite E in *. rewrite range_at_middle.
  destruct (end_index x <=? k).
  { intros [= <- _]. split; [split; [exact Hn | rewrite E; exact Hlay] | reflexivity]. }
  unfold void_range. rewrite E, skipn_middle, vec_erase_middle.
  intros [= <- _]. split; [|reflexivity]. split; [exact Hn|]. simpl.
  destruct (laid_out_split _ _ _ _ _ _ (proj1 Hg) Hlay) as (Lpre & A & B & C & D & Lpost).
  apply laid_out_concat with (mid := offset x - gap); try lia; [exact Lpre|].
  apply laid_out_weaken with (gap := gap) (lo := last x + gap) (hi := nominal_size v);
    try lia. exact Lpost.
Qed.

(** The second half of [make_void]: the ranges from position
    [length front] up to the one the iterator [last] stands in are erased,
    the latter after its head was cut at the index of [last]. *)
Lemma make_void_tail (gap n m i2 : Z) (front rest : list (datarange_t T)) :
  0 <= gap <= 1 -> 0 <= n < size_modulus -> n < 2 ^ 63 ->
  m <= n -> 0 <= m + gap ->
  laid_out gap 0 m front -> laid_out gap (m + gap) n rest ->
  let last_range := (length front + first_ending_after i2 rest)%nat in
  let rs1 := front ++ rest in
  exists v',
    (let '(rs2, erased) :=
       if negb (Nat.eqb last_range (length rs1))
          && (begin_index (range_at rs1 last_range) <? i2)
       then eat_range_head rs1 last_range i2
       else (rs1, false) in
     if erased || (last_range <? length front)%nat then Undefined
     else Ret (SparseVector n (vec_erase_range rs2 (length front) last_range)))
    = Ret v'
    /\ canonical gap v' /\ nominal_size v' = n.
Proof.
  intros Hg Hn Hn63 Hm Hi2 Lfront Lrest. cbv zeta.
  destruct (first_ending_after_spec i2 rest) as (mid & post2 & -> & -> & Hall & Hpost2).
  replace (length front + length mid)%nat with (length (front ++ mid))
    by (rewrite length_app; reflexivity).
  rewrite app_assoc.
  replace (length (front ++ mid) <? length front)%nat with false
    by (symmetry; apply Nat.ltb_ge; rewrite length_app; lia).
  assert (forall l : list (datarange_t T),
             vec_erase_range ((front ++ mid) ++ l) (length front) (length (front ++ mid))
             = front ++ l) as Herase.
  { intros l. unfold vec_erase_range.
    rewrite Nat.max_r by (rewrite length_app; lia).
    rewrite skipn_middle. rewrite <- app_assoc, firstn_middle. reflexivity. }
  assert (laid_out gap 0 n front) as Lfront'.
  { apply laid_out_weaken with (gap := gap) (lo := 0) (hi := m); try lia. exact Lfront. }
  destruct post2 as [|r2 post3].
  - rewrite app_nil_r, Nat.eqb_refl. simpl negb. simpl andb. cbv iota. simpl orb.
    cbv iota. pose proof (Herase []) as Hnil. rewrite !app_nil_r in Hnil. rewrite Hnil.
    eexists. split; [reflexivity|]. split; [|reflexivity].
    split; [exact Hn | exact Lfront'].
  - replace (Nat.eqb (length (front ++ mid)) (length ((front ++ mid) ++ r2 :: post3)))
      with false by (symmetry; apply Nat.eqb_neq; rewrite !length_app; simpl; lia).
    rewrite range_at_middle. simpl negb. simpl andb. unfold begin_index.
    apply laid_out_app in Lrest. destruct Lrest as [Lmid Lpost2].
    pose proof (frontier_ge _ _ _ _ (proj1 Hg) Lmid) as Hfr.
    simpl in Lpost2. destruct Lpost2 as (A & B & C & D & Lpost3).
    destruct (Z.ltb_spec (offset r2) i2) as [Hcut|Hkeep].
    + unfold eat_range_head. rewrite range_at_middle. unfold begin_index, end_index.
      replace (i2 <=? offset r2) with false by (symmetry; apply Z.leb_gt; lia).
      replace (last r2 <=? i2) with false by (symmetry; apply Z.leb_gt; lia).
      rewrite vec_update_middle. simpl orb. cbv iota. rewrite Herase.
      rewrite move_head_spec by (try assumption; lia).
      eexists. split; [reflexivity|]. split; [|reflexivity]. split; [exact Hn|].
      simpl nominal_size. simpl ranges.
      apply laid_out_join with (mid := m); simpl offset; simpl last; try lia;
        try assumption.
      unfold range_ok, vsize in *. simpl. rewrite length_skipn. lia.
    + simpl orb. cbv iota. rewrite Herase.
      eexists. split; [reflexivity|]. split; [|reflexivity]. split; [exact Hn|].
      simpl nominal_size. simpl ranges.
      apply laid_out_join with (mid := m); try lia; try assumption.
Qed.

Lemma is_this_refl (a : address) (it : const_iterator) :
  cont it = Some a ->
  match cont it with Some a' => Nat.eqb a' a | None => false end = true.
Proof. intros ->. apply Nat.eqb_refl. Qed.

(** [make_void] between two iterators of the vector keeps the canonical
    form. *)
Lemma make_void_canonical (gap : Z) (a : address) (v : sparse_vector T)
      (it1 it2 : const_iterator) :
  0 <= gap <= 1 -> canonical gap v -> nominal_size v < 2 ^ 63 ->
  iterator_ok a v it1 -> iterator_ok a v it2 ->
  exists v',
    make_void a v it1 it2 = Ret v'
    /\ canonical gap v' /\ nominal_size v' = nominal_size v.
Proof.
  intros Hg Hc Hn63 (Hc1 & Hi1 & Hcr1) (Hc2 & Hi2 & Hcr2).
  pose proof Hc as [Hn Hlay]. destruct v as [n rs].
  simpl nominal_size in *. simpl ranges in *.
  unfold make_void. rewrite (is_this_refl a it1 Hc1), (is_this_refl a it2 Hc2).
  simpl negb. simpl orb. cbv iota.
  destruct (Z.leb_spec (index it2) (index it1)) as [Hle|Hlt].
  { exists (SparseVector n rs). auto. }
  simpl ranges. simpl nominal_size. rewrite Hcr1, Hcr2.
  destruct (first_ending_after_spec (index it1) rs)
    as (pre & post1 & -> & -> & Hall1 & Hpost1).
  destruct post1 as [|r post].
  { rewrite app_nil_r, Nat.eqb_refl. exists (SparseVector n pre).
    rewrite app_nil_r in Hc. auto. }
  replace (Nat.eqb (length pre) (length (pre ++ r :: post))) with false
    by (symmetry; apply Nat.eqb_neq; rewrite length_app; simpl; lia).
  rewrite range_at_middle. unfold begin_index.
  rewrite (first_ending_after_app (index it2))
    by (apply Forall_ends_weaken with (k := index it1); [lia | exact Hall1]).
  destruct (laid_out_split _ _ _ _ _ _ (proj1 Hg) Hlay) as (Lpre & A & B & C & D & Lpost).
  destruct (Z.ltb_spec (offset r) (index it1)) as [Hinside|Hbefore].
  - simpl first_ending_after.
    destruct (Z.ltb_spec (index it2) (last r)) as [Hsame|Hlater].
    + (* both iterators stand in the same range: it is cut in two *)
      rewrite Nat.add_0_r, Nat.eqb_refl. simpl andb. cbv iota.
      assert (forall x y : datarange_t T,
                 vec_update (vec_insert (pre ++ r :: post) (S (length pre)) x)
                            (length pre) y
                 = pre ++ y :: x :: post) as Hcut.
      { intros x y.
        replace (S (length pre)) with (length (pre ++ [r]))
          by (rewrite length_app; simpl; lia).
        replace (pre ++ r :: post) with ((pre ++ [r]) ++ post)
          by (rewrite <- app_assoc; reflexivity).
        rewrite vec_insert_middle. rewrite <- app_assoc. simpl app.
        apply vec_update_middle. }
      rewrite Hcut. eexists. split; [reflexivity|]. split; [|reflexivity].
      split; [exact Hn|]. simpl nominal_size. simpl ranges.
      unfold range_ok, vsize in D.
      rewrite move_tail_spec by (try assumption; lia).
      unfold relative_index. rewrite wrap_small by lia.
      rewrite datarange_ctor_spec by (try lia; unfold vsize; rewrite length_skipn; lia).
      apply laid_out_join with (mid := offset r - gap); simpl offset; simpl last;
        try lia; try assumption.
      * unfold range_ok, vsize. simpl. rewrite length_firstn. lia.
      * simpl. unfold range_ok, vsize. simpl. rewrite !length_skipn.
        repeat split; try lia.
        replace (index it2 + Z.of_nat (length (values r) - Z.to_nat (index it2 - offset r)))
          with (last r) by lia.
        exact Lpost.
    + (* the first range is cut at its tail, the others follow *)
      replace (Nat.eqb (length pre)
                       (length pre + S (first_ending_after (index it2) post)))
        with false by (symmetry; apply Nat.eqb_neq; lia).
      rewrite andb_false_r. cbv iota.
      rewrite vec_update_middle.
      rewrite move_tail_spec by (try assumption; lia).
      set (left := DataRange (Range (offset r) (index it1))
                             (firstn (Z.to_nat (index it1 - offset r)) (values r))).
      replace (pre ++ left :: post) with ((pre ++ [left]) ++ post)
        by (rewrite <- app_assoc; reflexivity).
      replace (S (length pre)) with (length (pre ++ [left]))
        by (rewrite length_app; simpl; lia).
      replace (length pre + S (first_ending_after (index it2) post))%nat
        with (length (pre ++ [left]) + first_ending_after (index it2) post)%nat
        by (rewrite length_app; simpl; lia).
      apply (make_void_tail gap n (index it1) (index it2) (pre ++ [left]) post);
        try assumption; try lia.
      * apply laid_out_concat with (mid := offset r - gap); try lia; [exact Lpre|].
        simpl. unfold range_ok, vsize in *. simpl. rewrite length_firstn.
        repeat split; lia.
      * apply laid_out_weaken with (gap := gap) (lo := last r + gap) (hi := n); try lia.
        exact Lpost.
  - (* the first iterator stands in the void in front of a range *)
    simpl andb. cbv iota.
    apply (make_void_tail gap n (offset r - gap) (index it2) pre (r :: post));
      try assumption; try lia.
    simpl. replace (offset r - gap + gap) with (offset r) by lia.
    repeat split; try lia; assumption.
Qed.

(** Every public mutating operation other than [combine_range] returns
    (or, for [make_void_around], throws [out_of_range]) and leaves a vector
    in canonical form, which [is_valid()] accepts. *)
Lemma mutations_keep_canonical (this : address) (v : sparse_vector T) (m : mutation T) :
  canonical 1 v -> fits this v m ->
  match run this v m with
  | Ret v' => canonical 1 v' /\ is_valid v' = true
  | Throw _ => exists k, m = call_make_void_around k
  | Undefined => False
  end.
Proof.
  intros Hc Hfit.
  assert (forall v', canonical 1 v' -> canonical 1 v' /\ is_valid (v' : sparse_vector T) = true) as Hvalid.
  { intros v' H. split; [exact H | apply canonical_is_valid; exact H]. }
  assert (0 <= 1 <= 1) as Hg by lia.
  destruct m as [k value | k | ofs data | data | value | new_size | new_size d
                 | it1 it2 | k | ]; simpl in Hfit |- *.
  - destruct Hfit as [H1 H2].
    destruct (set_at_spec 1 v k value Hg Hc H1 H2) as (v' & -> & Hc' & _). auto.
  - destruct (unset_at_spec 1 v k Hg Hc Hfit) as (Hc' & _). auto.
  - destruct Hfit as (H1 & H2 & H3).
    destruct (add_range_spec 1 v ofs data Hg Hc H1 H2 H3) as (v' & -> & Hc' & _). auto.
  - destruct Hfit as (H1 & H2).
    destruct (append_canonical 1 v data Hg Hc H1 H2) as (v' & -> & Hc' & _). auto.
  - destruct (push_back_canonical 1 v value Hg Hc) as (v' & -> & Hc'). auto.
  - destruct (resize_canonical 1 v new_size Hg Hc Hfit) as (Hc' & _). auto.
  - destruct (resize_fill_canonical 1 v new_size d Hg Hc Hfit) as (v' & -> & Hc' & _). auto.
  - destruct Hfit as (H1 & H2 & H3). pose proof (canonical_weaken v Hc) as Hc0.
    destruct (make_void_canonical 1 this v it1 it2 Hg Hc H1
                (reachable_ok this v it1 Hc0 H2) (reachable_ok this v it2 Hc0 H3))
      as (v' & -> & Hc' & _). auto.
  - destruct (make_void_around v k) as [[v' r]| e |] eqn:E; simpl.
    + destruct (make_void_around_canonical 1 v v' k r Hg Hc E) as (Hc' & _). auto.
    + exists k. reflexivity.
    + unfold make_void_around, find_next_range_iter in E.
      pose proof (upper_bound_le k (ranges v)) as Hp.
      destruct (ranges v) as [|r0 rs0] eqn:Ers; [discriminate|]. rewrite <- Ers in *.
      destruct (vec_size v <=? k); [discriminate|].
      destruct (upper_bound k (ranges v)) as [|p]; [discriminate|].
      destruct (end_index (range_at (ranges v) p) <=? k); [discriminate|].
      unfold void_range in E. destruct (skipn p (ranges v)) eqn:Es; [|discriminate].
      apply (f_equal (@length _)) in Es. rewrite length_skipn in Es. simpl in Es. lia.
  - apply Hvalid. apply clear_canonical.
Qed.

(** ** The rounds of [combine_range] *)

Section Fuel.

Variable op : T -> T -> T.
Variable void_value : T.

Lemma wrap_le (x : Z) : 0 <= x -> wrap x <= x.
Proof. intros H. unfold wrap. apply Z.mod_le; [exact H | exact size_modulus_pos]. Qed.

Lemma combine_void_ext
      (next1 next2 : list (datarange_t T) -> list (datarange_t T) -> Z -> list T
                     -> outcome (list (datarange_t T)))
      (bound : nat) :
  (forall before destRange ofs src,
      0 <= ofs -> Forall (fun r : datarange_t T => 0 <= last r) destRange ->
      (length src + length destRange <= bound)%nat ->
      next1 before destRange ofs src = next2 before destRange ofs src) ->
  forall before destRange ofs src,
    0 <= ofs -> Forall (fun r : datarange_t T => 0 <= last r) destRange ->
    (length src + length destRange <= S bound)%nat ->
    combine_void next1 op void_value before destRange ofs src
    = combine_void next2 op void_value before destRange ofs src.
Proof.
  intros Hnext before destRange ofs src Hofs Hall Hlen. unfold combine_void.
  set (n := Nat.min _ (length src)).
  destruct (empty (datarange_ctor ofs (map (op void_value) (firstn n src)))) eqn:Ee.
  - destruct destRange as [|r rest]; [reflexivity|].
    inversion Hall; subst. apply Hnext; [assumption | assumption|].
    rewrite length_skipn. simpl in Hlen. lia.
  - assert (1 <= n)%nat as Hn.
    { destruct n; [|lia]. exfalso. unfold empty, datarange_ctor, range_ctor, vsize in Ee.
      simpl in Ee. rewrite Z.add_0_r in Ee. pose proof (wrap_le ofs Hofs).
      apply Z.leb_gt in Ee. lia. }
    apply Hnext; [|exact Hall|].
    + unfold end_index, datarange_ctor, range_ctor. simpl. lia.
    + rewrite length_skipn. lia.
Qed.

(** More fuel than [length src + length destRange] does not change what
    the loop returns: each round uses up input or moves the iterator on. *)
Lemma combine_loop_fuel (fuel : nat) :
  forall fuel' before destRange ofs src,
    0 <= ofs -> Forall (fun r : datarange_t T => 0 <= last r) destRange ->
    (length src + length destRange <= fuel)%nat ->
    (length src + length destRange <= fuel')%nat ->
    combine_loop fuel op void_value before destRange ofs src
    = combine_loop fuel' op void_value before destRange ofs src.
Proof.
  induction fuel as [|fuel IH]; intros fuel' before destRange ofs src Hofs Hall H1 H2.
  - destruct src; [|simpl in H1; lia]. destruct fuel'; reflexivity.
  - destruct src as [|s src']; [destruct fuel'; reflexivity|].
    destruct fuel' as [|fuel']; [simpl in H2; lia|].
    assert (forall b d o sr,
               0 <= o -> Forall (fun r : datarange_t T => 0 <= last r) d ->
               (length sr + length d <= Nat.min fuel fuel')%nat ->
               combine_loop fuel op void_value b d o sr
               = combine_loop fuel' op void_value b d o sr) as Hboth.
    { intros b d o sr Ho Hd Hl. apply IH; try assumption; lia. }
    cbn [combine_loop]. cbv zeta. destruct destRange as [|r rest].
    + apply (combine_void_ext _ _ (Nat.min fuel fuel') Hboth); try assumption.
      simpl in *. lia.
    + inversion Hall; subst. destruct (includes r ofs).
      * destruct (Nat.leb_spec (length (values r)) (get_iterator r ofs)) as [Ep|Ep];
          [reflexivity|].
        destruct (Nat.leb_spec (length (s :: src'))
                               (length (values r) - get_iterator r ofs)) as [En|En];
          [reflexivity|].
        apply (combine_void_ext _ _ (Nat.min fuel fuel') Hboth);
          [unfold end_index; simpl; assumption | assumption |].
        rewrite length_skipn. cbn [length] in *. lia.
      * apply (combine_void_ext _ _ (Nat.min fuel fuel') Hboth); try assumption.
        simpl in *. lia.
Qed.

End Fuel.


(** The rounds [combine_range] grants its loop are enough: granting more
    gives the same result. *)
Lemma combine_range_rounds (op : T -> T -> T) (void_value : T)
      (v : sparse_vector T) (ofs : Z) (src : list T) (extra : nat) :
  0 <= ofs -> Forall (fun r : datarange_t T => 0 <= last r) (ranges v) ->
  let destRange := find_range_iter_at_or_after v ofs in
  combine_loop (length src + length (ranges v) + extra) op void_value
    (firstn destRange (ranges v)) (skipn destRange (ranges v)) ofs src
  = combine_loop (length src + length (ranges v)) op void_value
      (firstn destRange (ranges v)) (skipn destRange (ranges v)) ofs src.
Proof.
  intros Hofs Hall destRange.
  assert (Forall (fun r : datarange_t T => 0 <= last r) (skipn destRange (ranges v))) as Hs.
  { rewrite <- (firstn_skipn destRange (ranges v)) in Hall.
    apply Forall_app in Hall. exact (proj2 Hall). }
  apply combine_loop_fuel; try assumption; rewrite length_skipn; lia.
Qed.


(** ** The claims *)

(** C2.  In a vector whose ranges do not overlap, an iterator that was built
    as [const_iterator(v, i)] or reached from [begin()] through [operator++]
    and [operator+=], and that stands at an index [i] with
    [0 <= i <= v.size()], dereferences to what the read-only [operator[]]
    returns for [i]: the element stored by the range that includes [i], and
    zero when [i] is in the void or at the end. *)
Theorem C2_dereference_agrees_with_indexing
        (a : address) (c : sparse_vector T) (it : const_iterator) (i : Z) :
  canonical 0 c -> reachable a c it -> index it = i -> 0 <= i <= vec_size c ->
  dereference c it = Ret (get c i)
  /\ (forall r, In r (ranges c) -> includes r i = true -> get c i = datarange_get r i)
  /\ ((forall r, In r (ranges c) -> includes r i = false) -> get c i = value_zero)
  /\ (i = vec_size c -> get c i = value_zero).
Proof.
  intros Hc Hreach Hidx Hi. pose proof (reachable_ok a c it Hc Hreach) as Hok.
  rewrite (dereference_cell a c it Hc Hok). rewrite Hidx.
  destruct Hc as [Hn Hlay]. destruct c as [n rs]. simpl ranges in *.
  simpl nominal_size in *. unfold vec_size in *. simpl nominal_size in *.
  assert (get (SparseVector n rs) i = cell_value (cell rs i)) as Hget.
  { apply (get_cell 0 0 n); try lia. exact Hlay. }
  rewrite Hget. split; [reflexivity|]. split; [|split].
  - intros r Hin Hinc. rewrite (cell_of_range _ _ _ _ _ _ (Z.le_refl 0) Hlay Hin Hinc).
    simpl. symmetry. apply includes_iff in Hinc.
    destruct (laid_out_In _ _ _ _ _ (Z.le_refl 0) Hlay Hin) as (A & B & C & D).
    apply datarange_get_peek; lia.
  - intros Hvoid. apply cell_none_In in Hvoid. rewrite Hvoid. reflexivity.
  - intros ->. rewrite (cell_none_above _ _ _ _ n Hlay) by lia. reflexivity.
Qed.

(** C4.  Starting from a vector whose ranges do not overlap, after
    [add_range(a, A)] and then [add_range(b, B)], both within the index
    type, every position [k] that lies in [[a, a+|A|)] and in [[b, b+|B|)]
    reads [B[k - b]]: both calls return, and the later one wins. *)
Theorem C4_later_add_range_wins
        (v : sparse_vector T) (a b : Z) (A B : list T) (k : Z) :
  canonical 0 v ->
  0 <= a -> a + vsize A < size_modulus ->
  0 <= b -> b + vsize B < size_modulus ->
  a <= k < a + vsize A -> b <= k < b + vsize B ->
  exists v1 v2,
    add_range v a A = Ret v1 /\ add_range v1 b B = Ret v2
    /\ get v2 k = nth (Z.to_nat (k - b)) B value_zero.
Proof.
  intros Hc Ha HA Hb HB HkA HkB.
  assert (A <> []) as HneA by (intros ->; unfold vsize in HkA; simpl in HkA; lia).
  assert (B <> []) as HneB by (intros ->; unfold vsize in HkB; simpl in HkB; lia).
  destruct (add_range_spec 0 v a A) as (v1 & E1 & Hc1 & _ & _); try assumption; try lia.
  destruct (add_range_spec 0 v1 b B) as (v2 & E2 & Hc2 & _ & Hcell);
    try assumption; try lia.
  exists v1, v2. split; [exact E1|]. split; [exact E2|].
  destruct Hc2 as [Hn2 Hlay2]. destruct v2 as [n2 rs2].
  simpl ranges in *. simpl nominal_size in *.
  rewrite (get_cell 0 0 n2) by (try lia; exact Hlay2).
  rewrite Hcell.
  replace ((b <=? k) && (k <? b + vsize B)) with true; [reflexivity|].
  symmetry. apply andb_true_iff. rewrite Z.leb_le, Z.ltb_lt. lia.
Qed.


(** C9.  The constructor [const_iterator(c, offset)] starts at an index that
    is at most [c.size()], [operator++] keeps the index at most [c.size()],
    and on an iterator that stands at [c.size()] it changes nothing: the
    iterator still compares equal to [end()]. *)
Theorem C9_increment_stays_within_size (a : address) (c : sparse_vector T) :
  0 <= vec_size c < size_modulus ->
  (forall ofs, 0 <= ofs -> 0 <= index (const_iterator_ctor a c ofs) <= vec_size c)
  /\ (forall it, 0 <= index it <= vec_size c ->
                 0 <= index (increment c it) <= vec_size c)
  /\ (forall it, cont it = Some a -> index it = vec_size c ->
                 increment c it = it
                 /\ iterator_eqb (increment c it) (cend a c) = true).
Proof.
  intros Hn. split; [|split].
  - intros ofs Hofs. rewrite ctor_index. lia.
  - intros it Hit. unfold increment. destruct (cont it); [|exact Hit].
    destruct (Z.leb_spec (vec_size c) (index it)) as [H|H]; [exact Hit|].
    destruct (negb _ && _); simpl; rewrite wrap_small; lia.
  - intros it Hcont Hidx. unfold increment. rewrite Hcont.
    replace (vec_size c <=? index it) with true by (symmetry; apply Z.leb_le; lia).
    split; [reflexivity|]. unfold iterator_eqb, cend. rewrite Hcont. simpl.
    rewrite Nat.eqb_refl. apply Z.eqb_eq. exact Hidx.
Qed.

(** C10, amended.  For an index [k] that no range includes, the mutable
    [operator[]] returns a proxy that holds a null pointer; converting the
    proxy to [value_type] with the conversions it inherits from
    [const_reference] gives [value_zero], which is what the read-only
    [operator[]] returns; assignment through the proxy is undefined, and so
    is its explicit conversion to [value_type&]: the uses of the proxy that
    are undefined are exactly those two. *)
Theorem C10_reference_to_a_void_cell (v : sparse_vector T) (k : Z) :
  (forall r, In r (ranges v) -> includes r k = false) ->
  ptr (get_reference v k) = None
  /\ const_reference_value v (get_reference v k) = Ret value_zero
  /\ get v k = value_zero
  /\ (forall x, reference_assign v (get_reference v k) x = Undefined)
  /\ (forall u, use_defined v (get_reference v k) u = false
                <-> is_assignment u = true \/ u = to_lvalue).
Proof.
  intros Hvoid.
  assert (get_reference v k = Reference (ConstReference None) /\ get v k = value_zero)
    as [Href Hget].
  { unfold get_reference, get, find_next_range_iter.
    destruct (upper_bound k (ranges v)) as [|q] eqn:Eq; [auto|].
    destruct (upper_bound_prev _ _ _ Eq) as [Hin Hofs].
    specialize (Hvoid _ Hin). apply includes_false_iff in Hvoid. unfold end_index.
    replace (k <? last (range_at (ranges v) q)) with false
      by (symmetry; apply Z.ltb_ge; lia).
    auto. }
  rewrite Href, Hget. simpl. repeat split; auto.
  - destruct u; simpl; intros H; try discriminate; auto.
  - intros [H| ->]; [destruct u; simpl in *; try discriminate; reflexivity | reflexivity].
Qed.

(** C6, at the input where the source departs from it.  A vector of size
    10 without ranges is not empty and 3 is one of its indices, yet
    [is_void(3)] throws [out_of_range]: the source tests whether the list
    of ranges is empty, not whether the size is zero. *)
Theorem C6_is_void_throws_without_ranges :
  let v := resize sparse_vector_default 10 in
  vec_empty v = false /\ 3 < vec_size v /\ ranges v = []
  /\ is_void v 3 = Throw out_of_range.
Proof. repeat split. Qed.

(** C7, at the input where the source departs from it.  In a vector of
    size 10 without ranges, [set_at(3, value)] followed by [unset_at(3)]
    leaves no range, and [is_void(3)] then throws [out_of_range] instead of
    returning true. *)
Theorem C7_unset_then_is_void_throws (value : T) :
  let v := resize sparse_vector_default 10 in
  exists v1,
    set_at v 3 value = Ret v1
    /\ unset_at v1 3 = v
    /\ is_void (unset_at v1 3) 3 = Throw out_of_range.
Proof. eexists. repeat split. Qed.

(** C1, at the input where the source departs from it.  From the empty
    vector, [set_at(0, x)] and [set_at(2, y)] give a valid vector with the
    ranges [0,1) and [2,3); [combine_range(2, {s1, s2}, op, void_value)] then
    leaves the ranges [0,1), [2,3) and [3,4), the last two touching, and
    [is_valid()] returns false. *)
Theorem C1_combine_range_leaves_touching_ranges
        (op : T -> T -> T) (void_value x y s1 s2 : T) :
  exists v1 v2 v3,
    set_at sparse_vector_default 0 x = Ret v1
    /\ set_at v1 2 y = Ret v2
    /\ is_valid v2 = true
    /\ combine_range v2 2 [s1; s2] op void_value = Ret v3
    /\ map (fun r : (datarange_t T) => (offset r, last r)) (ranges v3)
       = [(0, 1); (2, 3); (3, 4)]
    /\ is_valid v3 = false.
Proof. do 3 eexists. repeat split. Qed.

(** C3, at the input where the source departs from it.  On the vector with
    the ranges [0,1) and [2,3), [add_range(2, {s1, s2})] leaves two ranges,
    [0,1) and [2,4), while [combine_range] with the operator that returns
    its second operand leaves three, [0,1), [2,3) and [3,4). *)
Theorem C3_combine_range_differs_from_add_range (void_value x y s1 s2 : T) :
  exists v1 v2 va vc,
    set_at sparse_vector_default 0 x = Ret v1
    /\ set_at v1 2 y = Ret v2
    /\ add_range v2 2 [s1; s2] = Ret va
    /\ combine_range v2 2 [s1; s2] (fun _ b => b) void_value = Ret vc
    /\ ranges va = [DataRange (Range 0 1) [x]; DataRange (Range 2 4) [s1; s2]]
    /\ ranges vc = [DataRange (Range 0 1) [x]; DataRange (Range 2 3) [s1];
                    DataRange (Range 3 4) [s2]]
    /\ nominal_size va = nominal_size vc.
Proof. do 4 eexists. repeat split. Qed.

(** ** Further properties of the operations *)

Lemma get_canonical (gap : Z) (v : sparse_vector T) (k : Z) :
  0 <= gap -> canonical gap v -> get v k = cell_value (cell (ranges v) k).
Proof.
  intros Hg [Hn Hlay]. destruct v as [n rs]. simpl nominal_size in *. simpl ranges in *.
  apply (get_cell gap 0 n); try lia. exact Hlay.
Qed.

Lemma is_void_of_cell (gap : Z) (v : sparse_vector T) (k : Z) (x : T) :
  0 <= gap -> canonical gap v -> cell (ranges v) k = Some x -> is_void v k = Ret false.
Proof.
  intros Hg [Hn Hlay] Hcell.
  pose proof (cell_some_bounds _ _ _ _ _ _ Hg Hlay Hcell) as Hk.
  rewrite (is_void_cell gap 0 (nominal_size v)); try assumption.
  - rewrite Hcell. reflexivity.
  - intros E. rewrite E in Hcell. discriminate.
  - unfold vec_size. lia.
Qed.

Lemma get_same_cell (gap : Z) (v v' : sparse_vector T) (k : Z) :
  0 <= gap -> canonical gap v -> canonical gap v' ->
  cell (ranges v') k = cell (ranges v) k -> get v' k = get v k.
Proof.
  intros Hg Hc Hc' E. rewrite (get_canonical gap v), (get_canonical gap v') by assumption.
  rewrite E. reflexivity.
Qed.

(** X1.  [add_range(offset, first, last)] with a non-empty input on a vector
    in canonical form returns, leaves a vector that [is_valid()] accepts,
    of size [max(size(), offset + n)]; the cells [offset .. offset + n - 1]
    are not void and read as the input, every other cell is as before. *)
Theorem add_range_then_get (v : sparse_vector T) (ofs : Z) (data : list T) :
  canonical 1 v -> data <> [] -> 0 <= ofs -> ofs + vsize data < size_modulus ->
  exists v',
    add_range v ofs data = Ret v'
    /\ canonical 1 v' /\ is_valid v' = true
    /\ vec_size v' = Z.max (vec_size v) (ofs + vsize data)
    /\ (forall i : nat, (i < length data)%nat ->
          get v' (ofs + Z.of_nat i) = nth i data value_zero
          /\ is_void v' (ofs + Z.of_nat i) = Ret false)
    /\ (forall k, k < ofs \/ ofs + vsize data <= k ->
          get v' k = get v k /\ cell (ranges v') k = cell (ranges v) k).
Proof.
  intros Hc Hd Ho Hend.
  destruct (add_range_spec 1 v ofs data) as (v' & E & Hc' & Hs & Hcell);
    try assumption; try lia.
  exists v'. split; [exact E|]. split; [exact Hc'|].
  split; [apply canonical_is_valid; exact Hc'|]. split; [exact Hs|]. split.
  - intros i Hi.
    assert (cell (ranges v') (ofs + Z.of_nat i) = Some (nth i data value_zero)) as Hi'.
    { rewrite Hcell. unfold vsize.
      replace ((ofs <=? ofs + Z.of_nat i) && (ofs + Z.of_nat i <? ofs + Z.of_nat (length data)))
        with true by (symmetry; apply andb_true_iff; rewrite Z.leb_le, Z.ltb_lt; lia).
      do 2 f_equal. lia. }
    split.
    + rewrite (get_canonical 1) by (try assumption; lia). rewrite Hi'. reflexivity.
    + apply (is_void_of_cell 1 v' _ (nth i data value_zero)); try assumption; lia.
  - intros k Hk.
    assert (cell (ranges v') k = cell (ranges v) k) as Hsame.
    { rewrite Hcell.
      replace ((ofs <=? k) && (k <? ofs + vsize data)) with false; [reflexivity|].
      symmetry. apply andb_false_iff. rewrite Z.leb_gt, Z.ltb_ge. lia. }
    split; [|exact Hsame].
    apply (get_same_cell 1); try assumption; lia.
Qed.

(** X2.  [set_at(index, value)] on a vector in canonical form returns and
    leaves a valid vector of size [max(size(), index + 1)], extending the
    vector when the index is beyond its end; afterwards the cell reads as
    [value] and is not void, and every other cell is as before. *)
Theorem set_at_then_get (v : sparse_vector T) (k : Z) (x : T) :
  canonical 1 v -> 0 <= k -> k + 1 < size_modulus ->
  exists v',
    set_at v k x = Ret v'
    /\ canonical 1 v' /\ is_valid v' = true
    /\ vec_size v' = Z.max (vec_size v) (k + 1)
    /\ get v' k = x /\ is_void v' k = Ret false
    /\ (forall j, j <> k -> get v' j = get v j /\ cell (ranges v') j = cell (ranges v) j).
Proof.
  intros Hc Hk Hend.
  destruct (set_at_spec 1 v k x) as (v' & E & Hc' & Hs & Hcell); try assumption; try lia.
  exists v'. split; [exact E|]. split; [exact Hc'|].
  split; [apply canonical_is_valid; exact Hc'|]. split; [exact Hs|].
  assert (cell (ranges v') k = Some x) as Hk'.
  { rewrite Hcell, Z.eqb_refl. reflexivity. }
  split; [|split].
  - rewrite (get_canonical 1) by (try assumption; lia). rewrite Hk'. reflexivity.
  - apply (is_void_of_cell 1 v' k x); try assumption; lia.
  - intros j Hj.
    assert (cell (ranges v') j = cell (ranges v) j) as Hsame.
    { rewrite Hcell. destruct (Z.eqb_spec j k); [contradiction | reflexivity]. }
    split; [|exact Hsame]. apply (get_same_cell 1); try assumption; lia.
Qed.

(** A cell that is void lies in no range found by the search of the
    operations. *)
Lemma void_cell_position (gap lo hi : Z) (rs : list (datarange_t T)) (k : Z) :
  0 <= gap -> laid_out gap lo hi rs -> cell rs k = None ->
  match upper_bound k rs with
  | O => True
  | S p => last (range_at rs p) <= k
  end.
Proof.
  intros Hg Hlay Hcell. pose proof (locate _ _ _ _ k Hg Hlay) as L.
  destruct (upper_bound k rs) as [|p]; [exact I|].
  destruct L as (pre & r & post & -> & -> & Hr & _).
  rewrite range_at_middle.
  rewrite (cell_middle gap lo hi) in Hcell by assumption.
  destruct (includes r k) eqn:Ei; [discriminate|].
  apply includes_false_iff in Ei. lia.
Qed.

(** ** Cutting a range in two *)

Lemma all_in_use_true (rs : list (datarange_t T)) (lo hi : Z) :
  (forall j, lo <= j <= hi -> occupied rs j = true) -> all_in_use rs lo hi = true.
Proof.
  intros H. unfold all_in_use. apply forallb_forall. intros x Hx.
  apply in_map_iff in Hx. destruct Hx as (i & <- & Hi). apply in_seq in Hi.
  apply H. lia.
Qed.

Lemma all_in_use_false (rs : list (datarange_t T)) (lo hi j : Z) :
  lo <= j <= hi -> occupied rs j = false -> all_in_use rs lo hi = false.
Proof.
  intros Hj Hocc. destruct (all_in_use rs lo hi) eqn:E; [|reflexivity].
  unfold all_in_use in E. rewrite forallb_forall in E.
  rewrite <- Hocc. symmetry. apply E. apply in_map_iff.
  exists (Z.to_nat (j - lo)). split; [lia|]. apply in_seq. lia.
Qed.

(** Next to a range of a layout, a cell is in use exactly when the range
    includes it. *)
Lemma occupied_middle (gap lo hi : Z) (pre post : list (datarange_t T)) (r : datarange_t T)
      (k : Z) :
  0 <= gap -> laid_out gap lo hi (pre ++ r :: post) ->
  offset r - gap <= k < last r + gap ->
  occupied (pre ++ r :: post) k = includes r k.
Proof.
  intros Hg Hlay Hk. unfold occupied. rewrite (cell_middle gap lo hi) by assumption.
  destruct (includes r k); [reflexivity|].
  destruct (laid_out_split gap _ _ _ _ _ Hg Hlay) as (Lpre & _ & _ & _ & _ & Lpost).
  rewrite (cell_none_above _ _ _ _ k Lpre) by lia.
  rewrite (cell_none_below _ _ _ _ k Hg Lpost) by lia. reflexivity.
Qed.

(** [unset_at] cuts a range in two exactly when the cell and both its
    neighbours are in use; this is where the capacity of [ranges] matters. *)
Lemma unset_at_with_capacity_spec (ranges_capacity : nat) (v : sparse_vector T) (k : Z) :
  canonical 1 v -> 0 <= k ->
  unset_at_with_capacity ranges_capacity v k =
    if all_in_use (ranges v) (k - 1) (k + 1) && (ranges_capacity <=? length (ranges v))%nat
    then Undefined else Ret (unset_at v k).
Proof.
  intros [Hn Hlay] Hk. destruct v as [n rs]. cbn [nominal_size ranges] in *.
  unfold unset_at_with_capacity, unset_at, find_next_range_iter. cbn [nominal_size ranges].
  pose proof (locate 1 0 _ _ k ltac:(lia) Hlay) as L.
  destruct (upper_bound k rs) as [|q].
  - destruct L as [Hnone _].
    rewrite (all_in_use_false rs (k - 1) (k + 1) k);
      [reflexivity | lia | unfold occupied; rewrite Hnone; reflexivity].
  - destruct L as (pre & r & post & -> & -> & Hr & Hnx & Hpre & Hpost).
    rewrite range_at_middle.
    destruct (laid_out_split 1 _ _ _ _ _ ltac:(lia) Hlay) as (Lpre & A & B & C & D & Lpost).
    assert (forall j, offset r - 1 <= j < last r + 1 ->
                      occupied (pre ++ r :: post) j = includes r j) as Hocc.
    { intros j Hj. apply (occupied_middle 1 0 n); try assumption; lia. }
    unfold end_index, begin_index, size.
    destruct (Z.leb_spec (last r) k) as [Hout|Hin].
    { rewrite (all_in_use_false _ (k - 1) (k + 1) k); [reflexivity | lia |].
      unfold occupied. rewrite (cell_middle 1 0 n) by (try assumption; lia).
      replace (includes r k) with false by (symmetry; apply includes_false_iff; lia).
      rewrite Hpre, Hpost. reflexivity. }
    rewrite (wrap_small (last r - offset r)) by lia.
    destruct (Z.eqb_spec (last r - offset r) 1) as [H1|H1].
    { rewrite (all_in_use_false _ (k - 1) (k + 1) (k - 1)); [reflexivity | lia |].
      rewrite Hocc by lia. apply includes_false_iff. lia. }
    destruct (Z.eqb_spec k (offset r)) as [H2|H2].
    { rewrite (all_in_use_false _ (k - 1) (k + 1) (k - 1)); [reflexivity | lia |].
      rewrite Hocc by lia. apply includes_false_iff. lia. }
    rewrite (wrap_small (last r - 1)) by lia.
    destruct (Z.eqb_spec k (last r - 1)) as [H3|H3].
    { rewrite (all_in_use_false _ (k - 1) (k + 1) (k + 1)); [reflexivity | lia |].
      rewrite Hocc by lia. apply includes_false_iff. lia. }
    replace (k <? last r) with true by (symmetry; apply Z.ltb_lt; lia).
    rewrite all_in_use_true.
    2:{ intros j Hj. rewrite Hocc by lia. apply includes_iff. lia. }
    destruct (ranges_capacity <=? length (pre ++ r :: post))%nat; reflexivity.
Qed.

(** X3.  [unset_at(index)] on a vector in canonical form.  When the cell
    and both its neighbours are in use, a range is cut in two with
    [ranges.emplace]; if [ranges] is filled to its capacity, the call then
    resizes the left part through a reference into the buffer that
    [emplace] has left, which is undefined.  In every other case the call
    returns a valid vector of the same size in which the cell is void and
    reads as zero, every other cell being as before; on a cell that is
    void already the vector is not changed at all. *)
Theorem unset_at_makes_void (ranges_capacity : nat) (v : sparse_vector T) (k : Z) :
  canonical 1 v -> 0 <= k ->
  if all_in_use (ranges v) (k - 1) (k + 1) && (ranges_capacity <=? length (ranges v))%nat
  then unset_at_with_capacity ranges_capacity v k = Undefined
  else exists v',
      unset_at_with_capacity ranges_capacity v k = Ret v'
      /\ canonical 1 v' /\ is_valid v' = true
      /\ vec_size v' = vec_size v
      /\ cell (ranges v') k = None
      /\ get v' k = value_zero
      /\ (forall j, j <> k ->
            get v' j = get v j /\ cell (ranges v') j = cell (ranges v) j)
      /\ (cell (ranges v) k = None -> v' = v).
Proof.
  intros Hc Hk. rewrite (unset_at_with_capacity_spec ranges_capacity v k Hc Hk).
  destruct (all_in_use (ranges v) (k - 1) (k + 1)
            && (ranges_capacity <=? length (ranges v))%nat); [reflexivity|].
  exists (unset_at v k). split; [reflexivity|].
  destruct (unset_at_spec 1 v k) as (Hc' & Hs & Hcell); try assumption; try lia.
  split; [exact Hc'|]. split; [apply canonical_is_valid; exact Hc'|].
  split; [exact Hs|].
  assert (cell (ranges (unset_at v k)) k = None) as Hk'.
  { rewrite Hcell, Z.eqb_refl. reflexivity. }
  split; [exact Hk'|]. split; [|split].
  - rewrite (get_canonical 1) by (try assumption; lia). rewrite Hk'. reflexivity.
  - intros j Hj.
    assert (cell (ranges (unset_at v k)) j = cell (ranges v) j) as Hsame.
    { rewrite Hcell. destruct (Z.eqb_spec j k); [contradiction | reflexivity]. }
    split; [|exact Hsame]. apply (get_same_cell 1); try assumption; lia.
  - intros Hvoid. destruct Hc as [Hn Hlay].
    pose proof (void_cell_position 1 0 _ _ k ltac:(lia) Hlay Hvoid) as Hp.
    unfold unset_at, find_next_range_iter.
    destruct (upper_bound k (ranges v)) as [|p]; [reflexivity|].
    unfold end_index. replace (last (range_at (ranges v) p) <=? k) with true
      by (symmetry; apply Z.leb_le; exact Hp).
    reflexivity.
Qed.

(** X4.  [append(first, last)] with a non-empty input on a vector in
    canonical form returns a valid vector longer by the length of the
    input, whose new cells read as the input and whose old cells are as
    before. *)
Theorem append_then_get (v : sparse_vector T) (data : list T) :
  canonical 1 v -> data <> [] -> vec_size v + vsize data < size_modulus ->
  exists v',
    append v data = Ret v'
    /\ canonical 1 v' /\ is_valid v' = true
    /\ vec_size v' = vec_size v + vsize data
    /\ back_is_void v' = false
    /\ (forall i : nat, (i < length data)%nat ->
          get v' (vec_size v + Z.of_nat i) = nth i data value_zero)
    /\ (forall k, k < vec_size v -> get v' k = get v k).
Proof.
  intros Hc Hd Hend. pose proof Hc as [Hn Hlay]. unfold append.
  destruct (add_range_spec 1 v (vec_size v) data) as (v' & E & Hc' & Hs & Hin);
    try assumption; try lia; [unfold vec_size; lia|].
  exists v'. pose proof (vsize_nonneg data) as Hpos.
  assert (0 < vsize data) as Hpos'.
  { unfold vsize. destruct data; [contradiction | simpl; lia]. }
  split; [exact E|]. split; [exact Hc'|]. split; [apply canonical_is_valid; exact Hc'|].
  split; [unfold vec_size in *; lia|]. split; [|split].
  - (* the last cell is the last element of the input *)
    destruct Hc' as [Hn' Hlay'].
    assert (cell (ranges v') (nominal_size v' - 1) <> None) as Hlast.
    { rewrite Hin. unfold vec_size in *.
      replace ((nominal_size v <=? nominal_size v' - 1)
               && (nominal_size v' - 1 <? nominal_size v + vsize data))
        with true by (symmetry; apply andb_true_iff; rewrite Z.leb_le, Z.ltb_lt; lia).
      discriminate. }
    unfold back_is_void, vec_size.
    destruct (ranges v') as [|r0 rs0] eqn:Ers; [contradiction Hlast; reflexivity|].
    rewrite <- Ers in *. apply Z.ltb_ge.
    destruct (cell (ranges v') (nominal_size v' - 1)) as [y|] eqn:Ecell; [|contradiction].
    destruct (cell_some_In _ _ _ Ecell) as (r & Hr & Hinc & _).
    apply includes_iff in Hinc.
    pose proof (laid_out_back 1 _ _ _ _ ltac:(lia) Hlay' Hr) as Hb.
    unfold end_index. lia.
  - intros i Hi. rewrite (get_canonical 1) by (try assumption; lia).
    rewrite Hin. unfold vsize.
    replace ((vec_size v <=? vec_size v + Z.of_nat i)
             && (vec_size v + Z.of_nat i <? vec_size v + Z.of_nat (length data)))
      with true by (symmetry; apply andb_true_iff; rewrite Z.leb_le, Z.ltb_lt; lia).
    simpl. f_equal. lia.
  - intros k Hk. apply (get_same_cell 1); try assumption; try lia.
    rewrite Hin.
    replace ((vec_size v <=? k) && (k <? vec_size v + vsize data)) with false;
      [reflexivity|].
    symmetry. apply andb_false_iff. rewrite Z.leb_gt. lia.
Qed.

(** The cells of a list of ranges, read from the front. *)
Lemma cell_snoc (pre : list (datarange_t T)) (r : datarange_t T) (post : list (datarange_t T))
      (k : Z) :
  cell (pre ++ r :: post) k =
    match cell pre k with
    | Some x => Some x
    | None => if includes r k then Some (peek r k) else cell post k
    end.
Proof. rewrite cell_app. reflexivity. Qed.

Lemma cell_none_before (gap lo hi : Z) (rs : list (datarange_t T)) (k : Z) :
  0 <= gap -> laid_out gap lo hi rs ->
  match rs with [] => True | nx :: _ => k < offset nx end -> cell rs k = None.
Proof.
  intros Hg Hlay Hk. destruct rs as [|nx tl]; [reflexivity|].
  apply (cell_none_below gap (offset nx) hi); try assumption.
  apply (laid_out_rebase gap lo). exact Hlay.
Qed.

(** [resize(new_size)]: the cells below the new size are kept, there are
    none from it on. *)
Lemma resize_cells (gap : Z) (v : sparse_vector T) (new_size : Z) :
  0 <= gap <= 1 -> canonical gap v -> 0 <= new_size < size_modulus ->
  forall k, cell (ranges (resize v new_size)) k =
              if k <? new_size then cell (ranges v) k else None.
Proof.
  intros Hg Hc Hnew k.
  destruct (resize_canonical gap v new_size Hg Hc Hnew) as [[_ Hlay'] Hs'].
  rewrite Hs' in Hlay'.
  destruct (Z.ltb_spec k new_size) as [Hk|Hk].
  2:{ apply (cell_none_above gap 0 new_size); assumption. }
  clear Hlay' Hs'. destruct Hc as [Hn Hlay]. destruct v as [n rs]. unfold resize, vec_size.
  simpl nominal_size in *. simpl ranges in *.
  destruct (Z.leb_spec n new_size) as [Hgrow|Hcut]; [reflexivity|].
  unfold find_next_range_iter, vec_erase_range. simpl ranges. simpl nominal_size.
  rewrite (skipn_all2 (n := Nat.max _ _)) by lia. rewrite app_nil_r.
  pose proof (locate _ _ _ _ new_size (proj1 Hg) Hlay) as L.
  destruct (upper_bound new_size rs) as [|q].
  { simpl. symmetry. destruct L as [_ L].
    apply (cell_none_before gap 0 n); try assumption; try lia.
    destruct rs; [exact I | lia]. }
  destruct L as (pre & r & post & -> & -> & Hr & Hnx & _).
  destruct (laid_out_split _ _ _ _ _ _ (proj1 Hg) Hlay) as (Lpre & A & B & C & D & Lpost).
  assert (cell post k = None) as Hpost.
  { apply (cell_none_before gap (last r + gap) n); try assumption; try lia.
    destruct post; [exact I | lia]. }
  rewrite firstn_snoc.
  destruct (pre ++ [r]) as [|x l] eqn:El; [destruct pre; discriminate|]. rewrite <- El.
  replace (Nat.pred (length (pre ++ [r]))) with (length pre)
    by (rewrite length_app; simpl; lia).
  rewrite range_at_middle. unfold begin_index, end_index.
  rewrite (cell_snoc pre r post), Hpost.
  destruct (Z.eqb_spec new_size (offset r)) as [Heq|Hneq].
  { rewrite vec_erase_middle, app_nil_r. simpl ranges.
    destruct (cell pre k); [reflexivity|].
    replace (includes r k) with false; [reflexivity|].
    symmetry. apply includes_false_iff. lia. }
  destruct (Z.ltb_spec new_size (last r)) as [Hin|Hout].
  - rewrite vec_update_middle. simpl ranges.
    change (datarange_resize r (wrap (new_size - offset r)) value_zero)
      with (move_tail r new_size value_zero).
    rewrite move_tail_spec by (try assumption; lia).
    rewrite cell_snoc. destruct (cell pre k); [reflexivity|]. simpl cell.
    unfold includes at 1. simpl offset. simpl last.
    destruct (Z.leb_spec (offset r) k) as [Hge|Hlt].
    + replace (k <? new_size) with true by (symmetry; apply Z.ltb_lt; lia).
      replace (includes r k) with true by (symmetry; apply includes_iff; lia).
      simpl. rewrite peek_tail_cut by lia. reflexivity.
    + replace (includes r k) with false by (symmetry; apply includes_false_iff; lia).
      reflexivity.
  - simpl ranges. rewrite cell_snoc. reflexivity.
Qed.

(** X5.  [resize(new_size)] leaves a valid vector of the new size: the
    cells below the new size are as before, and there is no cell from the
    new size on, so that shrinking discards data and growing adds void. *)
Theorem resize_keeps_lower_cells (v : sparse_vector T) (new_size : Z) :
  canonical 1 v -> 0 <= new_size < size_modulus ->
  canonical 1 (resize v new_size) /\ is_valid (resize v new_size) = true
  /\ vec_size (resize v new_size) = new_size
  /\ (forall k, cell (ranges (resize v new_size)) k =
                  if k <? new_size then cell (ranges v) k else None)
  /\ (forall k, get (resize v new_size) k =
                  if k <? new_size then get v k else value_zero).
Proof.
  intros Hc Hnew.
  destruct (resize_canonical 1 v new_size) as [Hc' Hs]; try assumption; try lia.
  pose proof (resize_cells 1 v new_size ltac:(lia) Hc Hnew) as Hcell.
  split; [exact Hc'|]. split; [apply canonical_is_valid; exact Hc'|].
  split; [exact Hs|]. split; [exact Hcell|].
  intros k. rewrite (get_canonical 1 (resize v new_size)) by (try assumption; lia).
  rewrite Hcell. destruct (k <? new_size); [|reflexivity].
  rewrite (get_canonical 1 v) by (try assumption; lia). reflexivity.
Qed.

(** [resize(new_size, def_value)]: the cells added hold [def_value]. *)
Lemma resize_fill_cells (gap : Z) (v : sparse_vector T) (new_size : Z) (d : T) :
  0 <= gap <= 1 -> canonical gap v -> 0 <= new_size < size_modulus ->
  exists v',
    resize_fill v new_size d = Ret v' /\ canonical gap v'
    /\ nominal_size v' = new_size
    /\ forall k, cell (ranges v') k =
                   if (nominal_size v <=? k) && (k <? new_size) then Some d
                   else if k <? new_size then cell (ranges v) k else None.
Proof.
  intros Hg Hc Hnew.
  destruct (resize_fill_canonical gap v new_size d Hg Hc Hnew) as (v' & E & Hc' & Hs').
  exists v'. split; [exact E|]. split; [exact Hc'|]. split; [exact Hs'|].
  intros k. pose proof Hc as [Hn Hlay]. pose proof Hc' as [Hn' Hlay'].
  destruct (Z.ltb_spec k new_size) as [Hk|Hk].
  2:{ rewrite andb_false_r. apply (cell_none_above gap 0 new_size); try assumption.
      rewrite <- Hs'. exact Hlay'. }
  rewrite andb_true_r.
  revert E. unfold resize_fill, vec_size.
  destruct (Z.eqb_spec new_size (nominal_size v)) as [Heq|Hneq].
  { intros [= <-]. replace (nominal_size v <=? k) with false; [reflexivity|].
    symmetry. apply Z.leb_gt. lia. }
  destruct (Z.ltb_spec (nominal_size v) new_size) as [Hgrow|Hcut].
  2:{ intros [= <-]. rewrite (resize_cells gap) by assumption.
      replace (k <? new_size) with true by (symmetry; apply Z.ltb_lt; lia).
      replace (nominal_size v <=? k) with false; [reflexivity|].
      symmetry. apply Z.leb_gt. lia. }
  assert (forall v'' : sparse_vector T,
             append v (repeat d (Z.to_nat (wrap (new_size - nominal_size v)))) = Ret v'' ->
             cell (ranges v'') k =
               if nominal_size v <=? k then Some d else cell (ranges v) k) as Happend.
  { intros v'' E''. unfold append, vec_size in E''. rewrite wrap_small in E'' by lia.
    destruct (add_range_spec gap v (nominal_size v)
                (repeat d (Z.to_nat (new_size - nominal_size v))))
      as (w & Ew & _ & _ & Hcell); try assumption; try lia.
    - destruct (Z.to_nat (new_size - nominal_size v)) eqn:Ez; [lia | discriminate].
    - unfold vsize. rewrite repeat_length. lia.
    - rewrite Ew in E''. injection E'' as <-. rewrite Hcell. unfold vsize.
      rewrite repeat_length.
      destruct (Z.leb_spec (nominal_size v) k) as [Hge|Hlt]; [|reflexivity].
      replace (k <? nominal_size v + Z.of_nat (Z.to_nat (new_size - nominal_size v)))
        with true by (symmetry; apply Z.ltb_lt; lia).
      simpl. f_equal. apply nth_repeat_lt. lia. }
  unfold back_is_void, vec_size.
  destruct (ranges v) as [|r0 rs0] eqn:Ers.
  - destruct (append v (repeat d (Z.to_nat (wrap (new_size - nominal_size v)))))
      as [v''| |] eqn:E''; simpl bind; try discriminate.
    intros [= <-]. simpl ranges. rewrite (Happend v'' eq_refl). reflexivity.
  - rewrite <- Ers in *.
    destruct (exists_last (l := ranges v)) as (pre & r & E); [rewrite Ers; discriminate|].
    rewrite E in *. rewrite back_snoc. unfold end_index, begin_index.
    replace (pre ++ [r]) with (pre ++ r :: []) in * by reflexivity.
    destruct (laid_out_split _ _ _ _ _ _ (proj1 Hg) Hlay) as (Lpre & A & B & C & D & _).
    destruct (Z.ltb_spec (last r) (nominal_size v)) as [Hvoid|Hfull].
    + destruct (append v (repeat d (Z.to_nat (wrap (new_size - nominal_size v)))))
        as [v''| |] eqn:E''; simpl bind; try discriminate.
      intros [= <-]. simpl ranges. rewrite (Happend v'' eq_refl). reflexivity.
    + replace (Nat.pred (length (pre ++ [r]))) with (length pre)
        by (rewrite length_app; simpl; lia).
      rewrite vec_update_middle. intros [= <-]. simpl ranges.
      rewrite datarange_resize_grow by (try assumption; lia).
      rewrite !cell_snoc. simpl cell.
      assert (cell pre k = None \/ k < offset r) as Hpre.
      { destruct (Z.ltb_spec k (offset r)); [right; assumption | left].
        apply (cell_none_above gap 0 (offset r - gap)); [exact Lpre | lia]. }
      unfold range_ok, vsize in D.
      destruct (Z.leb_spec (nominal_size v) k) as [Hge|Hlt].
      * destruct Hpre as [-> | ?]; [|lia].
        unfold includes. simpl offset. simpl last.
        replace ((offset r <=? k) && (k <? new_size)) with true
          by (symmetry; apply andb_true_iff; rewrite Z.leb_le, Z.ltb_lt; lia).
        f_equal. unfold peek. simpl values. simpl offset.
        rewrite app_nth2 by lia. apply nth_repeat_lt. lia.
      * destruct (cell pre k); [reflexivity|].
        unfold includes. simpl offset. simpl last.
        replace (k <? new_size) with true by (symmetry; apply Z.ltb_lt; lia).
        replace (k <? last r) with true by (symmetry; apply Z.ltb_lt; lia).
        destruct (offset r <=? k) eqn:Eo; [|reflexivity]. simpl.
        apply Z.leb_le in Eo. f_equal. unfold peek. simpl values. simpl offset.
        apply app_nth1. lia.
Qed.

(** X6.  [resize(new_size, def_value)] returns a valid vector of the new
    size; when the vector grows the cells added are not void and hold
    [def_value], the cells below the new size are otherwise as before, and
    there is no cell from the new size on. *)
Theorem resize_with_value_fills (v : sparse_vector T) (new_size : Z) (def_value : T) :
  canonical 1 v -> 0 <= new_size < size_modulus ->
  exists v',
    resize_fill v new_size def_value = Ret v'
    /\ canonical 1 v' /\ is_valid v' = true
    /\ vec_size v' = new_size
    /\ (forall k, vec_size v <= k < new_size ->
          get v' k = def_value /\ is_void v' k = Ret false)
    /\ (forall k, k < vec_size v -> k < new_size ->
          get v' k = get v k /\ cell (ranges v') k = cell (ranges v) k)
    /\ (forall k, new_size <= k -> cell (ranges v') k = None).
Proof.
  intros Hc Hnew.
  destruct (resize_fill_cells 1 v new_size def_value) as (v' & E & Hc' & Hs & Hcell);
    try assumption; try lia.
  exists v'. split; [exact E|]. split; [exact Hc'|].
  split; [apply canonical_is_valid; exact Hc'|]. split; [exact Hs|].
  unfold vec_size. split; [|split].
  - intros k Hk.
    assert (cell (ranges v') k = Some def_value) as Hk'.
    { rewrite Hcell.
      replace ((nominal_size v <=? k) && (k <? new_size)) with true; [reflexivity|].
      symmetry. apply andb_true_iff. rewrite Z.leb_le, Z.ltb_lt. lia. }
    split.
    + rewrite (get_canonical 1) by (try assumption; lia). rewrite Hk'. reflexivity.
    + apply (is_void_of_cell 1 v' k def_value); try assumption; lia.
  - intros k Hk Hk2.
    assert (cell (ranges v') k = cell (ranges v) k) as Hsame.
    { rewrite Hcell.
      replace (nominal_size v <=? k) with false by (symmetry; apply Z.leb_gt; lia).
      replace (k <? new_size) with true by (symmetry; apply Z.ltb_lt; lia).
      reflexivity. }
    split; [|exact Hsame]. apply (get_same_cell 1); try assumption; lia.
  - intros k Hk. rewrite Hcell.
    replace (k <? new_size) with false by (symmetry; apply Z.ltb_ge; lia).
    rewrite andb_false_r. reflexivity.
Qed.

(** [push_back(value)]: one cell more, holding the value. *)
Lemma push_back_cells (gap : Z) (v : sparse_vector T) (value : T) :
  0 <= gap <= 1 -> canonical gap v -> nominal_size v + 1 < size_modulus ->
  exists v',
    push_back v value = Ret v' /\ canonical gap v'
    /\ nominal_size v' = nominal_size v + 1
    /\ forall k, cell (ranges v') k =
                   if k =? nominal_size v then Some value else cell (ranges v) k.
Proof.
  intros Hg Hc Hend. pose proof Hc as [Hn Hlay]. unfold push_back, vec_size in *.
  rewrite wrap_small by lia.
  destruct (resize_fill_cells gap v (nominal_size v + 1) value)
    as (v' & E & Hc' & Hs & Hcell); try assumption; try lia.
  exists v'. split; [exact E|]. split; [exact Hc'|]. split; [exact Hs|].
  intros k. rewrite Hcell.
  destruct (Z.eqb_spec k (nominal_size v)) as [->|Hk].
  - replace ((nominal_size v <=? nominal_size v) && (nominal_size v <? nominal_size v + 1))
      with true; [reflexivity|].
    symmetry. apply andb_true_iff. rewrite Z.leb_le, Z.ltb_lt. lia.
  - destruct (Z.ltb_spec k (nominal_size v)) as [Hlt|Hge].
    + replace (nominal_size v <=? k) with false by (symmetry; apply Z.leb_gt; lia).
      replace (k <? nominal_size v + 1) with true by (symmetry; apply Z.ltb_lt; lia).
      reflexivity.
    + replace (k <? nominal_size v + 1) with false by (symmetry; apply Z.ltb_ge; lia).
      rewrite andb_false_r. symmetry.
      apply (cell_none_above gap 0 (nominal_size v)); [exact Hlay | lia].
Qed.

(** X7.  [push_back(value)] on a vector in canonical form that can still
    grow returns a valid vector one cell longer, whose last cell holds
    [value] and is not void, even when [value] is zero; the other cells
    are as before. *)
Theorem push_back_then_get (v : sparse_vector T) (value : T) :
  canonical 1 v -> vec_size v + 1 < size_modulus ->
  exists v',
    push_back v value = Ret v'
    /\ canonical 1 v' /\ is_valid v' = true
    /\ vec_size v' = vec_size v + 1
    /\ get v' (vec_size v) = value
    /\ is_void v' (vec_size v) = Ret false
    /\ (forall k, k <> vec_size v -> get v' k = get v k).
Proof.
  intros Hc Hend. unfold vec_size in *.
  destruct (push_back_cells 1 v value) as (v' & E & Hc' & Hs & Hcell);
    try assumption; try lia.
  exists v'. split; [exact E|]. split; [exact Hc'|].
  split; [apply canonical_is_valid; exact Hc'|]. split; [exact Hs|].
  assert (cell (ranges v') (nominal_size v) = Some value) as Hk'.
  { rewrite Hcell, Z.eqb_refl. reflexivity. }
  split; [|split].
  - rewrite (get_canonical 1) by (try assumption; lia). rewrite Hk'. reflexivity.
  - apply (is_void_of_cell 1 v' _ value); try assumption; lia.
  - intros k Hk. apply (get_same_cell 1); try assumption; try lia.
    rewrite Hcell. destruct (Z.eqb_spec k (nominal_size v)); [contradiction | reflexivity].
Qed.


(** ** Empty input *)

(** In canonical form a range borders no range that follows it, so that
    the merge started from it changes nothing. *)
Lemma merge_loop_separate (hi : Z) (r : datarange_t T) (post : list (datarange_t T)) :
  laid_out 1 (last r + 1) hi post -> merge_loop r post = (r, post).
Proof.
  intros Hpost. destruct post as [|nx tl]; [reflexivity|].
  simpl in Hpost. destruct Hpost as (A & _). simpl.
  replace (borders r (begin_index nx)) with false; [reflexivity|].
  symmetry. apply borders_false_iff. unfold begin_index. lia.
Qed.

Lemma merge_ranges_nothing (v : sparse_vector T) (pre post : list (datarange_t T))
      (r : datarange_t T) :
  canonical 1 v -> ranges v = pre ++ r :: post ->
  merge_ranges v (length pre) = Ret v.
Proof.
  intros [Hn Hlay] E. destruct v as [n rs]. simpl nominal_size in *. simpl ranges in *.
  subst rs. rewrite merge_ranges_middle.
  destruct (laid_out_split 1 _ _ _ _ _ ltac:(lia) Hlay) as (_ & _ & _ & _ & _ & Lpost).
  rewrite (merge_loop_separate n r post Lpost). simpl fst. simpl snd.
  rewrite fix_size_spec. f_equal. f_equal.
  destruct (pre ++ r :: post) as [|x l] eqn:El; [reflexivity|]. rewrite <- El in *.
  assert (In (back (pre ++ r :: post)) (pre ++ r :: post)) as Hin
      by (rewrite El; apply In_back).
  pose proof (laid_out_In 1 _ _ _ _ ltac:(lia) Hlay Hin). lia.
Qed.

Lemma extend_nothing (r : datarange_t T) (idx : Z) :
  range_ok r -> 0 <= offset r -> offset r <= idx <= last r -> last r < size_modulus ->
  extend r idx [] = r.
Proof.
  intros Hok Ho Hidx Hl.
  rewrite extend_spec by (try assumption; unfold vsize; simpl; lia).
  unfold vsize, copy_into. simpl length. simpl app.
  rewrite Nat.add_0_r, firstn_skipn.
  destruct r as [[o l] vals]. simpl in *. f_equal. f_equal. lia.
Qed.

Lemma existsb_ends_before (rs : list (datarange_t T)) (k x : Z) :
  Forall (fun r : datarange_t T => last r <= k) rs -> k < x ->
  existsb (fun r : datarange_t T => x <=? last r) rs = false.
Proof.
  intros Hall Hx. induction Hall as [|r rs Hr _ IH]; [reflexivity|].
  simpl. rewrite IH, orb_false_r. apply Z.leb_gt. lia.
Qed.

(** X9.  [add_range] and [append] with an empty input.  On a vector in
    canonical form [add_range(offset, first, first)] leaves the vector as it
    is when some range ends at or after [offset]; when every range ends
    before [offset], and when there is no range, the merge is started from
    [ranges.end()] and the behaviour is undefined.  Hence appending nothing
    is undefined exactly when the vector ends with void. *)
Theorem add_range_of_nothing (v : sparse_vector T) (ofs : Z) :
  canonical 1 v -> 0 <= ofs < size_modulus ->
  add_range v ofs []
  = (if existsb (fun r : datarange_t T => ofs <=? last r) (ranges v)
     then Ret v else Undefined)
  /\ append v [] = (if back_is_void v then Undefined else Ret v).
Proof.
  intros Hc Hofs.
  assert (forall o, 0 <= o < size_modulus ->
            add_range v o []
            = (if existsb (fun r : datarange_t T => o <=? last r) (ranges v)
               then Ret v else Undefined)) as Hadd.
  { clear ofs Hofs. intros ofs Hofs. pose proof Hc as [Hn Hlay].
    assert (empty (datarange_ctor ofs ([] : list T)) = true) as Hempty.
    { unfold empty, datarange_ctor, range_ctor, vsize. simpl.
      rewrite Z.add_0_r, wrap_small by lia. apply Z.leb_le. lia. }
    unfold add_range, insert_range, find_next_range_iter. rewrite Hempty.
    pose proof (locate 1 _ _ _ ofs ltac:(lia) Hlay) as L.
    destruct (upper_bound ofs (ranges v)) as [|q].
    - simpl andb. cbv iota. destruct L as [_ L].
      destruct (ranges v) as [|nx tl] eqn:Ers.
      + unfold merge_ranges. simpl. reflexivity.
      + simpl existsb.
        pose proof (laid_out_In 1 _ _ _ nx ltac:(lia) Hlay (or_introl eq_refl)) as Hnx.
        replace (ofs <=? last nx) with true by (symmetry; apply Z.leb_le; lia).
        simpl orb. cbv iota.
        replace (SparseVector (nominal_size v) (nx :: tl)) with v
          by (destruct v; simpl in *; subst; reflexivity).
        apply (merge_ranges_nothing v [] tl nx Hc Ers).
    - destruct L as (pre & r & post & E & -> & Hr & Hpost & _).
      rewrite E in *. simpl Nat.pred. simpl negb. simpl andb.
      rewrite range_at_middle.
      destruct (laid_out_split 1 _ _ _ _ _ ltac:(lia) Hlay) as (Lpre & A & B & C & D & Lpost).
      assert (existsb (fun r0 : datarange_t T => ofs <=? last r0) pre = false) as Hpre.
      { apply existsb_ends_before with (k := offset r - 1); [|lia].
        apply (laid_out_ends 1 0); [lia | exact Lpre]. }
      rewrite existsb_app, Hpre. simpl orb. simpl existsb.
      destruct (borders r ofs) eqn:Eb.
      + apply borders_iff in Eb.
        replace (ofs <=? last r) with true by (symmetry; apply Z.leb_le; lia).
        simpl orb. cbv iota.
        rewrite extend_nothing by (try assumption; lia).
        rewrite vec_update_middle.
        replace (SparseVector (nominal_size v) (pre ++ r :: post)) with v
          by (destruct v; simpl in *; subst; reflexivity).
        apply (merge_ranges_nothing v pre post r Hc E).
      + apply borders_false_iff in Eb.
        replace (ofs <=? last r) with false by (symmetry; apply Z.leb_gt; lia).
        simpl orb.
        replace (SparseVector (nominal_size v) (pre ++ r :: post)) with v
          by (destruct v; simpl in *; subst; reflexivity).
        destruct post as [|nx tl].
        * simpl existsb. unfold merge_ranges. rewrite E.
          replace (S (length pre)) with (length (pre ++ [r]))
            by (rewrite length_app; simpl; lia).
          rewrite skipn_all. reflexivity.
        * simpl existsb. simpl in Lpost.
          replace (ofs <=? last nx) with true by (symmetry; apply Z.leb_le; lia).
          simpl orb. cbv iota.
          replace (S (length pre)) with (length (pre ++ [r]))
            by (rewrite length_app; simpl; lia).
          apply (merge_ranges_nothing v (pre ++ [r]) tl nx Hc).
          rewrite E, <- app_assoc. reflexivity. }
  split; [apply Hadd; exact Hofs|].
  pose proof Hc as [Hn Hlay]. unfold append. rewrite Hadd by (unfold vec_size; lia).
  unfold back_is_void, vec_size.
  destruct (ranges v) as [|r0 rs0] eqn:Ers; [reflexivity|]. rewrite <- Ers in *.
  destruct (exists_last (l := ranges v)) as (pre & r & E); [rewrite Ers; discriminate|].
  rewrite E in *. rewrite back_snoc. unfold end_index.
  replace (pre ++ [r]) with (pre ++ r :: []) in * by reflexivity.
  destruct (laid_out_split 1 _ _ _ _ _ ltac:(lia) Hlay) as (Lpre & A & B & C & D & _).
  rewrite existsb_app. simpl existsb. rewrite orb_false_r.
  rewrite (existsb_ends_before pre (offset r - 1) (nominal_size v));
    [|apply (laid_out_ends 1 0); [lia | exact Lpre] | lia].
  simpl orb.
  destruct (Z.ltb_spec (last r) (nominal_size v)) as [Hlt|Hge].
  - replace (nominal_size v <=? last r) with false by (symmetry; apply Z.leb_gt; lia).
    reflexivity.
  - replace (nominal_size v <=? last r) with true by (symmetry; apply Z.leb_le; lia).
    reflexivity.
Qed.

(** ** [assign] and the constructors *)

(** The vector that holds the data [data] from [ofs] on and nothing else. *)
Lemma solid_vector_get (ofs : Z) (data : list T) (i : nat) :
  0 <= ofs -> ofs + vsize data < size_modulus ->
  get (SparseVector (ofs + vsize data) [DataRange (Range ofs (ofs + vsize data)) data])
      (ofs + Z.of_nat i)
  = nth i data value_zero.
Proof.
  intros Ho Hend. unfold get, find_next_range_iter, vsize in *. simpl.
  unfold less_int_range. simpl offset.
  replace (ofs + Z.of_nat i <? ofs) with false by (symmetry; apply Z.ltb_ge; lia).
  unfold range_at. simpl nth. unfold end_index. simpl last.
  destruct (Z.ltb_spec (ofs + Z.of_nat i) (ofs + Z.of_nat (length data))) as [Hlt|Hge].
  - unfold datarange_get, relative_index. simpl.
    rewrite wrap_small by lia. f_equal. lia.
  - symmetry. apply nth_overflow. lia.
Qed.

Lemma add_range_to_nothing (n : Z) (ofs : Z) (data : list T) :
  data <> [] -> 0 <= ofs -> ofs + vsize data < size_modulus ->
  add_range (SparseVector n []) ofs data
  = Ret (SparseVector (Z.max n (ofs + vsize data))
                      [DataRange (Range ofs (ofs + vsize data)) data]).
Proof.
  intros Hd Ho Hend. unfold add_range, insert_range, find_next_range_iter.
  rewrite datarange_ctor_spec by assumption.
  assert (0 < vsize data) as Hpos.
  { unfold vsize. destruct data; [contradiction | simpl; lia]. }
  unfold empty. simpl.
  replace (ofs + vsize data <=? ofs) with false by (symmetry; apply Z.leb_gt; lia).
  unfold merge_ranges, vec_insert. simpl. reflexivity.
Qed.

(** X10.  [assign(new_data)] discards the previous content, whatever it
    was: for a non-empty input the result is the vector with the single
    range [0, n) holding the input, every index reading as the input
    element; for an empty input, [append] is called on the cleared vector
    and the behaviour is undefined. *)
Theorem assign_replaces_the_content (v : sparse_vector T) (new_data : list T) :
  vsize new_data < size_modulus ->
  match new_data with
  | [] => vec_assign v new_data = Undefined
  | _ =>
      exists v',
        vec_assign v new_data = Ret v'
        /\ vec_size v' = vsize new_data
        /\ ranges v' = [DataRange (Range 0 (vsize new_data)) new_data]
        /\ is_valid v' = true
        /\ forall i : nat, get v' (Z.of_nat i) = nth i new_data value_zero
  end.
Proof.
  intros Hlen. destruct new_data as [|x l] eqn:Ed; [reflexivity|]. rewrite <- Ed in *.
  assert (new_data <> []) as Hd by (rewrite Ed; discriminate).
  assert (0 < vsize new_data) as Hpos by (rewrite Ed; unfold vsize; simpl; lia).
  unfold vec_assign, append, clear, vec_size. simpl nominal_size.
  rewrite add_range_to_nothing by (try assumption; lia).
  rewrite Z.add_0_l, Z.max_r by lia.
  eexists. split; [reflexivity|]. split; [reflexivity|]. split; [reflexivity|]. split.
  - unfold is_valid, is_valid_loop, empty, back. simpl.
    replace (vsize new_data <=? 0) with false by (symmetry; apply Z.leb_gt; lia).
    replace (vsize new_data <? vsize new_data) with false
      by (symmetry; apply Z.ltb_ge; lia).
    reflexivity.
  - intros i. pose proof (solid_vector_get 0 new_data i ltac:(lia) ltac:(lia)) as H.
    rewrite !Z.add_0_l in H. exact H.
Qed.

(** X11.  The constructors.  [sparse_vector(new_size)] is the vector of that
    size without any range; [sparse_vector(from, offset)] with a non-empty
    [from] has the size [offset + n] and the single range
    [offset, offset + n) holding [from], so that the cells before [offset]
    are void and [offset + i] reads as [from[i]]. *)
Theorem constructed_vectors (new_size : Z) (from : list T) (ofs : Z) :
  0 <= new_size -> from <> [] -> 0 <= ofs -> ofs + vsize from < size_modulus ->
  sparse_vector_sized new_size = SparseVector new_size []
  /\ exists v',
      sparse_vector_from from ofs = Ret v'
      /\ vec_size v' = ofs + vsize from
      /\ ranges v' = [DataRange (Range ofs (ofs + vsize from)) from]
      /\ is_valid v' = true
      /\ (forall i : nat, get v' (ofs + Z.of_nat i) = nth i from value_zero)
      /\ (forall k, k < ofs -> get v' k = value_zero).
Proof.
  intros Hn Hd Ho Hend. split.
  { unfold sparse_vector_sized, resize, sparse_vector_default, vec_size. simpl.
    replace (0 <=? new_size) with true by (symmetry; apply Z.leb_le; lia). reflexivity. }
  assert (0 < vsize from) as Hpos.
  { unfold vsize. destruct from; [contradiction | simpl; lia]. }
  unfold sparse_vector_from, sparse_vector_default.
  rewrite add_range_to_nothing by assumption. rewrite Z.max_r by lia.
  eexists. split; [reflexivity|]. split; [reflexivity|]. split; [reflexivity|].
  split; [|split].
  - unfold is_valid, is_valid_loop, empty, back. simpl.
    replace (ofs + vsize from <=? ofs) with false by (symmetry; apply Z.leb_gt; lia).
    replace (ofs + vsize from <? ofs + vsize from) with false
      by (symmetry; apply Z.ltb_ge; lia).
    reflexivity.
  - intros i. apply solid_vector_get; assumption.
  - intros k Hk. unfold get, find_next_range_iter. simpl. unfold less_int_range. simpl.
    replace (k <? ofs) with true by (symmetry; apply Z.ltb_lt; lia). reflexivity.
Qed.

(** ** Queries *)

(** X12.  What [is_valid()] checks.  For a vector whose ranges are as long
    as their data and whose indices are values of [size_type], [is_valid()]
    returns true exactly in canonical form: the ranges are not empty, in
    increasing order, separated by at least one void cell, and end within
    the size of the vector. *)
Theorem is_valid_iff_canonical (v : sparse_vector T) :
  Forall range_ok (ranges v) ->
  Forall (fun r : datarange_t T => 0 <= offset r) (ranges v) ->
  0 <= nominal_size v < size_modulus ->
  (is_valid v = true <-> canonical 1 v).
Proof.
  intros Hok Hpos Hn. split.
  - intros Hv. apply is_valid_canonical; try assumption.
    destruct (ranges v) as [|r rs]; [exact I|]. inversion Hpos; assumption.
  - apply canonical_is_valid.
Qed.

(** X13.  [is_void(index)] on a vector whose ranges do not overlap throws
    [out_of_range] exactly when the vector has no range or the index is not
    below the size; otherwise it returns whether the cell is void, that is
    whether no range includes the index. *)
Theorem is_void_behaviour (v : sparse_vector T) (k : Z) :
  canonical 0 v ->
  (is_void v k = Throw out_of_range <-> ranges v = [] \/ vec_size v <= k)
  /\ (ranges v <> [] -> k < vec_size v ->
      is_void v k = Ret (forallb (fun r : datarange_t T => negb (includes r k)) (ranges v))
      /\ is_void v k = Ret (negb (occupied (ranges v) k)))
  /\ is_void v k <> Undefined /\ is_void v k <> Throw runtime_error.
Proof.
  intros Hc. destruct (is_void_spec v k Hc) as [Hthrow Hret].
  split; [exact Hthrow|]. split; [|split].
  - intros Hne Hk. split; [apply Hret; assumption|].
    destruct Hc as [_ Hlay].
    rewrite (is_void_cell 0 0 (nominal_size v)); try assumption; try lia.
    unfold occupied. destruct (cell (ranges v) k); reflexivity.
  - unfold is_void. destruct (ranges v); [discriminate|].
    destruct (vec_size v <=? k); discriminate.
  - unfold is_void. destruct (ranges v); [discriminate|].
    destruct (vec_size v <=? k); discriminate.
Qed.

(** Counting the indices of an interval. *)
Lemma filter_none (A : Type) (f : A -> bool) (l : list A) :
  (forall x, In x l -> f x = false) -> filter f l = [].
Proof.
  induction l as [|a l IH]; intros H; [reflexivity|]. simpl.
  rewrite (H a (or_introl eq_refl)). apply IH. intros x Hx. apply H. right. exact Hx.
Qed.

Lemma filter_all (A : Type) (f : A -> bool) (l : list A) :
  (forall x, In x l -> f x = true) -> filter f l = l.
Proof.
  induction l as [|a l IH]; intros H; [reflexivity|]. simpl.
  rewrite (H a (or_introl eq_refl)). f_equal. apply IH. intros x Hx. apply H. right.
  exact Hx.
Qed.

Lemma length_filter_orb (A : Type) (f g : A -> bool) (l : list A) :
  (forall x, In x l -> f x = true -> g x = false) ->
  length (filter (fun x => f x || g x) l)
  = (length (filter f l) + length (filter g l))%nat.
Proof.
  induction l as [|a l IH]; intros H; [reflexivity|]. simpl.
  assert (forall x, In x l -> f x = true -> g x = false) as H'
      by (intros x Hx; apply H; right; exact Hx).
  specialize (IH H'). pose proof (H a (or_introl eq_refl)) as Ha.
  destruct (f a) eqn:Ef.
  - rewrite (Ha eq_refl). simpl. rewrite IH. reflexivity.
  - simpl. destruct (g a); simpl; rewrite IH; lia.
Qed.

Lemma count_interval (a b n : nat) :
  (a <= b <= n)%nat ->
  length (filter (fun k => (Z.of_nat a <=? k) && (k <? Z.of_nat b))
                 (map Z.of_nat (seq 0 n)))
  = (b - a)%nat.
Proof.
  intros H.
  replace n with (a + ((b - a) + (n - b)))%nat by lia.
  rewrite !seq_app, !map_app, !filter_app, !length_app. simpl Nat.add.
  rewrite filter_none, filter_all, filter_none.
  - simpl. rewrite length_map, length_seq. lia.
  - intros x Hx. apply in_map_iff in Hx. destruct Hx as (y & <- & Hy).
    apply in_seq in Hy. apply andb_false_iff. right. apply Z.ltb_ge. lia.
  - intros x Hx. apply in_map_iff in Hx. destruct Hx as (y & <- & Hy).
    apply in_seq in Hy. apply andb_true_iff. rewrite Z.leb_le, Z.ltb_lt. lia.
  - intros x Hx. apply in_map_iff in Hx. destruct Hx as (y & <- & Hy).
    apply in_seq in Hy. apply andb_false_iff. left. apply Z.leb_gt. lia.
Qed.

Lemma cells_in_use_cons (gap lo hi : Z) (r : datarange_t T) (rs : list (datarange_t T))
      (n : nat) :
  0 <= gap -> 0 <= lo -> laid_out gap lo hi (r :: rs) -> hi <= Z.of_nat n ->
  Z.of_nat (cells_in_use (r :: rs) n) = last r - offset r + Z.of_nat (cells_in_use rs n).
Proof.
  intros Hg Hlo Hlay Hhi. simpl in Hlay. destruct Hlay as (A & B & C & D & Lrs).
  unfold cells_in_use.
  rewrite (filter_ext (occupied (r :: rs))
             (fun k => ((Z.of_nat (Z.to_nat (offset r)) <=? k)
                        && (k <? Z.of_nat (Z.to_nat (last r))))
                       || occupied rs k)).
  2:{ intros k. unfold occupied. simpl. rewrite !Z2Nat.id by lia. unfold includes.
      destruct ((offset r <=? k) && (k <? last r)); reflexivity. }
  rewrite length_filter_orb.
  - rewrite count_interval by lia. lia.
  - intros k _ Hk. rewrite !Z2Nat.id in Hk by lia. apply andb_true_iff in Hk.
    rewrite Z.leb_le, Z.ltb_lt in Hk. unfold occupied.
    rewrite (cell_none_below gap (last r + gap) hi); try assumption; [reflexivity | lia].
Qed.

Lemma count_fold (gap hi : Z) (n : nat) (rs : list (datarange_t T)) :
  forall lo acc,
    0 <= gap -> 0 <= lo -> laid_out gap lo hi rs -> hi <= Z.of_nat n ->
    hi < size_modulus -> 0 <= acc <= lo ->
    fold_left (fun s (rng : datarange_t T) => wrap (s + size rng)) rs acc
    = acc + Z.of_nat (cells_in_use rs n).
Proof.
  induction rs as [|r rs IH]; intros lo acc Hg Hlo Hlay Hhi Hmod Hacc.
  - simpl. unfold cells_in_use. rewrite filter_none; [simpl; lia|]. reflexivity.
  - rewrite (cells_in_use_cons gap lo hi) by assumption.
    simpl in Hlay. destruct Hlay as (A & B & C & D & Lrs). simpl fold_left.
    unfold size. rewrite (wrap_small (last r - offset r)) by lia.
    rewrite wrap_small by lia.
    rewrite (IH (last r + gap)); try assumption; lia.
Qed.

(** X14.  [count()] on a vector whose ranges do not overlap is the number of
    cells that are not void, and so at most the size of the vector. *)
Theorem count_counts_cells (v : sparse_vector T) :
  canonical 0 v ->
  count v = Z.of_nat (cells_in_use (ranges v) (Z.to_nat (vec_size v)))
  /\ 0 <= count v <= vec_size v.
Proof.
  intros [Hn Hlay]. unfold count, vec_size.
  rewrite (count_fold 0 (nominal_size v) (Z.to_nat (nominal_size v)) (ranges v) 0 0);
    try assumption; try lia.
  split; [lia|]. unfold cells_in_use.
  pose proof (filter_length_le (occupied (ranges v))
                (map Z.of_nat (seq 0 (Z.to_nat (nominal_size v))))) as Hle.
  rewrite length_map, length_seq in Hle. lia.
Qed.

(** X15.  [back_is_void()] on a non-empty vector in canonical form tells
    whether the last cell is void; on a vector of size zero it is true. *)
Theorem back_is_void_iff_last_cell_void (v : sparse_vector T) :
  canonical 1 v ->
  (vec_size v = 0 -> back_is_void v = true)
  /\ (0 < vec_size v ->
      (back_is_void v = true <-> cell (ranges v) (vec_size v - 1) = None)).
Proof.
  intros [Hn Hlay]. unfold back_is_void, vec_size.
  destruct (ranges v) as [|r0 rs0] eqn:Ers.
  { split; [reflexivity|]. intros _. split; reflexivity. }
  rewrite <- Ers in *.
  destruct (exists_last (l := ranges v)) as (pre & r & E); [rewrite Ers; discriminate|].
  rewrite E in *. rewrite back_snoc. unfold end_index.
  replace (pre ++ [r]) with (pre ++ r :: []) in * by reflexivity.
  destruct (laid_out_split 1 _ _ _ _ _ ltac:(lia) Hlay) as (Lpre & A & B & C & D & _).
  split; [intros Hz; lia|]. intros Hpos. rewrite Z.ltb_lt.
  rewrite cell_snoc. simpl cell.
  rewrite (cell_none_above 1 0 (offset r - 1)); [|exact Lpre | lia].
  destruct (includes r (nominal_size v - 1)) eqn:Ei.
  - apply includes_iff in Ei. split; [lia | discriminate].
  - apply includes_false_iff in Ei. split; [reflexivity | lia].
Qed.

(** X16.  Looking a range up by index.  On a vector in canonical form
    [find_range(index)] returns a range of the vector that includes the
    index, whose value there is the one [operator[]] reads, and throws
    [out_of_range] exactly when the cell is void (in particular when there
    is no range); [find_range_iterator(index)] throws only when there is
    no range and otherwise returns the position of that range, or
    [ranges.end()] for a void cell. *)
Theorem find_range_finds_the_cell (v : sparse_vector T) (k : Z) :
  canonical 1 v ->
  match find_range v k with
  | Ret r =>
      In r (ranges v) /\ includes r k = true
      /\ get v k = datarange_get r k /\ is_void v k = Ret false
  | Throw e => e = out_of_range /\ cell (ranges v) k = None
  | Undefined => False
  end
  /\ match find_range_iterator v k with
     | Ret i =>
         ranges v <> []
         /\ if Nat.eqb i (length (ranges v)) then cell (ranges v) k = None
            else (i < length (ranges v))%nat
                 /\ includes (range_at (ranges v) i) k = true
                 /\ find_range v k = Ret (range_at (ranges v) i)
                 /\ find_range_number v k = Ret (Z.of_nat i)
     | Throw e => e = out_of_range /\ ranges v = []
     | Undefined => False
     end.
Proof.
  intros Hc. pose proof Hc as [Hn Hlay].
  unfold find_range, find_range_number, find_range_iterator, find_next_range_iter.
  destruct (ranges v) as [|r0 rs0] eqn:Ers.
  { split; split; reflexivity. }
  rewrite <- Ers in *.
  assert (ranges v <> []) as Hne by (rewrite Ers; discriminate).
  pose proof (locate 1 _ _ _ k ltac:(lia) Hlay) as L.
  destruct (upper_bound k (ranges v)) as [|q].
  { destruct L as [L _]. simpl bind. rewrite Nat.eqb_refl.
    split; [split; [reflexivity | exact L] | split; [exact Hne | exact L]]. }
  destruct L as (pre & r & post & E & -> & Hr & Hpost & Hcpre & Hcpost).
  rewrite E in *. rewrite range_at_middle. unfold end_index.
  assert (cell (pre ++ r :: post) k = if includes r k then Some (peek r k) else None) as Hk.
  { rewrite cell_snoc, Hcpre, Hcpost. reflexivity. }
  destruct (Z.leb_spec (last r) k) as [Hout|Hin].
  - simpl bind. rewrite Nat.eqb_refl.
    assert (cell (pre ++ r :: post) k = None) as Hnone.
    { rewrite Hk. replace (includes r k) with false; [reflexivity|].
      symmetry. apply includes_false_iff. lia. }
    split; [split; [reflexivity | exact Hnone] | split; [exact Hne | exact Hnone]].
  - simpl bind.
    replace (Nat.eqb (length pre) (length (pre ++ r :: post))) with false
      by (symmetry; apply Nat.eqb_neq; rewrite length_app; simpl; lia).
    rewrite range_at_middle.
    assert (includes r k = true) as Hinc by (apply includes_iff; lia).
    rewrite Hinc in Hk.
    split.
    + split; [apply in_elt|]. split; [exact Hinc|]. split.
      * rewrite (get_canonical 1) by (try assumption; lia). rewrite E, Hk. simpl.
        destruct (laid_out_split 1 _ _ _ _ _ ltac:(lia) Hlay) as (_ & A & B & C & D & _).
        symmetry. apply datarange_get_peek; lia.
      * apply (is_void_of_cell 1 v k (peek r k)); try assumption; try lia.
        rewrite E. exact Hk.
    + split; [exact Hne|]. split; [rewrite length_app; simpl; lia|].
      split; [exact Hinc|]. split; reflexivity.
Qed.

(** [end()] is in a consistent state. *)
Lemma cend_ok (a : address) (c : sparse_vector T) :
  canonical 0 c -> iterator_ok a c (cend a c).
Proof.
  intros [Hn Hlay]. unfold iterator_ok, cend, vec_size. simpl.
  split; [reflexivity|]. split; [exact Hn|].
  pose proof (first_ending_after_app (nominal_size c) (ranges c) []) as H.
  rewrite app_nil_r in H. rewrite H; [simpl; lia|].
  apply (laid_out_ends 0 0); [lia | exact Hlay].
Qed.

(** ** Making cells void *)

(** The cells left by the second half of [make_void]. *)
Lemma make_void_tail_cells (gap n m i2 : Z) (front rest : list (datarange_t T)) :
  0 <= gap <= 1 -> 0 <= n < size_modulus -> n < 2 ^ 63 ->
  m <= n -> 0 <= m + gap ->
  laid_out gap 0 m front -> laid_out gap (m + gap) n rest ->
  let last_range := (length front + first_ending_after i2 rest)%nat in
  let rs1 := front ++ rest in
  exists v',
    (let '(rs2, erased) :=
       if negb (Nat.eqb last_range (length rs1))
          && (begin_index (range_at rs1 last_range) <? i2)
       then eat_range_head rs1 last_range i2
       else (rs1, false) in
     if erased || (last_range <? length front)%nat then Undefined
     else Ret (SparseVector n (vec_erase_range rs2 (length front) last_range)))
    = Ret v'
    /\ forall k, cell (ranges v') k =
                   match cell front k with
                   | Some x => Some x
                   | None => if k <? i2 then None else cell rest k
                   end.
Proof.
  intros Hg Hn Hn63 Hm Hi2 Lfront Lrest. cbv zeta.
  destruct (first_ending_after_spec i2 rest) as (mid & post2 & -> & -> & Hall & Hpost2).
  replace (length front + length mid)%nat with (length (front ++ mid))
    by (rewrite length_app; reflexivity).
  rewrite app_assoc.
  replace (length (front ++ mid) <? length front)%nat with false
    by (symmetry; apply Nat.ltb_ge; rewrite length_app; lia).
  assert (forall l : list (datarange_t T),
             vec_erase_range ((front ++ mid) ++ l) (length front) (length (front ++ mid))
             = front ++ l) as Herase.
  { intros l. unfold vec_erase_range.
    rewrite Nat.max_r by (rewrite length_app; lia).
    rewrite skipn_middle. rewrite <- app_assoc, firstn_middle. reflexivity. }
  assert (forall k, i2 <= k -> cell mid k = None) as Hmid.
  { intros k Hk. apply cell_none_ends.
    apply Forall_ends_weaken with (k := i2); assumption. }
  destruct post2 as [|r2 post3].
  - rewrite app_nil_r, Nat.eqb_refl. simpl negb. simpl andb. cbv iota. simpl orb.
    cbv iota. pose proof (Herase []) as Hnil. rewrite !app_nil_r in Hnil. rewrite Hnil.
    eexists. split; [reflexivity|]. intros k. simpl ranges.
    destruct (cell front k); [reflexivity|].
    destruct (Z.ltb_spec k i2) as [Hlt|Hge]; [reflexivity|].
    rewrite app_nil_r. rewrite Hmid by assumption. reflexivity.
  - replace (Nat.eqb (length (front ++ mid)) (length ((front ++ mid) ++ r2 :: post3)))
      with false by (symmetry; apply Nat.eqb_neq; rewrite !length_app; simpl; lia).
    rewrite range_at_middle. simpl negb. simpl andb. unfold begin_index.
    apply laid_out_app in Lrest. destruct Lrest as [Lmid Lpost2].
    pose proof (frontier_ge _ _ _ _ (proj1 Hg) Lmid) as Hfr.
    simpl in Lpost2. destruct Lpost2 as (A & B & C & D & Lpost3).
    assert (forall k, k < last r2 + gap -> cell post3 k = None) as Hpost3.
    { intros k Hk. apply (cell_none_below gap (last r2 + gap) n); try assumption; lia. }
    destruct (Z.ltb_spec (offset r2) i2) as [Hcut|Hkeep].
    + unfold eat_range_head. rewrite range_at_middle. unfold begin_index, end_index.
      replace (i2 <=? offset r2) with false by (symmetry; apply Z.leb_gt; lia).
      replace (last r2 <=? i2) with false by (symmetry; apply Z.leb_gt; lia).
      rewrite vec_update_middle. simpl orb. cbv iota. rewrite Herase.
      rewrite move_head_spec by (try assumption; lia).
      eexists. split; [reflexivity|]. intros k. simpl ranges.
      rewrite cell_snoc, (cell_snoc mid r2 post3).
      destruct (cell front k); [reflexivity|].
      unfold includes at 1. simpl offset. simpl last.
      destruct (Z.ltb_spec k i2) as [Hlt|Hge].
      * replace (i2 <=? k) with false by (symmetry; apply Z.leb_gt; lia).
        simpl andb. cbv iota. apply Hpost3. lia.
      * rewrite Hmid by assumption.
        replace (i2 <=? k) with true by (symmetry; apply Z.leb_le; lia).
        unfold includes.
        replace (offset r2 <=? k) with true by (symmetry; apply Z.leb_le; lia).
        simpl andb. destruct (k <? last r2); [|reflexivity].
        f_equal. apply peek_head_cut. lia.
    + simpl orb. cbv iota. rewrite Herase.
      eexists. split; [reflexivity|]. intros k. simpl ranges.
      rewrite cell_snoc, (cell_snoc mid r2 post3).
      destruct (cell front k); [reflexivity|].
      destruct (Z.ltb_spec k i2) as [Hlt|Hge].
      * replace (includes r2 k) with false by (symmetry; apply includes_false_iff; lia).
        apply Hpost3. lia.
      * rewrite Hmid by assumption. reflexivity.
Qed.

(** The cells left by [make_void]. *)
Lemma make_void_cells (gap : Z) (a : address) (v : sparse_vector T)
      (it1 it2 : const_iterator) :
  0 <= gap <= 1 -> canonical gap v -> nominal_size v < 2 ^ 63 ->
  iterator_ok a v it1 -> iterator_ok a v it2 ->
  exists v',
    make_void a v it1 it2 = Ret v'
    /\ forall k, cell (ranges v') k =
                   if (index it1 <=? k) && (k <? index it2) then None
                   else cell (ranges v) k.
Proof.
  intros Hg Hc Hn63 (Hc1 & Hi1 & Hcr1) (Hc2 & Hi2 & Hcr2).
  pose proof Hc as [Hn Hlay]. destruct v as [n rs].
  simpl nominal_size in *. simpl ranges in *.
  unfold make_void. rewrite (is_this_refl a it1 Hc1), (is_this_refl a it2 Hc2).
  simpl negb. simpl orb. cbv iota.
  destruct (Z.leb_spec (index it2) (index it1)) as [Hle|Hlt].
  { exists (SparseVector n rs). split; [reflexivity|]. intros k. simpl ranges.
    replace ((index it1 <=? k) && (k <? index it2)) with false; [reflexivity|].
    symmetry. apply andb_false_iff. rewrite Z.leb_gt, Z.ltb_ge. lia. }
  simpl ranges. simpl nominal_size. rewrite Hcr1, Hcr2.
  destruct (first_ending_after_spec (index it1) rs)
    as (pre & post1 & -> & -> & Hall1 & Hpost1).
  assert (forall k, index it1 <= k -> cell pre k = None) as Hpre.
  { intros k Hk. apply cell_none_ends.
    apply Forall_ends_weaken with (k := index it1); assumption. }
  assert (forall k x, cell pre k = Some x -> k < index it1) as Hpre'.
  { intros k x Hk. destruct (Z.ltb_spec k (index it1)); [assumption|].
    rewrite Hpre in Hk by assumption. discriminate. }
  destruct post1 as [|r post].
  { rewrite app_nil_r, Nat.eqb_refl. exists (SparseVector n pre).
    split; [reflexivity|]. intros k. simpl ranges.
    destruct (Z.leb_spec (index it1) k) as [Hge|Hlt'];
      [|reflexivity].
    rewrite Hpre by assumption. destruct (k <? index it2); reflexivity. }
  replace (Nat.eqb (length pre) (length (pre ++ r :: post))) with false
    by (symmetry; apply Nat.eqb_neq; rewrite length_app; simpl; lia).
  rewrite range_at_middle. unfold begin_index.
  rewrite (first_ending_after_app (index it2))
    by (apply Forall_ends_weaken with (k := index it1); [lia | exact Hall1]).
  destruct (laid_out_split _ _ _ _ _ _ (proj1 Hg) Hlay) as (Lpre & A & B & C & D & Lpost).
  assert (forall k, k < last r + gap -> cell post k = None) as Hpost.
  { intros k Hk. apply (cell_none_below gap (last r + gap) n); try assumption; lia. }
  destruct (Z.ltb_spec (offset r) (index it1)) as [Hinside|Hbefore].
  - simpl first_ending_after.
    destruct (Z.ltb_spec (index it2) (last r)) as [Hsame|Hlater].
    + (* both iterators stand in the same range: it is cut in two *)
      rewrite Nat.add_0_r, Nat.eqb_refl. simpl andb. cbv iota.
      assert (forall x y : datarange_t T,
                 vec_update (vec_insert (pre ++ r :: post) (S (length pre)) x)
                            (length pre) y
                 = pre ++ y :: x :: post) as Hcut.
      { intros x y.
        replace (S (length pre)) with (length (pre ++ [r]))
          by (rewrite length_app; simpl; lia).
        replace (pre ++ r :: post) with ((pre ++ [r]) ++ post)
          by (rewrite <- app_assoc; reflexivity).
        rewrite vec_insert_middle. rewrite <- app_assoc. simpl app.
        apply vec_update_middle. }
      rewrite Hcut. eexists. split; [reflexivity|]. intros k. simpl ranges.
      unfold range_ok, vsize in D.
      rewrite move_tail_spec by (try assumption; lia).
      unfold relative_index. rewrite wrap_small by lia.
      rewrite datarange_ctor_spec by (try lia; unfold vsize; rewrite length_skipn; lia).
      unfold vsize. rewrite length_skipn.
      replace (index it2 + Z.of_nat (length (values r) - Z.to_nat (index it2 - offset r)))
        with (last r) by lia.
      rewrite !cell_snoc. simpl cell.
      destruct (cell pre k) as [x|] eqn:Ek.
      { apply Hpre' in Ek.
        replace (index it1 <=? k) with false by (symmetry; apply Z.leb_gt; lia).
        reflexivity. }
      unfold includes. simpl offset. simpl last.
      destruct (Z.leb_spec (offset r) k) as [Ho|Ho]; simpl andb.
      2:{ replace (index it1 <=? k) with false by (symmetry; apply Z.leb_gt; lia).
          replace (index it2 <=? k) with false by (symmetry; apply Z.leb_gt; lia).
          reflexivity. }
      destruct (Z.ltb_spec k (index it1)) as [H1|H1].
      { replace (index it1 <=? k) with false by (symmetry; apply Z.leb_gt; lia).
        replace (k <? last r) with true by (symmetry; apply Z.ltb_lt; lia).
        simpl andb. cbv iota. f_equal. apply peek_tail_cut. lia. }
      replace (index it1 <=? k) with true by (symmetry; apply Z.leb_le; lia).
      destruct (Z.ltb_spec k (index it2)) as [H2|H2].
      { replace (index it2 <=? k) with false by (symmetry; apply Z.leb_gt; lia).
        simpl andb. cbv iota. apply Hpost. lia. }
      replace (index it2 <=? k) with true by (symmetry; apply Z.leb_le; lia).
      simpl andb. destruct (k <? last r); [|reflexivity].
      f_equal. apply peek_head_cut. lia.
    + (* the first range is cut at its tail, the others follow *)
      replace (Nat.eqb (length pre)
                       (length pre + S (first_ending_after (index it2) post)))
        with false by (symmetry; apply Nat.eqb_neq; lia).
      rewrite andb_false_r. cbv iota.
      rewrite vec_update_middle.
      rewrite move_tail_spec by (try assumption; lia).
      set (left := DataRange (Range (offset r) (index it1))
                             (firstn (Z.to_nat (index it1 - offset r)) (values r))).
      replace (pre ++ left :: post) with ((pre ++ [left]) ++ post)
        by (rewrite <- app_assoc; reflexivity).
      replace (S (length pre)) with (length (pre ++ [left]))
        by (rewrite length_app; simpl; lia).
      replace (length pre + S (first_ending_after (index it2) post))%nat
        with (length (pre ++ [left]) + first_ending_after (index it2) post)%nat
        by (rewrite length_app; simpl; lia).
      destruct (make_void_tail_cells gap n (index it1) (index it2) (pre ++ [left]) post)
        as (v' & E & Hcell); try assumption; try lia.
      * apply laid_out_concat with (mid := offset r - gap); try lia; [exact Lpre|].
        simpl. unfold range_ok, vsize in *. simpl. rewrite length_firstn.
        repeat split; lia.
      * apply laid_out_weaken with (gap := gap) (lo := last r + gap) (hi := n); try lia.
        exact Lpost.
      * exists v'. split; [exact E|]. intros k. rewrite Hcell.
        replace (pre ++ [left]) with (pre ++ left :: []) by reflexivity.
        rewrite !cell_snoc. simpl cell.
        destruct (cell pre k) as [x|] eqn:Ek.
        { apply Hpre' in Ek.
          replace (index it1 <=? k) with false by (symmetry; apply Z.leb_gt; lia).
          reflexivity. }
        unfold includes, left. simpl offset. simpl last.
        destruct (Z.leb_spec (offset r) k) as [Ho|Ho]; simpl andb.
        2:{ replace (index it1 <=? k) with false by (symmetry; apply Z.leb_gt; lia).
            replace (k <? index it2) with true by (symmetry; apply Z.ltb_lt; lia).
            simpl andb. cbv iota. symmetry. apply Hpost. lia. }
        destruct (Z.ltb_spec k (index it1)) as [H1|H1].
        { replace (index it1 <=? k) with false by (symmetry; apply Z.leb_gt; lia).
          replace (k <? last r) with true by (symmetry; apply Z.ltb_lt; lia).
          simpl andb. cbv iota. f_equal. apply peek_tail_cut. lia. }
        replace (index it1 <=? k) with true by (symmetry; apply Z.leb_le; lia).
        simpl andb. destruct (Z.ltb_spec k (index it2)) as [H2|H2]; [reflexivity|].
        replace (k <? last r) with false by (symmetry; apply Z.ltb_ge; lia).
        reflexivity.
  - (* the first iterator stands in the void in front of a range *)
    simpl andb. cbv iota.
    destruct (make_void_tail_cells gap n (offset r - gap) (index it2) pre (r :: post))
      as (v' & E & Hcell); try assumption; try lia.
    { simpl. replace (offset r - gap + gap) with (offset r) by lia.
      repeat split; try lia; assumption. }
    exists v'. split; [exact E|]. intros k. rewrite Hcell, cell_snoc.
    destruct (cell pre k) as [x|] eqn:Ek.
    { apply Hpre' in Ek.
      replace (index it1 <=? k) with false by (symmetry; apply Z.leb_gt; lia).
      reflexivity. }
    simpl cell.
    destruct (Z.ltb_spec k (index it2)) as [H2|H2].
    + destruct (Z.leb_spec (index it1) k) as [H1|H1]; [reflexivity|]. simpl andb.
      replace (includes r k) with false by (symmetry; apply includes_false_iff; lia).
      symmetry. apply Hpost. lia.
    + rewrite andb_false_r. reflexivity.
Qed.

(** [make_void] cuts a range in two exactly when the cell in front of
    [first] and the cells from [first] to [last], the latter included, are
    all in use. *)
Lemma make_void_with_capacity_spec (ranges_capacity : nat) (a : address)
      (v : sparse_vector T) (it1 it2 : const_iterator) :
  canonical 1 v -> iterator_ok a v it1 -> iterator_ok a v it2 ->
  make_void_with_capacity ranges_capacity a v it1 it2 =
    if (index it1 <? index it2)
       && all_in_use (ranges v) (index it1 - 1) (index it2)
       && (ranges_capacity <=? length (ranges v))%nat
    then Undefined else make_void a v it1 it2.
Proof.
  intros [Hn Hlay] (Hc1 & Hi1 & Hcr1) (Hc2 & Hi2 & Hcr2).
  destruct v as [n rs]. cbn [nominal_size ranges] in *.
  unfold make_void_with_capacity, make_void.
  rewrite (is_this_refl a it1 Hc1), (is_this_refl a it2 Hc2).
  cbn [negb orb nominal_size ranges].
  destruct (Z.leb_spec (index it2) (index it1)) as [Hle|Hlt].
  { replace (index it1 <? index it2) with false by (symmetry; apply Z.ltb_ge; lia).
    reflexivity. }
  replace (index it1 <? index it2) with true by (symmetry; apply Z.ltb_lt; lia).
  cbn [andb]. rewrite Hcr1, Hcr2.
  destruct (first_ending_after_spec (index it1) rs)
    as (pre & post1 & -> & -> & Hall1 & Hpost1).
  destruct post1 as [|r post].
  { rewrite app_nil_r, Nat.eqb_refl.
    rewrite (all_in_use_false _ (index it1 - 1) (index it2) (index it1));
      [reflexivity | lia |].
    unfold occupied. rewrite (cell_none_ends _ _ Hall1). reflexivity. }
  replace (Nat.eqb (length pre) (length (pre ++ r :: post))) with false
    by (symmetry; apply Nat.eqb_neq; rewrite length_app; simpl; lia).
  rewrite range_at_middle. unfold begin_index.
  rewrite (first_ending_after_app (index it2))
    by (apply Forall_ends_weaken with (k := index it1); [lia | exact Hall1]).
  destruct (laid_out_split 1 _ _ _ _ _ ltac:(lia) Hlay) as (Lpre & A & B & C & D & Lpost).
  assert (forall j, offset r - 1 <= j < last r + 1 ->
                    occupied (pre ++ r :: post) j = includes r j) as Hocc.
  { intros j Hj. apply (occupied_middle 1 0 n); try assumption; lia. }
  destruct (Z.ltb_spec (offset r) (index it1)) as [Hinside|Hbefore].
  - cbn [first_ending_after].
    destruct (Z.ltb_spec (index it2) (last r)) as [Hsame|Hlater].
    + rewrite Nat.add_0_r, Nat.eqb_refl. cbn [andb].
      rewrite all_in_use_true.
      2:{ intros j Hj. rewrite Hocc by lia. apply includes_iff. lia. }
      cbn [andb]. destruct (ranges_capacity <=? length (pre ++ r :: post))%nat; reflexivity.
    + replace (Nat.eqb (length pre)
                       (length pre + S (first_ending_after (index it2) post)))
        with false by (symmetry; apply Nat.eqb_neq; lia).
      rewrite (all_in_use_false _ (index it1 - 1) (index it2) (last r));
        [reflexivity | lia |].
      rewrite Hocc by lia. apply includes_false_iff. lia.
  - cbn [andb].
    destruct (Z.eq_dec (offset r) (index it1)) as [Hat|Hvoid].
    + rewrite (all_in_use_false _ (index it1 - 1) (index it2) (index it1 - 1));
        [reflexivity | lia |].
      rewrite Hocc by lia. apply includes_false_iff. lia.
    + rewrite (all_in_use_false _ (index it1 - 1) (index it2) (index it1));
        [reflexivity | lia |].
      unfold occupied. rewrite (cell_middle 1 0 n) by (try assumption; lia).
      replace (includes r (index it1)) with false
        by (symmetry; apply includes_false_iff; lia).
      rewrite (cell_none_ends _ _ Hall1).
      rewrite (cell_none_below 1 _ _ _ (index it1) ltac:(lia) Lpost) by lia.
      reflexivity.
Qed.

(** X17.  [make_void(first, last)] between two iterators obtained from the
    vector ([end()] included), which is in canonical form and shorter than
    [2^63].  When [first] is before [last] and the cell in front of [first]
    and all cells from [first] to [last] are in use, a range is cut in two
    with [ranges.emplace]; if [ranges] is filled to its capacity, the call
    then resizes the left part through an iterator into the buffer that
    [emplace] has left, which is undefined.  In every other case it returns
    a valid vector of the same size in which the cells from the index of
    [first] up to, but not including, the index of [last] are void and
    every other cell is as before; nothing changes when [first] is not
    before [last].  With an iterator of another container (or of none) it
    throws [runtime_error]. *)
Theorem make_void_voids_the_interval (ranges_capacity : nat) (a : address)
        (v : sparse_vector T) (first last : const_iterator) :
  canonical 1 v -> nominal_size v < 2 ^ 63 ->
  reachable a v first \/ first = cend a v ->
  reachable a v last \/ last = cend a v ->
  (if (index first <? index last)
      && all_in_use (ranges v) (index first - 1) (index last)
      && (ranges_capacity <=? length (ranges v))%nat
   then make_void_with_capacity ranges_capacity a v first last = Undefined
   else exists v',
       make_void_with_capacity ranges_capacity a v first last = Ret v'
       /\ canonical 1 v' /\ is_valid v' = true
       /\ vec_size v' = vec_size v
       /\ (forall k, index first <= k < index last ->
             cell (ranges v') k = None /\ get v' k = value_zero)
       /\ (forall k, k < index first \/ index last <= k ->
             cell (ranges v') k = cell (ranges v) k /\ get v' k = get v k)
       /\ (index last <= index first -> v' = v))
  /\ (forall alien : const_iterator,
        cont alien <> Some a ->
        make_void_with_capacity ranges_capacity a v alien last = Throw runtime_error
        /\ make_void_with_capacity ranges_capacity a v first alien = Throw runtime_error).
Proof.
  intros Hc Hn63 Hr1 Hr2. pose proof (canonical_weaken v Hc) as Hc0.
  assert (iterator_ok a v first) as Hok1.
  { destruct Hr1 as [Hr1 | ->]; [apply reachable_ok; assumption | apply cend_ok; exact Hc0]. }
  assert (iterator_ok a v last) as Hok2.
  { destruct Hr2 as [Hr2 | ->]; [apply reachable_ok; assumption | apply cend_ok; exact Hc0]. }
  split.
  - rewrite (make_void_with_capacity_spec ranges_capacity a v first last Hc Hok1 Hok2).
    destruct ((index first <? index last)
              && all_in_use (ranges v) (index first - 1) (index last)
              && (ranges_capacity <=? length (ranges v))%nat); [reflexivity|].
    destruct (make_void_canonical 1 a v first last) as (v' & E & Hc' & Hs);
      try assumption; try lia.
    destruct (make_void_cells 1 a v first last) as (v'' & E' & Hcell);
      try assumption; try lia.
    rewrite E in E'. injection E' as <-.
    exists v'. split; [exact E|]. split; [exact Hc'|].
    split; [apply canonical_is_valid; exact Hc'|]. split; [exact Hs|].
    split; [|split].
    + intros k Hk.
      assert (cell (ranges v') k = None) as Hnone.
      { rewrite Hcell.
        replace ((index first <=? k) && (k <? index last)) with true; [reflexivity|].
        symmetry. apply andb_true_iff. rewrite Z.leb_le, Z.ltb_lt. lia. }
      split; [exact Hnone|].
      rewrite (get_canonical 1) by (try assumption; lia). rewrite Hnone. reflexivity.
    + intros k Hk.
      assert (cell (ranges v') k = cell (ranges v) k) as Hsame.
      { rewrite Hcell.
        replace ((index first <=? k) && (k <? index last)) with false; [reflexivity|].
        symmetry. apply andb_false_iff. rewrite Z.leb_gt, Z.ltb_ge. lia. }
      split; [exact Hsame|]. apply (get_same_cell 1); try assumption; lia.
    + intros Hle. revert E. unfold make_void.
      destruct Hok1 as (Hc1 & _). destruct Hok2 as (Hc2 & _).
      rewrite (is_this_refl a first Hc1), (is_this_refl a last Hc2).
      simpl negb. simpl orb. cbv iota.
      replace (index last <=? index first) with true by (symmetry; apply Z.leb_le; lia).
      intros [= <-]. reflexivity.
  - intros alien Halien.
    assert (match cont alien with Some a' => Nat.eqb a' a | None => false end = false)
      as Hno.
    { destruct (cont alien) as [a'|]; [|reflexivity].
      apply Nat.eqb_neq. intros ->. apply Halien. reflexivity. }
    unfold make_void_with_capacity. rewrite Hno. simpl negb. simpl orb.
    rewrite orb_true_r. split; reflexivity.
Qed.

(** X18.  [make_void_around(index)] on a vector in canonical form throws
    [out_of_range] exactly when the vector has no range or the index is
    not below the size.  Otherwise, for a void cell it returns an empty
    range and leaves the vector as it is; for any other cell it returns the
    range that includes the index and removes it from the vector, all the
    cells of that range becoming void, the others and the size staying as
    they were. *)
Theorem make_void_around_removes_the_range (v : sparse_vector T) (k : Z) :
  canonical 1 v ->
  match make_void_around v k with
  | Throw e => e = out_of_range /\ (ranges v = [] \/ vec_size v <= k)
  | Ret (v', r) =>
      ranges v <> [] /\ k < vec_size v
      /\ canonical 1 v' /\ is_valid v' = true /\ vec_size v' = vec_size v
      /\ match cell (ranges v) k with
         | None => v' = v /\ r = datarange_default
         | Some _ =>
             In r (ranges v) /\ includes r k = true
             /\ forall j, cell (ranges v') j =
                            if includes r j then None else cell (ranges v) j
         end
  | Undefined => False
  end.
Proof.
  intros Hc. pose proof Hc as [Hn Hlay].
  destruct (make_void_around v k) as [[v' r0]|e|] eqn:E.
  - destruct (make_void_around_canonical 1 v v' k r0 ltac:(lia) Hc E) as [Hc' Hs].
    revert E. unfold make_void_around, find_next_range_iter.
    destruct (ranges v) as [|x0 xs0] eqn:Ers; [discriminate|]. rewrite <- Ers in *.
    assert (ranges v <> []) as Hne by (rewrite Ers; discriminate).
    destruct (Z.leb_spec (vec_size v) k) as [Hout|Hin]; [discriminate|].
    intros E. split; [exact Hne|]. split; [exact Hin|]. split; [exact Hc'|].
    split; [apply canonical_is_valid; exact Hc'|]. split; [exact Hs|].
    pose proof (locate 1 _ _ _ k ltac:(lia) Hlay) as L.
    destruct (upper_bound k (ranges v)) as [|q].
    { destruct L as [L _]. rewrite L. injection E as <- <-. split; reflexivity. }
    destruct L as (pre & r & post & Er & -> & Hr & Hpost & Hcpre & Hcpost).
    rewrite Er in *. rewrite range_at_middle in E. unfold end_index in E.
    rewrite cell_snoc, Hcpre, Hcpost.
    destruct (Z.leb_spec (last r) k) as [Hvoid|Hfull].
    + injection E as <- <-.
      replace (includes r k) with false by (symmetry; apply includes_false_iff; lia).
      split; reflexivity.
    + assert (includes r k = true) as Hinc by (apply includes_iff; lia).
      rewrite Hinc. unfold void_range in E. rewrite Er, skipn_middle, vec_erase_middle in E.
      injection E as <- <-. split; [apply in_elt|]. split; [exact Hinc|].
      intros j. simpl ranges. rewrite cell_app, cell_snoc.
      destruct (laid_out_split 1 _ _ _ _ _ ltac:(lia) Hlay) as (Lpre & A & B & C & D & Lpost).
      destruct (includes r j) eqn:Ej.
      * apply includes_iff in Ej.
        rewrite (cell_none_above 1 0 (offset r - 1)); [|exact Lpre | lia].
        apply (cell_none_below 1 (last r + 1) (nominal_size v)); try assumption; lia.
      * reflexivity.
  - revert E. unfold make_void_around.
    destruct (ranges v) as [|x0 xs0] eqn:Ers.
    { intros [= <-]. split; [reflexivity | left; reflexivity]. }
    rewrite <- Ers in *.
    destruct (Z.leb_spec (vec_size v) k) as [Hout|Hin].
    { intros [= <-]. split; [reflexivity | right; exact Hout]. }
    destruct (find_next_range_iter v k) as [|p]; [discriminate|].
    destruct (end_index (range_at (ranges v) p) <=? k); [discriminate|].
    unfold void_range. destruct (skipn p (ranges v)); discriminate.
  - revert E. unfold make_void_around, find_next_range_iter.
    pose proof (upper_bound_le k (ranges v)) as Hp.
    destruct (ranges v) as [|x0 xs0] eqn:Ers; [discriminate|]. rewrite <- Ers in *.
    destruct (vec_size v <=? k); [discriminate|].
    destruct (upper_bound k (ranges v)) as [|p]; [discriminate|].
    destruct (end_index (range_at (ranges v) p) <=? k); [discriminate|].
    unfold void_range. destruct (skipn p (ranges v)) eqn:Es; [|discriminate].
    apply (f_equal (@length _)) in Es. rewrite length_skipn in Es. simpl in Es. lia.
Qed.

(** ** Writing through [operator[]], and [combine_range] in general *)

(** X19.  The mutable [operator[]] on a cell that is not void.  The proxy
    it returns reads as the value of the cell, and assigning to it is
    [set_at(index, value)]: the call is defined, the cell then reads as the
    value assigned, and the ranges keep their intervals. *)
Theorem assignment_through_reference (v : sparse_vector T) (k : Z) (x y : T) :
  canonical 1 v -> cell (ranges v) k = Some y ->
  const_reference_value v (get_reference v k) = Ret y
  /\ get v k = y
  /\ reference_assign v (get_reference v k) x = set_at v k x
  /\ exists v',
      set_at v k x = Ret v'
      /\ get v' k = x
      /\ vec_size v' = vec_size v
      /\ map (fun r : datarange_t T => (offset r, last r)) (ranges v')
         = map (fun r : datarange_t T => (offset r, last r)) (ranges v).
Proof.
  intros Hc Hcell. pose proof Hc as [Hn Hlay].
  assert (get v k = y) as Hget.
  { rewrite (get_canonical 1) by (try assumption; lia). rewrite Hcell. reflexivity. }
  pose proof (locate 1 _ _ _ k ltac:(lia) Hlay) as L.
  unfold get_reference, set_at, find_next_range_iter.
  destruct (upper_bound k (ranges v)) as [|q].
  { destruct L as [L _]. rewrite L in Hcell. discriminate. }
  destruct L as (pre & r & post & E & -> & Hr & Hpost & Hcpre & Hcpost).
  rewrite E in *. rewrite range_at_middle. unfold end_index.
  rewrite cell_snoc, Hcpre, Hcpost in Hcell.
  destruct (includes r k) eqn:Hinc; [|discriminate]. injection Hcell as <-.
  apply includes_iff in Hinc.
  destruct (laid_out_split 1 _ _ _ _ _ ltac:(lia) Hlay) as (Lpre & A & B & C & D & Lpost).
  unfold range_ok, vsize in D.
  replace (k <? last r) with true by (symmetry; apply Z.ltb_lt; lia).
  assert (relative_index r k = k - offset r) as Hrel
      by (unfold relative_index; apply wrap_small; lia).
  unfold const_reference_value, reference_assign, load, store. simpl ptr.
  simpl ptr_range. simpl ptr_cell. rewrite E, range_at_middle, Hrel.
  cbn [ptr_range ptr_cell].
  split; [|split; [exact Hget|split]].
  - rewrite (nth_error_nth' (values r) value_zero) by lia. reflexivity.
  - replace (length pre <? length (pre ++ r :: post))%nat with true
      by (symmetry; apply Nat.ltb_lt; rewrite length_app; simpl; lia).
    replace (Z.to_nat (k - offset r) <? length (values r))%nat with true
      by (symmetry; apply Nat.ltb_lt; lia).
    simpl andb. cbv iota. unfold datarange_set. rewrite Hrel. reflexivity.
  - eexists. split; [reflexivity|]. rewrite vec_update_middle.
    split; [|split; [reflexivity|]].
    + unfold get, find_next_range_iter. simpl ranges.
      assert (upper_bound k (pre ++ datarange_set r k x :: post) = S (length pre)) as Hub.
      { clear - Hr Hpost Lpre. induction pre as [|p pre IH].
        - simpl. unfold less_int_range. simpl offset.
          replace (k <? offset r) with false by (symmetry; apply Z.ltb_ge; lia).
          f_equal. destruct post as [|nx tl]; [reflexivity|]. simpl.
          unfold less_int_range.
          replace (k <? offset nx) with true by (symmetry; apply Z.ltb_lt; lia).
          reflexivity.
        - simpl in Lpre. destruct Lpre as (P1 & P2 & P3 & P4 & Lpre).
          simpl. unfold less_int_range at 1.
          replace (k <? offset p) with false by (symmetry; apply Z.ltb_ge; lia).
          f_equal. apply IH.
          apply laid_out_weaken with (gap := 1) (lo := last p + 1) (hi := offset r - 1);
            try lia. exact Lpre. }
      rewrite Hub, range_at_middle. unfold end_index. simpl last.
      replace (k <? last r) with true by (symmetry; apply Z.ltb_lt; lia).
      unfold datarange_get, datarange_set. simpl values.
      unfold relative_index at 1. simpl offset. fold (relative_index r k). rewrite Hrel.
      rewrite nth_copy_into by lia.
      replace ((Z.to_nat (k - offset r) <=? Z.to_nat (k - offset r))
               && (Z.to_nat (k - offset r) <? Z.to_nat (k - offset r) + length [x]))%nat
        with true; [rewrite Nat.sub_diag; reflexivity|].
      symmetry. apply andb_true_iff. rewrite Nat.leb_le, Nat.ltb_lt. simpl. lia.
    + simpl ranges. rewrite !map_app. reflexivity.
Qed.

(** X20.  [combine_range(offset, first, last, op, void_value)] with a
    non-empty input on a vector in canonical form returns a vector of size
    [max(size(), offset + n)] whose ranges do not overlap; each cell
    [offset + i] is not void and reads as [op] of its former value, or of
    [void_value] if it was void, and of the input element; every cell
    outside [offset, offset + n) is as before. *)
Theorem combine_range_then_get (op : T -> T -> T) (void_value : T)
        (v : sparse_vector T) (ofs : Z) (src : list T) :
  canonical 1 v -> src <> [] -> 0 <= ofs -> ofs + vsize src < size_modulus ->
  exists v',
    combine_range v ofs src op void_value = Ret v'
    /\ canonical 0 v'
    /\ vec_size v' = Z.max (vec_size v) (ofs + vsize src)
    /\ (forall i : nat, (i < length src)%nat ->
          get v' (ofs + Z.of_nat i)
          = op (match cell (ranges v) (ofs + Z.of_nat i) with
                | Some x => x
                | None => void_value
                end)
               (nth i src value_zero)
          /\ is_void v' (ofs + Z.of_nat i) = Ret false)
    /\ (forall k, k < ofs \/ ofs + vsize src <= k ->
          get v' k = get v k /\ cell (ranges v') k = cell (ranges v) k).
Proof.
  intros Hc Hsrc Ho Hend.
  destruct (combine_range_spec op void_value v ofs src) as (v' & E & Hc' & Hs & Hov);
    try assumption.
  exists v'. split; [exact E|]. split; [exact Hc'|]. split; [exact Hs|].
  unfold overlaid in Hov. split.
  - intros i Hi. specialize (Hov (ofs + Z.of_nat i)). unfold vsize in Hov.
    replace ((ofs <=? ofs + Z.of_nat i) && (ofs + Z.of_nat i <? ofs + Z.of_nat (length src)))
      with true in Hov by (symmetry; apply andb_true_iff; rewrite Z.leb_le, Z.ltb_lt; lia).
    replace (Z.to_nat (ofs + Z.of_nat i - ofs)) with i in Hov by lia.
    split.
    + rewrite (get_canonical 0) by (try assumption; lia). rewrite Hov. reflexivity.
    + apply (is_void_of_cell 0 v' _ _ ltac:(lia) Hc' Hov).
  - intros k Hk. specialize (Hov k).
    replace ((ofs <=? k) && (k <? ofs + vsize src)) with false in Hov
      by (symmetry; apply andb_false_iff; rewrite Z.leb_gt, Z.ltb_ge; lia).
    split; [|exact Hov].
    apply (get_same_cell 0); try assumption; try lia. apply canonical_weaken. exact Hc.
Qed.

(** ** Iterators *)

(** The signed reading of a difference of indices. *)
Lemma to_signed_wrap (x : Z) : - 2 ^ 63 <= x < 2 ^ 63 -> to_signed (wrap x) = x.
Proof.
  intros Hx. unfold to_signed, wrap, size_modulus in *.
  destruct (Z.ltb_spec x 0) as [Hneg|Hpos].
  - assert (x mod 2 ^ 64 = x + 2 ^ 64) as ->.
    { replace x with (x + 2 ^ 64 + (-1) * 2 ^ 64) at 1 by lia.
      rewrite Z_mod_plus_full. apply Z.mod_small. lia. }
    replace (x + 2 ^ 64 <? 2 ^ 63) with false by (symmetry; apply Z.ltb_ge; lia). lia.
  - rewrite Z.mod_small by lia.
    replace (x <? 2 ^ 63) with true by (symmetry; apply Z.ltb_lt; lia). reflexivity.
Qed.

Lemma iterator_ok_unique (a : address) (c : sparse_vector T) (it it' : const_iterator) :
  iterator_ok a c it -> iterator_ok a c it' -> index it = index it' -> it = it'.
Proof.
  intros (H1 & _ & H3) (H1' & _ & H3') Hi.
  destruct it as [c1 i1 r1], it' as [c2 i2 r2]. simpl in *. subst. reflexivity.
Qed.

Lemma current_range_bound (a : address) (c : sparse_vector T) (it : const_iterator) :
  iterator_ok a c it -> (currentRange it <= length (ranges c))%nat.
Proof.
  intros (_ & _ & Hcr).
  destruct (first_ending_after_spec (index it) (ranges c)) as (pre & post & Ers & Hlen & _).
  rewrite Hcr, Hlen, Ers, length_app. lia.
Qed.

(** An iterator moved within the range it stands in keeps a consistent
    state. *)
Lemma stay_in_range_ok (a : address) (c : sparse_vector T) (it : const_iterator) (k : Z) :
  canonical 0 c -> iterator_ok a c it -> 0 <= k < size_modulus ->
  Nat.eqb (currentRange it) (length (ranges c))
  || negb (includes (range_at (ranges c) (currentRange it)) k) = false ->
  iterator_ok a c (ConstIterator (cont it) k (currentRange it))
  /\ k < vec_size c.
Proof.
  intros Hc Hit Hk Hcond. split.
  - set (delta := if k - index it =? 1 then 1 + size_modulus else k - index it).
    pose proof Hit as (Hcont & Hidx & _).
    assert ((delta =? 1) = false) as Hd.
    { unfold delta. destruct (Z.eqb_spec (k - index it) 1); apply Z.eqb_neq;
        unfold size_modulus in *; lia. }
    assert (wrap (index it + delta) = k) as Hw.
    { unfold delta, wrap. destruct (Z.eqb_spec (k - index it) 1).
      - replace (index it + (1 + size_modulus)) with (k + 1 * size_modulus) by lia.
        rewrite Z_mod_plus_full. apply Z.mod_small. exact Hk.
      - replace (index it + (k - index it)) with k by lia. apply Z.mod_small. exact Hk. }
    apply (plus_assign_ok a c it _ delta Hc Hit).
    unfold plus_assign. rewrite Hd, Hcont. simpl index. simpl currentRange.
    rewrite Hw, Hcond. reflexivity.
  - apply orb_false_iff in Hcond. destruct Hcond as [E1 E2].
    apply Nat.eqb_neq in E1. apply negb_false_iff in E2. apply includes_iff in E2.
    pose proof (current_range_bound a c it Hit) as Hb.
    destruct Hc as [_ Hlay].
    assert (In (range_at (ranges c) (currentRange it)) (ranges c)) as Hin
        by (apply nth_In; lia).
    pose proof (laid_out_In 0 _ _ _ _ ltac:(lia) Hlay Hin). unfold vec_size. lia.
Qed.

(** Where [operator+=] and [operator+] lead. *)
Lemma plus_assign_index (a : address) (c : sparse_vector T) (it : const_iterator)
      (delta : Z) :
  canonical 0 c -> iterator_ok a c it ->
  delta <> 1 \/ index it < vec_size c ->
  0 <= index it + delta < size_modulus ->
  exists it',
    plus_assign c it delta = Ret it' /\ iterator_ok a c it'
    /\ index it' = index it + delta.
Proof.
  intros Hc Hit Hd Hk. pose proof Hit as (Hcont & Hidx & Hcr).
  destruct (plus_assign c it delta) as [it'| |] eqn:E.
  - exists it'. split; [reflexivity|].
    split; [apply (plus_assign_ok a c it it' delta); assumption|].
    revert E. unfold plus_assign. destruct (Z.eqb_spec delta 1) as [->|Hne].
    + intros [= <-]. unfold increment. rewrite Hcont.
      replace (vec_size c <=? index it) with false by (symmetry; apply Z.leb_gt; lia).
      rewrite wrap_small by lia.
      destruct (negb _ && _); reflexivity.
    + rewrite Hcont. simpl index. simpl currentRange. rewrite wrap_small by lia.
      destruct (_ || _); intros [= <-]; [|reflexivity].
      unfold refresh_state. simpl cont. simpl index. destruct (negb _ && _); reflexivity.
  - exfalso. revert E. unfold plus_assign. destruct (delta =? 1); [discriminate|].
    rewrite Hcont. destruct (_ || _); discriminate.
  - exfalso. revert E. unfold plus_assign. destruct (delta =? 1); [discriminate|].
    rewrite Hcont. destruct (_ || _); discriminate.
Qed.

Lemma iterator_plus_index (a : address) (c : sparse_vector T) (it : const_iterator)
      (delta : Z) :
  canonical 0 c -> iterator_ok a c it ->
  0 <= index it + delta < size_modulus ->
  exists it',
    iterator_plus c it delta = Ret it' /\ iterator_ok a c it'
    /\ index it' = Z.min (index it + delta) (vec_size c).
Proof.
  intros Hc Hit Hk. pose proof Hit as (Hcont & Hidx & Hcr).
  unfold iterator_plus. rewrite Hcont. cbv zeta. rewrite wrap_small by lia.
  destruct (Nat.eqb (currentRange it) (length (ranges c))
            || negb (includes (range_at (ranges c) (currentRange it)) (index it + delta)))
    eqn:E.
  - eexists. split; [reflexivity|]. split; [apply ctor_ok; assumption|].
    apply ctor_index.
  - destruct (stay_in_range_ok a c it (index it + delta) Hc Hit Hk E) as [Hok Hlt].
    rewrite Hcont in Hok.
    eexists. split; [reflexivity|]. split; [exact Hok|]. simpl. lia.
Qed.

(** X21.  Walking a vector.  On a vector whose ranges do not overlap, the
    iterator obtained from [begin()] by [n] increments, for [n] up to the
    size, is the iterator [const_iterator(v, n)]: its index is [n], it
    dereferences to what [operator[]] reads at [n], and it equals [end()]
    exactly when [n] is the size. *)
Theorem increments_from_begin (a : address) (v : sparse_vector T) (n : nat) :
  canonical 0 v -> Z.of_nat n <= vec_size v ->
  let it := Nat.iter n (increment v) (cbegin a v) in
  it = const_iterator_ctor a v (Z.of_nat n)
  /\ index it = Z.of_nat n
  /\ dereference v it = Ret (get v (Z.of_nat n))
  /\ (iterator_eqb it (cend a v) = true <-> Z.of_nat n = vec_size v).
Proof.
  intros Hc Hn. cbv zeta. pose proof Hc as [Hsize _].
  assert (iterator_ok a v (Nat.iter n (increment v) (cbegin a v))
          /\ index (Nat.iter n (increment v) (cbegin a v)) = Z.of_nat n) as [Hok Hidx].
  { induction n as [|n IH].
    - split; [apply cbegin_ok; exact Hc | reflexivity].
    - destruct IH as [Hok Hidx]; [lia|].
      change (Nat.iter (S n) (increment v) (cbegin a v))
        with (increment v (Nat.iter n (increment v) (cbegin a v))).
      set (it0 := Nat.iter n (increment v) (cbegin a v)) in *.
      split; [apply increment_ok; assumption|].
      destruct Hok as (Hcont & _ & _). unfold increment. rewrite Hcont, Hidx.
      replace (vec_size v <=? Z.of_nat n) with false by (symmetry; apply Z.leb_gt; lia).
      unfold vec_size in *. rewrite wrap_small by lia.
      destruct (negb _ && _); simpl; lia. }
  split; [|split; [exact Hidx|split]].
  - apply (iterator_ok_unique a v); [exact Hok | apply ctor_ok; unfold vec_size in *; try lia;
                                     assumption |].
    rewrite ctor_index, Hidx. lia.
  - rewrite (dereference_cell a v _ Hc Hok), Hidx.
    rewrite (get_canonical 0) by (try assumption; lia). reflexivity.
  - destruct Hok as (Hcont & _ & _). unfold iterator_eqb, cend. rewrite Hcont.
    cbn [cont index]. rewrite Nat.eqb_refl, Hidx. simpl andb. apply Z.eqb_eq.
Qed.

(** X22.  [operator+] and [operator+=].  For an iterator obtained from the
    vector and a step that leads to an index within [size_type]: as long
    as the target is not beyond the size, [it + delta] and [it += delta]
    are the same iterator, namely [const_iterator(v, index + delta)];
    beyond the size [it + delta] is [end()], while [it += delta] (for a
    step other than one) carries the index past the size and is different
    from [end()]. *)
Theorem plus_and_plus_assign (a : address) (v : sparse_vector T) (it : const_iterator)
        (delta : Z) :
  canonical 0 v -> reachable a v it -> 0 <= index it + delta < size_modulus ->
  exists it1,
    iterator_plus v it delta = Ret it1
    /\ index it1 = Z.min (index it + delta) (vec_size v)
    /\ (index it + delta <= vec_size v ->
          plus_assign v it delta = Ret it1
          /\ it1 = const_iterator_ctor a v (index it + delta))
    /\ (vec_size v < index it + delta ->
          it1 = cend a v
          /\ (delta <> 1 ->
                exists it2,
                  plus_assign v it delta = Ret it2
                  /\ index it2 = index it + delta
                  /\ iterator_eqb it2 (cend a v) = false)).
Proof.
  intros Hc Hr Hk. pose proof (reachable_ok a v it Hc Hr) as Hit.
  destruct (iterator_plus_index a v it delta Hc Hit Hk) as (it1 & E1 & Hok1 & Hi1).
  exists it1. split; [exact E1|]. split; [exact Hi1|]. split.
  - intros Hle. split.
    + assert (delta <> 1 \/ index it < vec_size v) as Hd.
      { destruct (Z.eq_dec delta 1); [right; lia | left; assumption]. }
      destruct (plus_assign_index a v it delta Hc Hit Hd Hk) as (it2 & E2 & Hok2 & Hi2).
      rewrite E2. f_equal. apply (iterator_ok_unique a v); try assumption. lia.
    + apply (iterator_ok_unique a v); [exact Hok1 | apply ctor_ok; assumption|].
      rewrite ctor_index. lia.
  - intros Hgt. split.
    + apply (iterator_ok_unique a v); [exact Hok1 | apply cend_ok; exact Hc|].
      simpl. lia.
    + intros Hd.
      destruct (plus_assign_index a v it delta Hc Hit (or_introl Hd) Hk)
        as (it2 & E2 & Hok2 & Hi2).
      exists it2. split; [exact E2|]. split; [exact Hi2|].
      destruct Hok2 as (Hcont & _ & _). unfold iterator_eqb, cend. rewrite Hcont.
      cbn [cont index]. rewrite Nat.eqb_refl. simpl andb.
      apply Z.eqb_neq. lia.
Qed.

(** X23.  The distance operator.  For two iterators obtained from a vector
    shorter than [2^63] and standing within it, [it1 - it2] is the
    difference of their indices, so that [end() - begin()] is the size;
    for an iterator of another container it throws [runtime_error]. *)
Theorem distance_of_iterators (a : address) (v : sparse_vector T)
        (it1 it2 : const_iterator) :
  canonical 0 v -> vec_size v < 2 ^ 63 ->
  reachable a v it1 -> reachable a v it2 ->
  index it1 <= vec_size v -> index it2 <= vec_size v ->
  distance it1 it2 = Ret (index it1 - index it2)
  /\ distance (cend a v) (cbegin a v) = Ret (vec_size v)
  /\ (forall alien : const_iterator,
        cont alien <> Some a ->
        distance it1 alien = Throw runtime_error
        /\ distance alien it1 = Throw runtime_error).
Proof.
  intros Hc Hsize Hr1 Hr2 H1 H2. pose proof Hc as [Hn _].
  destruct (reachable_ok a v it1 Hc Hr1) as (Hc1 & Hi1 & _).
  destruct (reachable_ok a v it2 Hc Hr2) as (Hc2 & Hi2 & _).
  pose proof to_signed_wrap as Hsigned.
  unfold vec_size in *. split; [|split].
  - unfold distance, same_cont. rewrite Hc1, Hc2, Nat.eqb_refl.
    rewrite Hsigned by lia. reflexivity.
  - unfold distance, same_cont, cend, cbegin. cbn [cont index].
    rewrite Nat.eqb_refl, Z.sub_0_r. rewrite Hsigned by (unfold vec_size; lia).
    reflexivity.
  - intros alien Halien. unfold distance, same_cont. rewrite Hc1.
    destruct (cont alien) as [a'|]; [|split; reflexivity].
    destruct (Nat.eqb_spec a a') as [->|Hne]; [contradiction Halien; reflexivity|].
    replace (Nat.eqb a' a) with false by (symmetry; apply Nat.eqb_neq; congruence).
    split; reflexivity.
Qed.

(** X24.  Stepping back.  For an iterator obtained from the vector and a
    step [0 <= delta] that does not lead beyond the size, [it += delta]
    followed by [-= delta] of [const_iterator] gives the iterator back, and
    so does [operator-(delta)] applied to the advanced iterator. *)
Theorem minus_assign_undoes_plus_assign (a : address) (v : sparse_vector T)
        (it : const_iterator) (delta : Z) :
  canonical 0 v -> reachable a v it ->
  0 <= delta < 2 ^ 63 -> index it + delta <= vec_size v ->
  exists it',
    plus_assign v it delta = Ret it'
    /\ index it' = index it + delta
    /\ minus_assign v it' delta = Ret it
    /\ iterator_minus v it' delta = Ret it.
Proof.
  intros Hc Hr Hd Hle. pose proof Hc as [Hn _].
  pose proof (reachable_ok a v it Hc Hr) as Hit. pose proof Hit as (Hcont & Hidx & _).
  unfold vec_size in *.
  assert (delta <> 1 \/ index it < vec_size v) as Hd1.
  { unfold vec_size. destruct (Z.eq_dec delta 1); [right; lia | left; assumption]. }
  destruct (plus_assign_index a v it delta Hc Hit Hd1 ltac:(lia)) as (it' & E & Hok' & Hi').
  exists it'. split; [exact E|]. split; [exact Hi'|].
  assert ((delta =? difference_min) = false) as Hmin
      by (apply Z.eqb_neq; unfold difference_min; lia).
  unfold minus_assign, iterator_minus. rewrite Hmin. split.
  - destruct (plus_assign_index a v it' (- delta) Hc Hok' ltac:(left; lia) ltac:(lia))
      as (it2 & E2 & Hok2 & Hi2).
    rewrite E2. f_equal. apply (iterator_ok_unique a v); try assumption. lia.
  - destruct (iterator_plus_index a v it' (- delta) Hc Hok' ltac:(lia))
      as (it2 & E2 & Hok2 & Hi2).
    rewrite E2. f_equal. apply (iterator_ok_unique a v); try assumption.
    unfold vec_size in *. lia.
Qed.

(** X25.  [operator-=] of the mutable [iterator] calls
    [const_iterator::operator+=] with the same step, so that it moves
    forward: after [it -= delta] with a step of two or more, the iterator
    stands at [index + delta] and dereferences to what [operator[]] reads
    there. *)
Theorem iterator_minus_assign_moves_forward (a : address) (v : sparse_vector T)
        (it : const_iterator) (delta : Z) :
  canonical 0 v -> reachable a v it ->
  2 <= delta -> index it + delta < size_modulus ->
  exists it',
    iterator_minus_assign v it delta = Ret it'
    /\ index it' = index it + delta
    /\ dereference v it' = Ret (get v (index it + delta)).
Proof.
  intros Hc Hr Hd Hk. pose proof (reachable_ok a v it Hc Hr) as Hit.
  pose proof Hit as (_ & Hidx & _).
  destruct (plus_assign_index a v it delta Hc Hit ltac:(left; lia) ltac:(lia))
    as (it' & E & Hok' & Hi').
  exists it'. split; [exact E|]. split; [exact Hi'|].
  rewrite (dereference_cell a v it' Hc Hok'), Hi'.
  rewrite (get_canonical 0) by (try assumption; lia). reflexivity.
Qed.

(** X26.  The comparison operators of the iterators.  [!=] is the negation
    of [==], [<=] and [>=] are [<] and [>] weakened by [==], and [>] is [<]
    with the operands exchanged; two iterators that do not hold the same
    container pointer are unequal and in no order at all, and two that do
    are ordered by their indices. *)
Theorem iterator_comparisons (x y : const_iterator) :
  iterator_neqb x y = negb (iterator_eqb x y)
  /\ iterator_leb x y = iterator_ltb x y || iterator_eqb x y
  /\ iterator_geb x y = iterator_gtb x y || iterator_eqb x y
  /\ iterator_gtb x y = iterator_ltb y x
  /\ (if same_cont x y
      then iterator_ltb x y = (index x <? index y)
           /\ iterator_eqb x y = (index x =? index y)
           /\ iterator_gtb x y = (index y <? index x)
      else iterator_eqb x y = false /\ iterator_neqb x y = true
           /\ iterator_ltb x y = false /\ iterator_gtb x y = false
           /\ iterator_leb x y = false /\ iterator_geb x y = false).
Proof.
  unfold iterator_neqb, iterator_eqb, iterator_leb, iterator_geb, iterator_ltb,
    iterator_gtb, same_cont.
  destruct (cont x) as [cx|], (cont y) as [cy|]; simpl;
    try (rewrite (Nat.eqb_sym cy cx)); try destruct (Nat.eqb cx cy); simpl;
    repeat split; try reflexivity;
    destruct (Z.ltb_spec (index x) (index y)), (Z.eqb_spec (index x) (index y)),
      (Z.leb_spec (index x) (index y)), (Z.ltb_spec (index y) (index x)),
      (Z.leb_spec (index y) (index x)); simpl; try reflexivity; lia.
Qed.

(** ** Ranges of indices and ranges of data *)

(** X27.  The relations of [range_t].  [overlap] and [separate] are
    symmetric and exclude each other; two valid ranges neither overlap nor
    are separate exactly when one ends where the other begins.
    [includes(const range_t&)] asks for the end index of the other range to
    be inside, so that no range includes itself.  The constructor always
    builds a valid range, empty when [to] is not after [from], and
    [resize(n)] followed by [size()] gives [n] back even when the end index
    wraps around. *)
Theorem range_relations (a b : range_t) (from to n : Z) :
  overlap a b = overlap b a
  /\ separate a b = separate b a
  /\ (overlap a b = true -> separate a b = false)
  /\ (range_is_valid a = true -> range_is_valid b = true ->
      (overlap a b = false /\ separate a b = false
       <-> last a = offset b \/ last b = offset a))
  /\ includes_range a a = false
  /\ (includes_range a b = true -> offset a <= offset b /\ last b < last a)
  /\ range_is_valid (range_ctor from to) = true
  /\ (empty (range_ctor from to) = true <-> to <= from)
  /\ size (range_resize a n) = wrap n.
Proof.
  unfold overlap, separate, range_is_valid, includes_range, includes, empty, range_ctor,
    begin_index, end_index. simpl.
  split; [apply andb_comm|]. split; [apply orb_comm|]. split; [|split; [|split; [|split]]].
  - rewrite andb_true_iff, orb_false_iff, !Z.ltb_lt, !Z.ltb_ge. lia.
  - rewrite !Z.leb_le, andb_false_iff, orb_false_iff, !Z.ltb_ge. lia.
  - apply andb_false_iff. right. apply andb_false_iff. right. apply Z.ltb_ge. lia.
  - rewrite !andb_true_iff, !Z.leb_le, !Z.ltb_lt. lia.
  - split; [apply Z.leb_le; lia|]. split; [rewrite Z.leb_le; lia|].
    unfold size, range_resize, wrap. simpl.
    rewrite Zminus_mod_idemp_l. f_equal. lia.
Qed.

(** [move_head] towards lower indices puts [def_value] in front. *)
Lemma move_head_grow (r : datarange_t T) (to : Z) (d : T) :
  range_ok r -> 0 <= to < offset r -> last r < size_modulus -> offset r - to < 2 ^ 63 ->
  move_head r to d =
    DataRange (Range to (last r)) (repeat d (Z.to_nat (offset r - to)) ++ values r).
Proof.
  intros Hok Hto Hl Hd. unfold move_head, begin_index.
  rewrite to_signed_wrap by lia.
  replace (to - offset r =? 0) with false by (symmetry; apply Z.eqb_neq; lia).
  replace (0 <? to - offset r) with false by (symmetry; apply Z.ltb_ge; lia).
  unfold range_move_head. rewrite wrap_small by (unfold range_ok, vsize in Hok; lia).
  f_equal; [f_equal; lia|]. do 2 f_equal. lia.
Qed.

(** X28.  The operations of [datarange_t] on a range that is as long as
    its data and lies within [size_type].  [extend(index, first, last)]
    from an index inside the range or at its end keeps the begin, moves
    the end to [max(end, index + n)] and writes the input from [index] on,
    the other values staying.  [move_tail(to)] and [move_head(to)] set the
    end, respectively the begin, of the range to [to]: values are dropped
    on that side when the range shrinks, and [def_value] is added on that
    side when it grows. *)
Theorem datarange_operations (r : datarange_t T) (idx to : Z) (data : list T) (d : T) :
  range_ok r -> 0 <= offset r -> last r < size_modulus ->
  (offset r <= idx <= last r -> idx + vsize data < size_modulus ->
     extend r idx data
     = DataRange (Range (offset r) (Z.max (idx + vsize data) (last r)))
                 (copy_into data (Z.to_nat (idx - offset r)) (values r))
     /\ range_ok (extend r idx data)
     /\ forall k, offset r <= k < Z.max (idx + vsize data) (last r) ->
          datarange_get (extend r idx data) k =
            if (idx <=? k) && (k <? idx + vsize data)
            then nth (Z.to_nat (k - idx)) data value_zero
            else datarange_get r k)
  /\ (offset r <= to < size_modulus ->
        move_tail r to d
        = DataRange (Range (offset r) to)
                    (if to <=? last r
                     then firstn (Z.to_nat (to - offset r)) (values r)
                     else values r ++ repeat d (Z.to_nat (to - last r)))
        /\ range_ok (move_tail r to d))
  /\ (0 <= to <= last r -> - 2 ^ 63 < to - offset r < 2 ^ 63 ->
        move_head r to d
        = DataRange (Range to (last r))
                    (if offset r <=? to
                     then skipn (Z.to_nat (to - offset r)) (values r)
                     else repeat d (Z.to_nat (offset r - to)) ++ values r)
        /\ range_ok (move_head r to d)).
Proof.
  intros Hok Ho Hl. pose proof Hok as Hok'. unfold range_ok, vsize in Hok'.
  split; [|split].
  - intros Hidx Hend.
    assert (Z.max (idx + vsize data) (last r) < size_modulus) as Hmax by lia.
    split; [apply extend_spec; assumption|].
    destruct (range_ok_extend r idx data Hok Ho Hidx Hmax) as (Hok2 & Ho2 & Hl2).
    split; [exact Hok2|]. intros k Hk.
    rewrite datarange_get_peek by lia.
    rewrite peek_extend by (try assumption; lia).
    rewrite (datarange_get_peek r k) by lia. reflexivity.
  - intros Hto. destruct (Z.leb_spec to (last r)) as [Hshrink|Hgrow].
    + rewrite move_tail_spec by (try assumption; lia).
      split; [reflexivity|]. unfold range_ok, vsize. simpl. rewrite length_firstn. lia.
    + unfold move_tail, relative_index. rewrite datarange_resize_grow by (try assumption; lia).
      split; [reflexivity|]. unfold range_ok, vsize. simpl.
      rewrite length_app, repeat_length. lia.
  - intros Hto Hd. destruct (Z.leb_spec (offset r) to) as [Hshrink|Hgrow].
    + destruct (Z.eq_dec to (offset r)) as [->|Hne].
      * unfold move_head, begin_index. rewrite Z.sub_diag.
        replace (to_signed (wrap 0) =? 0) with true by reflexivity.
        rewrite Z2Nat.inj_0. simpl skipn.
        split; [destruct r as [[o l] vals]; reflexivity | exact Hok].
      * rewrite move_head_spec by (try assumption; lia).
        split; [reflexivity|]. unfold range_ok, vsize. simpl. rewrite length_skipn. lia.
    + rewrite move_head_grow by (try assumption; lia).
      split; [reflexivity|]. unfold range_ok, vsize. simpl.
      rewrite length_app, repeat_length. lia.
Qed.

End Properties.

(** ** The claims on a vector of integers *)

Lemma example_vector_canonical : canonical 1 example_vector.
Proof.
  unfold canonical, example_vector, range_ok, vsize, size_modulus. simpl.
  repeat split; lia.
Qed.

Lemma C2_witness :
  canonical 0 example_vector
  /\ 0 <= 4 <= vec_size example_vector
  /\ dereference example_vector (const_iterator_ctor 0%nat example_vector 4)
     = Ret (get example_vector 4).
Proof.
  assert (canonical 0 example_vector) as Hc.
  { unfold canonical, example_vector, range_ok, vsize, size_modulus. simpl.
    repeat split; lia. }
  assert (0 <= 4 <= vec_size example_vector) as Hi by (simpl; lia).
  assert (0 <= 4 < size_modulus) as Hs by (unfold size_modulus; lia).
  split; [exact Hc|]. split; [exact Hi|].
  exact (proj1 (C2_dereference_agrees_with_indexing 0%nat example_vector
                  (const_iterator_ctor 0%nat example_vector 4) 4
                  Hc (reach_ctor 0%nat example_vector 4 Hs) eq_refl Hi)).
Defined.

Lemma C4_witness :
  canonical 0 example_vector
  /\ exists v1 v2,
      add_range example_vector 5 [10; 20; 30] = Ret v1
      /\ add_range v1 6 [7; 8] = Ret v2
      /\ get v2 7 = nth (Z.to_nat (7 - 6)) [7; 8] 0.
Proof.
  assert (canonical 0 example_vector) as Hc.
  { unfold canonical, example_vector, range_ok, vsize, size_modulus. simpl.
    repeat split; lia. }
  assert (5 + vsize [10; 20; 30] < size_modulus) as HA
      by (unfold vsize, size_modulus; simpl; lia).
  assert (6 + vsize [7; 8] < size_modulus) as HB
      by (unfold vsize, size_modulus; simpl; lia).
  assert (5 <= 7 < 5 + vsize [10; 20; 30]) as HkA by (unfold vsize; simpl; lia).
  assert (6 <= 7 < 6 + vsize [7; 8]) as HkB by (unfold vsize; simpl; lia).
  split; [exact Hc|].
  exact (C4_later_add_range_wins example_vector 5 6 [10; 20; 30] [7; 8] 7 Hc
           ltac:(lia) HA ltac:(lia) HB HkA HkB).
Defined.


Lemma C9_witness :
  0 <= vec_size example_vector < size_modulus
  /\ index (increment example_vector (cend 0%nat example_vector))
     <= vec_size example_vector.
Proof.
  assert (0 <= vec_size example_vector < size_modulus) as Hn
      by (unfold size_modulus; simpl; lia).
  assert (0 <= index (cend 0%nat example_vector) <= vec_size example_vector) as Hit
      by (simpl; lia).
  split; [exact Hn|].
  exact (proj2 (proj1 (proj2 (C9_increment_stays_within_size 0%nat example_vector Hn))
                  (cend 0%nat example_vector) Hit)).
Defined.

Lemma C10_witness :
  (forall r, In r (ranges example_vector) -> includes r 6 = false)
  /\ const_reference_value example_vector (get_reference example_vector 6) = Ret 0.
Proof.
  assert (forall r, In r (ranges example_vector) -> includes r 6 = false) as Hvoid.
  { simpl. intros r [<-|[<-|[]]]; reflexivity. }
  split; [exact Hvoid|].
  exact (proj1 (proj2 (C10_reference_to_a_void_cell example_vector 6 Hvoid))).
Defined.

(** C10 as it was stated does not hold: on the void cell 3 of a vector of
    size 10 the explicit conversion of the proxy to [value_type&] is
    undefined, and it is not an assignment. *)
Lemma C10_counterexample :
  ~ (forall (v : sparse_vector Z) (k : Z),
        0 <= k < vec_size v ->
        (forall r, In r (ranges v) -> includes r k = false) ->
        forall u : reference_use Z,
          use_defined v (get_reference v k) u = false -> is_assignment u = true).
Proof.
  intros H.
  specialize (H (SparseVector 10 []) 3 ltac:(simpl; lia) ltac:(intros r [])
                to_lvalue eq_refl).
  discriminate H.
Qed.

(** ** The further properties on a vector of integers *)

Lemma add_range_then_get_witness :
  canonical 1 example_vector /\ [10; 20; 30] <> []
  /\ 0 <= 5 /\ 5 + vsize [10; 20; 30] < size_modulus
  /\ exists v',
      add_range example_vector 5 [10; 20; 30] = Ret v'
      /\ is_valid v' = true /\ get v' 6 = 20 /\ get v' 3 = get example_vector 3.
Proof.
  pose proof example_vector_canonical as Hc.
  assert ([10; 20; 30] <> []) as Hd by discriminate.
  assert (0 <= 5) as Ho by lia.
  assert (5 + vsize [10; 20; 30] < size_modulus) as Hend by reflexivity.
  destruct (add_range_then_get example_vector 5 [10; 20; 30] Hc Hd Ho Hend)
    as (v' & E & _ & Hv & _ & Hin & Hout).
  split; [exact Hc|]. split; [exact Hd|]. split; [exact Ho|]. split; [exact Hend|].
  exists v'. split; [exact E|]. split; [exact Hv|]. split.
  - exact (proj1 (Hin 1%nat ltac:(simpl; lia))).
  - exact (proj1 (Hout 3 ltac:(left; lia))).
Defined.

Lemma set_at_then_get_witness :
  canonical 1 example_vector /\ 0 <= 6 /\ 6 + 1 < size_modulus
  /\ exists v',
      set_at example_vector 6 9 = Ret v' /\ is_valid v' = true /\ get v' 6 = 9.
Proof.
  pose proof example_vector_canonical as Hc.
  assert (0 <= 6) as Hk by lia.
  assert (6 + 1 < size_modulus) as Hend by reflexivity.
  destruct (set_at_then_get example_vector 6 9 Hc Hk Hend)
    as (v' & E & _ & Hv & _ & Hget & _).
  split; [exact Hc|]. split; [exact Hk|]. split; [exact Hend|].
  exists v'. split; [exact E|]. split; [exact Hv | exact Hget].
Defined.

Lemma unset_at_makes_void_witness :
  canonical 1 example_vector /\ 0 <= 4
  /\ unset_at_with_capacity 2 example_vector 4 = Undefined
  /\ exists v',
      unset_at_with_capacity 3 example_vector 4 = Ret v'
      /\ is_valid v' = true /\ get v' 4 = 0 /\ get v' 5 = 3.
Proof.
  pose proof example_vector_canonical as Hc.
  assert (0 <= 4) as Hk by lia.
  split; [exact Hc|]. split; [exact Hk|]. split.
  - exact (unset_at_makes_void 2 example_vector 4 Hc Hk).
  - assert (exists v',
               unset_at_with_capacity 3 example_vector 4 = Ret v'
               /\ canonical 1 v' /\ is_valid v' = true
               /\ vec_size v' = vec_size example_vector
               /\ cell (ranges v') 4 = None
               /\ get v' 4 = value_zero
               /\ (forall j, j <> 4 ->
                     get v' j = get example_vector j
                     /\ cell (ranges v') j = cell (ranges example_vector) j)
               /\ (cell (ranges example_vector) 4 = None -> v' = example_vector)) as H
        by exact (unset_at_makes_void 3 example_vector 4 Hc Hk).
    destruct H as (v' & E & _ & Hv & _ & _ & Hget & Hrest & _).
    exists v'. split; [exact E|]. split; [exact Hv|]. split; [exact Hget|].
    exact (proj1 (Hrest 5 ltac:(lia))).
Defined.

Lemma append_then_get_witness :
  canonical 1 example_vector /\ [7; 8] <> []
  /\ vec_size example_vector + vsize [7; 8] < size_modulus
  /\ exists v',
      append example_vector [7; 8] = Ret v' /\ vec_size v' = 12 /\ get v' 11 = 8.
Proof.
  pose proof example_vector_canonical as Hc.
  assert ([7; 8] <> []) as Hd by discriminate.
  assert (vec_size example_vector + vsize [7; 8] < size_modulus) as Hend by reflexivity.
  destruct (append_then_get example_vector [7; 8] Hc Hd Hend)
    as (v' & E & _ & _ & Hs & _ & Hin & _).
  split; [exact Hc|]. split; [exact Hd|]. split; [exact Hend|].
  exists v'. split; [exact E|]. split; [exact Hs|].
  exact (Hin 1%nat ltac:(simpl; lia)).
Defined.

Lemma resize_keeps_lower_cells_witness :
  canonical 1 example_vector /\ 0 <= 5 < size_modulus
  /\ vec_size (resize example_vector 5) = 5
  /\ get (resize example_vector 5) 4 = get example_vector 4
  /\ get (resize example_vector 5) 5 = 0.
Proof.
  pose proof example_vector_canonical as Hc.
  assert (0 <= 5 < size_modulus) as Hn by (split; [lia | reflexivity]).
  destruct (resize_keeps_lower_cells example_vector 5 Hc Hn) as (_ & _ & Hs & _ & Hget).
  split; [exact Hc|]. split; [exact Hn|]. split; [exact Hs|].
  split; [exact (Hget 4) | exact (Hget 5)].
Defined.

Lemma resize_with_value_fills_witness :
  canonical 1 example_vector /\ 0 <= 12 < size_modulus
  /\ exists v',
      resize_fill example_vector 12 7 = Ret v' /\ vec_size v' = 12 /\ get v' 11 = 7.
Proof.
  pose proof example_vector_canonical as Hc.
  assert (0 <= 12 < size_modulus) as Hn by (split; [lia | reflexivity]).
  destruct (resize_with_value_fills example_vector 12 7 Hc Hn)
    as (v' & E & _ & _ & Hs & Hnew & _).
  split; [exact Hc|]. split; [exact Hn|].
  exists v'. split; [exact E|]. split; [exact Hs|].
  exact (proj1 (Hnew 11 ltac:(simpl; lia))).
Defined.

Lemma push_back_then_get_witness :
  canonical 1 example_vector /\ vec_size example_vector + 1 < size_modulus
  /\ exists v',
      push_back example_vector 0 = Ret v'
      /\ vec_size v' = 11 /\ get v' 10 = 0 /\ is_void v' 10 = Ret false.
Proof.
  pose proof example_vector_canonical as Hc.
  assert (vec_size example_vector + 1 < size_modulus) as Hend by reflexivity.
  destruct (push_back_then_get example_vector 0 Hc Hend)
    as (v' & E & _ & _ & Hs & Hget & Hvoid & _).
  split; [exact Hc|]. split; [exact Hend|].
  exists v'. split; [exact E|]. split; [exact Hs|]. split; [exact Hget | exact Hvoid].
Defined.


Lemma add_range_of_nothing_witness :
  canonical 1 example_vector /\ 0 <= 10 < size_modulus
  /\ add_range example_vector 10 [] = Undefined
  /\ append example_vector [] = Undefined.
Proof.
  pose proof example_vector_canonical as Hc.
  assert (0 <= 10 < size_modulus) as Ho by (split; [lia | reflexivity]).
  split; [exact Hc|]. split; [exact Ho|].
  exact (add_range_of_nothing example_vector 10 Hc Ho).
Defined.

Lemma assign_replaces_the_content_witness :
  vsize [1; 2] < size_modulus
  /\ exists v',
      vec_assign example_vector [1; 2] = Ret v'
      /\ vec_size v' = 2
      /\ ranges v' = [DataRange (Range 0 2) [1; 2]]
      /\ is_valid v' = true
      /\ forall i : nat, get v' (Z.of_nat i) = nth i [1; 2] 0.
Proof.
  assert (vsize [1; 2] < size_modulus) as Hlen by reflexivity.
  split; [exact Hlen|].
  exact (assign_replaces_the_content example_vector [1; 2] Hlen).
Defined.

Lemma constructed_vectors_witness :
  0 <= 4 /\ [1; 2] <> [] /\ 0 <= 3 /\ 3 + vsize [1; 2] < size_modulus
  /\ sparse_vector_sized 4 = SparseVector (T := Z) 4 []
  /\ exists v', sparse_vector_from [1; 2] 3 = Ret v' /\ vec_size v' = 5 /\ get v' 4 = 2.
Proof.
  assert (0 <= 4) as Hn by lia.
  assert ([1; 2] <> []) as Hd by discriminate.
  assert (0 <= 3) as Ho by lia.
  assert (3 + vsize [1; 2] < size_modulus) as Hend by reflexivity.
  destruct (constructed_vectors 4 [1; 2] 3 Hn Hd Ho Hend)
    as (Hsized & v' & E & Hs & _ & _ & Hget & _).
  split; [exact Hn|]. split; [exact Hd|]. split; [exact Ho|]. split; [exact Hend|].
  split; [exact Hsized|]. exists v'. split; [exact E|]. split; [exact Hs|].
  exact (Hget 1%nat).
Defined.

Lemma is_valid_iff_canonical_witness :
  Forall range_ok (ranges example_vector)
  /\ Forall (fun r : datarange_t Z => 0 <= offset r) (ranges example_vector)
  /\ 0 <= nominal_size example_vector < size_modulus
  /\ (is_valid example_vector = true <-> canonical 1 example_vector).
Proof.
  assert (Forall range_ok (ranges example_vector)) as Hok
      by (repeat constructor).
  assert (Forall (fun r : datarange_t Z => 0 <= offset r) (ranges example_vector)) as Hpos
      by (repeat constructor; simpl; lia).
  assert (0 <= nominal_size example_vector < size_modulus) as Hn
      by (split; [simpl; lia | reflexivity]).
  split; [exact Hok|]. split; [exact Hpos|]. split; [exact Hn|].
  exact (is_valid_iff_canonical example_vector Hok Hpos Hn).
Defined.

Lemma is_void_behaviour_witness :
  canonical 0 example_vector
  /\ is_void example_vector 6 = Ret (negb (occupied (ranges example_vector) 6))
  /\ is_void example_vector 6 = Ret true.
Proof.
  pose proof (canonical_weaken example_vector example_vector_canonical) as Hc.
  destruct (is_void_behaviour example_vector 6 Hc) as (_ & Hret & _).
  split; [exact Hc|].
  split; [exact (proj2 (Hret ltac:(discriminate) ltac:(simpl; lia))) | reflexivity].
Defined.

Lemma count_counts_cells_witness :
  canonical 0 example_vector
  /\ count example_vector
     = Z.of_nat (cells_in_use (ranges example_vector) (Z.to_nat (vec_size example_vector)))
  /\ 0 <= count example_vector <= vec_size example_vector.
Proof.
  pose proof (canonical_weaken example_vector example_vector_canonical) as Hc.
  split; [exact Hc|]. exact (count_counts_cells example_vector Hc).
Defined.

Lemma back_is_void_iff_last_cell_void_witness :
  canonical 1 example_vector /\ 0 < vec_size example_vector
  /\ (back_is_void example_vector = true
      <-> cell (ranges example_vector) (vec_size example_vector - 1) = None).
Proof.
  pose proof example_vector_canonical as Hc.
  assert (0 < vec_size example_vector) as Hpos by reflexivity.
  split; [exact Hc|]. split; [exact Hpos|].
  exact (proj2 (back_is_void_iff_last_cell_void example_vector Hc) Hpos).
Defined.

Lemma find_range_finds_the_cell_witness :
  canonical 1 example_vector
  /\ match find_range example_vector 4 with
     | Ret r =>
         In r (ranges example_vector) /\ includes r 4 = true
         /\ get example_vector 4 = datarange_get r 4
         /\ is_void example_vector 4 = Ret false
     | Throw e => e = out_of_range /\ cell (ranges example_vector) 4 = None
     | Undefined => False
     end.
Proof.
  pose proof example_vector_canonical as Hc.
  split; [exact Hc|]. exact (proj1 (find_range_finds_the_cell example_vector 4 Hc)).
Defined.

Lemma make_void_voids_the_interval_witness :
  canonical 1 example_vector /\ nominal_size example_vector < 2 ^ 63
  /\ (reachable 0%nat example_vector (const_iterator_ctor 0%nat example_vector 4)
      \/ const_iterator_ctor 0%nat example_vector 4 = cend 0%nat example_vector)
  /\ (reachable 0%nat example_vector (const_iterator_ctor 0%nat example_vector 5)
      \/ const_iterator_ctor 0%nat example_vector 5 = cend 0%nat example_vector)
  /\ (reachable 0%nat example_vector (const_iterator_ctor 0%nat example_vector 8)
      \/ const_iterator_ctor 0%nat example_vector 8 = cend 0%nat example_vector)
  /\ make_void_with_capacity 2 0%nat example_vector
       (const_iterator_ctor 0%nat example_vector 4)
       (const_iterator_ctor 0%nat example_vector 5) = Undefined
  /\ exists v',
      make_void_with_capacity 2 0%nat example_vector
        (const_iterator_ctor 0%nat example_vector 4)
        (const_iterator_ctor 0%nat example_vector 8) = Ret v'
      /\ is_valid v' = true /\ vec_size v' = vec_size example_vector
      /\ get v' 7 = 0 /\ get v' 8 = get example_vector 8.
Proof.
  pose proof example_vector_canonical as Hc.
  assert (nominal_size example_vector < 2 ^ 63) as Hn by reflexivity.
  assert (reachable 0%nat example_vector (const_iterator_ctor 0%nat example_vector 4)
          \/ const_iterator_ctor 0%nat example_vector 4 = cend 0%nat example_vector) as H4
      by (left; apply reach_ctor; split; [lia | reflexivity]).
  assert (reachable 0%nat example_vector (const_iterator_ctor 0%nat example_vector 5)
          \/ const_iterator_ctor 0%nat example_vector 5 = cend 0%nat example_vector) as H5
      by (left; apply reach_ctor; split; [lia | reflexivity]).
  assert (reachable 0%nat example_vector (const_iterator_ctor 0%nat example_vector 8)
          \/ const_iterator_ctor 0%nat example_vector 8 = cend 0%nat example_vector) as H8
      by (left; apply reach_ctor; split; [lia | reflexivity]).
  split; [exact Hc|]. split; [exact Hn|]. split; [exact H4|]. split; [exact H5|].
  split; [exact H8|]. split.
  - exact (proj1 (make_void_voids_the_interval 2 0%nat example_vector _ _ Hc Hn H4 H5)).
  - assert (exists v',
               make_void_with_capacity 2 0%nat example_vector
                 (const_iterator_ctor 0%nat example_vector 4)
                 (const_iterator_ctor 0%nat example_vector 8) = Ret v'
               /\ canonical 1 v' /\ is_valid v' = true
               /\ vec_size v' = vec_size example_vector
               /\ (forall k, 4 <= k < 8 -> cell (ranges v') k = None /\ get v' k = value_zero)
               /\ (forall k, k < 4 \/ 8 <= k ->
                     cell (ranges v') k = cell (ranges example_vector) k
                     /\ get v' k = get example_vector k)
               /\ (8 <= 4 -> v' = example_vector)) as H
        by exact (proj1 (make_void_voids_the_interval 2 0%nat example_vector _ _ Hc Hn H4 H8)).
    destruct H as (v' & E & _ & Hv & Hs & Hin & Hout & _).
    exists v'. split; [exact E|]. split; [exact Hv|]. split; [exact Hs|]. split.
    + exact (proj2 (Hin 7 ltac:(lia))).
    + exact (proj2 (Hout 8 ltac:(right; lia))).
Defined.

Lemma make_void_around_removes_the_range_witness :
  canonical 1 example_vector
  /\ match make_void_around example_vector 4 with
     | Throw e => e = out_of_range
     | Ret (v', r) => vec_size v' = vec_size example_vector /\ is_valid v' = true
     | Undefined => False
     end.
Proof.
  pose proof example_vector_canonical as Hc.
  pose proof (make_void_around_removes_the_range example_vector 4 Hc) as H.
  split; [exact Hc|].
  destruct (make_void_around example_vector 4) as [[v' r]|e|].
  - destruct H as (_ & _ & _ & Hv & Hs & _). split; [exact Hs | exact Hv].
  - exact (proj1 H).
  - exact H.
Defined.

Lemma assignment_through_reference_witness :
  canonical 1 example_vector /\ cell (ranges example_vector) 4 = Some 2
  /\ const_reference_value example_vector (get_reference example_vector 4) = Ret 2
  /\ reference_assign example_vector (get_reference example_vector 4) 9
     = set_at example_vector 4 9.
Proof.
  pose proof example_vector_canonical as Hc.
  assert (cell (ranges example_vector) 4 = Some 2) as Hcell by reflexivity.
  destruct (assignment_through_reference example_vector 4 9 2 Hc Hcell)
    as (Hread & _ & Hwrite & _).
  split; [exact Hc|]. split; [exact Hcell|]. split; [exact Hread | exact Hwrite].
Defined.

Lemma combine_range_then_get_witness :
  canonical 1 example_vector /\ [1; 1] <> [] /\ 0 <= 5 /\ 5 + vsize [1; 1] < size_modulus
  /\ exists v',
      combine_range example_vector 5 [1; 1] Z.add 100 = Ret v'
      /\ get v' 5 = 3 + 1 /\ get v' 6 = 100 + 1 /\ get v' 7 = get example_vector 7.
Proof.
  pose proof example_vector_canonical as Hc.
  assert ([1; 1] <> []) as Hd by discriminate.
  assert (0 <= 5) as Ho by lia.
  assert (5 + vsize [1; 1] < size_modulus) as Hend by reflexivity.
  destruct (combine_range_then_get Z.add 100 example_vector 5 [1; 1] Hc Hd Ho Hend)
    as (v' & E & _ & _ & Hin & Hout).
  split; [exact Hc|]. split; [exact Hd|]. split; [exact Ho|]. split; [exact Hend|].
  exists v'. split; [exact E|]. split; [|split].
  - exact (proj1 (Hin 0%nat ltac:(simpl; lia))).
  - exact (proj1 (Hin 1%nat ltac:(simpl; lia))).
  - exact (proj1 (Hout 7 ltac:(right; simpl; lia))).
Defined.

Lemma increments_from_begin_witness :
  canonical 0 example_vector /\ Z.of_nat 4 <= vec_size example_vector
  /\ Nat.iter 4 (increment example_vector) (cbegin 0%nat example_vector)
     = const_iterator_ctor 0%nat example_vector 4
  /\ dereference example_vector
       (Nat.iter 4 (increment example_vector) (cbegin 0%nat example_vector))
     = Ret (get example_vector 4).
Proof.
  pose proof (canonical_weaken example_vector example_vector_canonical) as Hc.
  assert (Z.of_nat 4 <= vec_size example_vector) as Hn by (simpl; lia).
  destruct (increments_from_begin 0%nat example_vector 4 Hc Hn) as (Hctor & _ & Hderef & _).
  split; [exact Hc|]. split; [exact Hn|]. split; [exact Hctor | exact Hderef].
Defined.

Lemma plus_and_plus_assign_witness :
  canonical 0 example_vector
  /\ reachable 0%nat example_vector (cbegin 0%nat example_vector)
  /\ 0 <= index (cbegin 0%nat example_vector) + 15 < size_modulus
  /\ exists it1,
      iterator_plus example_vector (cbegin 0%nat example_vector) 15 = Ret it1
      /\ it1 = cend 0%nat example_vector.
Proof.
  pose proof (canonical_weaken example_vector example_vector_canonical) as Hc.
  pose proof (reach_begin 0%nat example_vector) as Hr.
  assert (0 <= index (cbegin 0%nat example_vector) + 15 < size_modulus) as Hk
      by (split; [simpl; lia | reflexivity]).
  destruct (plus_and_plus_assign 0%nat example_vector _ 15 Hc Hr Hk)
    as (it1 & E & _ & _ & Hbeyond).
  split; [exact Hc|]. split; [exact Hr|]. split; [exact Hk|].
  exists it1. split; [exact E|]. exact (proj1 (Hbeyond ltac:(simpl; lia))).
Defined.

Lemma distance_of_iterators_witness :
  canonical 0 example_vector /\ vec_size example_vector < 2 ^ 63
  /\ reachable 0%nat example_vector (cbegin 0%nat example_vector)
  /\ index (cbegin 0%nat example_vector) <= vec_size example_vector
  /\ distance (cend 0%nat example_vector) (cbegin 0%nat example_vector)
     = Ret (vec_size example_vector).
Proof.
  pose proof (canonical_weaken example_vector example_vector_canonical) as Hc.
  assert (vec_size example_vector < 2 ^ 63) as Hn by reflexivity.
  pose proof (reach_begin 0%nat example_vector) as Hr.
  assert (index (cbegin 0%nat example_vector) <= vec_size example_vector) as Hi
      by (simpl; lia).
  split; [exact Hc|]. split; [exact Hn|]. split; [exact Hr|]. split; [exact Hi|].
  exact (proj1 (proj2 (distance_of_iterators 0%nat example_vector _ _ Hc Hn Hr Hr Hi Hi))).
Defined.

Lemma minus_assign_undoes_plus_assign_witness :
  canonical 0 example_vector
  /\ reachable 0%nat example_vector (cbegin 0%nat example_vector)
  /\ 0 <= 4 < 2 ^ 63
  /\ index (cbegin 0%nat example_vector) + 4 <= vec_size example_vector
  /\ exists it',
      plus_assign example_vector (cbegin 0%nat example_vector) 4 = Ret it'
      /\ minus_assign example_vector it' 4 = Ret (cbegin 0%nat example_vector).
Proof.
  pose proof (canonical_weaken example_vector example_vector_canonical) as Hc.
  pose proof (reach_begin 0%nat example_vector) as Hr.
  assert (0 <= 4 < 2 ^ 63) as Hd by (split; [lia | reflexivity]).
  assert (index (cbegin 0%nat example_vector) + 4 <= vec_size example_vector) as Hle
      by (simpl; lia).
  destruct (minus_assign_undoes_plus_assign 0%nat example_vector _ 4 Hc Hr Hd Hle)
    as (it' & E & _ & Hback & _).
  split; [exact Hc|]. split; [exact Hr|]. split; [exact Hd|]. split; [exact Hle|].
  exists it'. split; [exact E | exact Hback].
Defined.

Lemma iterator_minus_assign_moves_forward_witness :
  canonical 0 example_vector
  /\ reachable 0%nat example_vector (cbegin 0%nat example_vector)
  /\ 2 <= 4 /\ index (cbegin 0%nat example_vector) + 4 < size_modulus
  /\ exists it',
      iterator_minus_assign example_vector (cbegin 0%nat example_vector) 4 = Ret it'
      /\ index it' = 4.
Proof.
  pose proof (canonical_weaken example_vector example_vector_canonical) as Hc.
  pose proof (reach_begin 0%nat example_vector) as Hr.
  assert (2 <= 4) as Hd by lia.
  assert (index (cbegin 0%nat example_vector) + 4 < size_modulus) as Hk by reflexivity.
  destruct (iterator_minus_assign_moves_forward 0%nat example_vector _ 4 Hc Hr Hd Hk)
    as (it' & E & Hi & _).
  split; [exact Hc|]. split; [exact Hr|]. split; [exact Hd|]. split; [exact Hk|].
  exists it'. split; [exact E | exact Hi].
Defined.

Lemma datarange_operations_witness :
  range_ok (DataRange (Range 3 6) [1; 2; 3]) /\ 0 <= 3 /\ 6 < size_modulus
  /\ move_tail (DataRange (Range 3 6) [1; 2; 3]) 5 0 = DataRange (Range 3 5) [1; 2]
  /\ move_head (DataRange (Range 3 6) [1; 2; 3]) 1 0 = DataRange (Range 1 6) [0; 0; 1; 2; 3].
Proof.
  assert (range_ok (DataRange (Range 3 6) [1; 2; 3])) as Hok by reflexivity.
  assert (0 <= 3) as Ho by lia.
  assert (6 < size_modulus) as Hl by reflexivity.
  split; [exact Hok|]. split; [exact Ho|]. split; [exact Hl|]. split.
  - exact (proj1 (proj1 (proj2 (datarange_operations (DataRange (Range 3 6) [1; 2; 3])
                                  3 5 [] 0 Hok Ho Hl))
                    ltac:(split; [simpl; lia | reflexivity]))).
  - exact (proj1 (proj2 (proj2 (datarange_operations (DataRange (Range 3 6) [1; 2; 3])
                                  3 1 [] 0 Hok Ho Hl))
                    ltac:(simpl; lia) ltac:(split; reflexivity))).
Defined.

End SparseVector.

(** * Properties of [sim::ParticleAncestryMap] *)

Module ParticleAncestryMapFacts.

Import ParticleAncestryMap.

Lemma set_count_iff (descendants : list Z) (trackid : Z) :
  set_count descendants trackid = true <-> In trackid descendants.
Proof.
  unfold set_count. rewrite existsb_exists. split.
  - intros (x & Hin & E). apply Z.eqb_eq in E. subst. exact Hin.
  - intros Hin. exists trackid. split; [exact Hin | apply Z.eqb_refl].
Qed.

(** [GetAncestor] returns the key of the first entry whose set holds
    [trackid], and the sentinel when there is none. *)
Lemma GetAncestor_loop_spec (entries : particle_map) (trackid : Z) :
  (GetAncestor_loop entries trackid = - int_max
   /\ forall ancestor descendants,
       In (ancestor, descendants) entries -> ~ In trackid descendants)
  \/ exists descendants,
      In (GetAncestor_loop entries trackid, descendants) entries
      /\ In trackid descendants.
Proof.
  induction entries as [|[ancestor descendants] entries IH]; simpl.
  - left. split; [reflexivity | intros a d []].
  - destruct (set_count descendants trackid) eqn:E.
    + right. exists descendants. apply set_count_iff in E. auto.
    + destruct IH as [[Hnone Hall] | (d & Hin & Ht)].
      * left. split; [exact Hnone|]. intros a d [[= <- <-] | Hin].
        -- intros Hd. apply set_count_iff in Hd. congruence.
        -- apply (Hall a d Hin).
      * right. exists d. auto.
Qed.

(** C8.  [Exists(trackid)] is true exactly when [trackid] differs from
    [-INT_MAX]; provided no ancestor key of the map equals [-INT_MAX],
    [GetAncestor(trackid)] returns [-INT_MAX] exactly when no descendant set
    of the map contains [trackid]; and [Exists(GetAncestor(t))] is false for
    every [t] that no descendant set contains. *)
Theorem C8_sentinel_of_the_ancestry_map (this : ParticleAncestryMap) (trackid : Z) :
  (forall ancestor descendants,
      In (ancestor, descendants) (fParticleMap this) -> ancestor <> - int_max) ->
  (Exists this trackid = true <-> trackid <> - int_max)
  /\ (GetAncestor this trackid = - int_max
      <-> forall ancestor descendants,
          In (ancestor, descendants) (fParticleMap this) -> ~ In trackid descendants)
  /\ ((forall ancestor descendants,
          In (ancestor, descendants) (fParticleMap this) -> ~ In trackid descendants)
      -> Exists this (GetAncestor this trackid) = false).
Proof.
  intros Hkeys. unfold Exists, GetAncestor.
  pose proof (GetAncestor_loop_spec (fParticleMap this) trackid) as S.
  split; [|split].
  - rewrite negb_true_iff, Z.eqb_neq. tauto.
  - split.
    + intros E. destruct S as [[_ Hall] | (d & Hin & Ht)]; [exact Hall|].
      rewrite E in Hin. exfalso. exact (Hkeys _ _ Hin eq_refl).
    + intros Hall. destruct S as [[E _] | (d & Hin & Ht)]; [exact E|].
      exfalso. exact (Hall _ _ Hin Ht).
  - intros Hall. destruct S as [[E _] | (d & Hin & Ht)].
    + rewrite E. rewrite Z.eqb_refl. reflexivity.
    + exfalso. exact (Hall _ _ Hin Ht).
Qed.

Lemma C8_witness :
  (forall ancestor descendants,
      In (ancestor, descendants) (fParticleMap example_map) -> ancestor <> - int_max)
  /\ Exists example_map (GetAncestor example_map 7) = false.
Proof.
  assert (forall ancestor descendants,
             In (ancestor, descendants) (fParticleMap example_map)
             -> ancestor <> - int_max) as Hkeys.
  { simpl. intros a d [[= <- <-] | [[= <- <-] | []]]; unfold int_max; lia. }
  split; [exact Hkeys|].
  apply (proj2 (proj2 (C8_sentinel_of_the_ancestry_map example_map 7 Hkeys))).
  simpl. intros a d [[= <- <-] | [[= <- <-] | []]]; simpl; lia.
Defined.


(** ** Looking up the ancestry map *)

Lemma find_key_spec (entries : particle_map) (trackid : Z) :
  match find (fun entry : Z * list Z => trackid =? fst entry) entries with
  | Some entry =>
      fst entry = trackid /\ In entry entries
      /\ existsb (fun entry : Z * list Z => trackid =? fst entry) entries = true
  | None => existsb (fun entry : Z * list Z => trackid =? fst entry) entries = false
  end.
Proof.
  induction entries as [|[key set] entries IH]; [reflexivity|]. simpl.
  destruct (Z.eqb_spec trackid key) as [->|Hne].
  - simpl. auto.
  - simpl. destruct (find _ entries) as [entry|].
    + destruct IH as (A & B & C). auto.
    + exact IH.
Qed.

(** X29.  [GetAllDroppedDescendants(trackid)] throws [out_of_range] exactly
    when [HasDroppedDescendants(trackid)] is false, that is when the track
    id is not a key of the map; otherwise it returns the set stored under
    that key. *)
Theorem dropped_descendants_lookup (this : ParticleAncestryMap) (trackid : Z) :
  (HasDroppedDescendants this trackid = false
   <-> GetAllDroppedDescendants this trackid = Throw out_of_range)
  /\ (HasDroppedDescendants this trackid = true
      <-> exists descendants,
            GetAllDroppedDescendants this trackid = Ret descendants
            /\ In (trackid, descendants) (fParticleMap this))
  /\ (HasDroppedDescendants this trackid = true
      <-> exists descendants, In (trackid, descendants) (fParticleMap this)).
Proof.
  unfold HasDroppedDescendants, GetAllDroppedDescendants.
  pose proof (find_key_spec (fParticleMap this) trackid) as H.
  destruct (find _ (fParticleMap this)) as [[key set]|].
  - destruct H as (A & B & C). simpl in A. subst key. rewrite C.
    split; [split; discriminate|]. split.
    + split; [|reflexivity]. intros _. exists set. auto.
    + split; [|reflexivity]. intros _. exists set. exact B.
  - rewrite H. split; [split; reflexivity|]. split.
    + split; [discriminate|]. intros (d & E & _). discriminate.
    + split; [discriminate|]. intros (d & Hin). exfalso.
      apply Bool.not_true_iff_false in H. apply H. apply existsb_exists.
      exists (trackid, d). split; [exact Hin | apply Z.eqb_refl].
Qed.

Lemma find_first_key (key : Z) (set : list Z) (entries : particle_map) :
  keys_increasing entries -> In (key, set) entries ->
  find (fun entry : Z * list Z => key =? fst entry) entries = Some (key, set).
Proof.
  intros Hs Hin. induction Hs as [|[k s] entries Hs IH Hall]; [contradiction|].
  simpl. destruct Hin as [Heq|Hin].
  - injection Heq as -> ->. rewrite Z.eqb_refl. reflexivity.
  - rewrite Forall_forall in Hall. pose proof (Hall _ Hin) as Hlt. simpl in Hlt.
    replace (key =? k) with false by (symmetry; apply Z.eqb_neq; lia).
    apply IH. exact Hin.
Qed.

(** X30.  [GetAncestor(trackid)], when it does not return the sentinel
    [-INT_MAX], returns a key of the map whose set of descendants contains
    the track id, so that [HasDroppedDescendants] holds of it and
    [GetAllDroppedDescendants] returns a set with the track id in it; and
    since the map is walked in increasing order of the keys, it is the
    least such key. *)
Theorem ancestor_of_a_descendant (this : ParticleAncestryMap) (trackid : Z) :
  keys_increasing (fParticleMap this) ->
  GetAncestor this trackid <> - int_max ->
  HasDroppedDescendants this (GetAncestor this trackid) = true
  /\ (exists descendants,
        GetAllDroppedDescendants this (GetAncestor this trackid) = Ret descendants
        /\ In trackid descendants)
  /\ (forall ancestor descendants,
        In (ancestor, descendants) (fParticleMap this) -> In trackid descendants ->
        GetAncestor this trackid <= ancestor).
Proof.
  intros Hs Hfound. unfold GetAncestor in *.
  destruct (GetAncestor_loop_spec (fParticleMap this) trackid) as [[E _] | (d & Hin & Ht)];
    [contradiction|].
  pose proof (find_first_key _ _ _ Hs Hin) as Hfind.
  split; [|split].
  - unfold HasDroppedDescendants. apply existsb_exists.
    exists (GetAncestor_loop (fParticleMap this) trackid, d).
    split; [exact Hin | apply Z.eqb_refl].
  - exists d. unfold GetAllDroppedDescendants. rewrite Hfind. split; [reflexivity | exact Ht].
  - clear Hfound d Hin Ht Hfind.
    induction Hs as [|[k s] entries Hs IH Hall]; [contradiction|].
    intros ancestor descendants Hin Ht. simpl.
    destruct (set_count s trackid) eqn:Ec.
    + destruct Hin as [Heq|Hin]; [injection Heq as -> _; lia|].
      rewrite Forall_forall in Hall. pose proof (Hall _ Hin) as Hlt. simpl in Hlt. lia.
    + destruct Hin as [Heq|Hin].
      * injection Heq as -> ->. apply set_count_iff in Ht. congruence.
      * apply (IH ancestor descendants); assumption.
Qed.

Lemma ancestor_of_a_descendant_witness :
  keys_increasing (fParticleMap example_map)
  /\ GetAncestor example_map 5 <> - int_max
  /\ HasDroppedDescendants example_map (GetAncestor example_map 5) = true
  /\ GetAncestor example_map 5 = 4.
Proof.
  assert (keys_increasing (fParticleMap example_map)) as Hs.
  { unfold keys_increasing, example_map. simpl.
    repeat constructor; simpl; lia. }
  assert (GetAncestor example_map 5 <> - int_max) as Hfound by discriminate.
  split; [exact Hs|]. split; [exact Hfound|].
  split; [exact (proj1 (ancestor_of_a_descendant example_map 5 Hs Hfound)) | reflexivity].
Defined.

End ParticleAncestryMapFacts.
